(** * Movie Explorer: the query-and-display pipeline

    A shallow embedding of the two versions of the [Movie] component,
    [src/components/Movie.js] (module [MovieJs]) and the second version of the
    same component (module [Part000]), and the properties of the fetch
    orchestration and of the result ordering.

    Conventions of the embedding:
    - a JavaScript string is the list of its UTF-16 code units;
    - [page], HTTP statuses and time values are integers ([Z]); a time value
      is an integral Number below 2^53 in magnitude, so [Z] is exact for it,
      and a page number grows by one per click, far from where [p + 1] stops
      being exact;
    - [vote_average] is the rational value of a finite double; the comparators
      of the component are used by [Array.prototype.sort] through their sign
      only, and the sign of the difference of two finite doubles is the sign
      of the exact difference;
    - a thrown exception is the [Throw] of its [message];
    - React's state is a record, an event handler is a function on it, and an
      effect runs after the handler when one of its dependencies changed. *)

From Stdlib Require Import List ZArith NArith QArith Bool Lia Lqa.
From Stdlib Require Import String Ascii DecimalString Permutation Sorted.
Import ListNotations.

Local Open Scope Z_scope.
Local Open Scope list_scope.

(** ** JavaScript strings and the built-ins the component calls *)

Module JS.

Definition jsstring := list N.

Definition lit (s : string) : jsstring :=
  map N_of_ascii (list_ascii_of_string s).

Definition jsstring_eq_dec (a b : jsstring) : {a = b} + {a <> b} :=
  list_eq_dec N.eq_dec a b.

Definition str_eqb (a b : jsstring) : bool :=
  if jsstring_eq_dec a b then true else false.

(** ToBoolean of a string: the empty string is the only falsy one. *)
Definition truthy (s : jsstring) : bool :=
  match s with [] => false | _ :: _ => true end.

(** ToBoolean of a property that may be missing ([undefined] or [null]). *)
Definition truthy_opt (o : option jsstring) : bool :=
  match o with Some s => truthy s | None => false end.

(** [a || b] on strings. *)
Definition or_else (a b : jsstring) : jsstring :=
  if truthy a then a else b.

(** WhiteSpace and LineTerminator code units, as String.prototype.trim
    strips them. *)
Definition is_white_space (c : N) : bool :=
  ((9 <=? c) && (c <=? 13) || (c =? 32) || (c =? 160) || (c =? 5760)
   || (8192 <=? c) && (c <=? 8202) || (c =? 8232) || (c =? 8233)
   || (c =? 8239) || (c =? 8287) || (c =? 12288) || (c =? 65279))%N.

Fixpoint trim_start (s : jsstring) : jsstring :=
  match s with
  | c :: s' => if is_white_space c then trim_start s' else s
  | [] => []
  end.

Definition trim (s : jsstring) : jsstring :=
  rev (trim_start (rev (trim_start s))).

(** Number::toString of an integral Number: its decimal digits (the form
    below 10^21). *)
Definition Number_toString (n : Z) : jsstring :=
  lit (NilZero.string_of_int (Z.to_int n)).

(** Results of code that may throw. *)
Inductive result (A : Type) : Type :=
| Ok (a : A)
| Throw (message : jsstring).
Arguments Ok {A} a.
Arguments Throw {A} message.

Definition bind {A B} (r : result A) (k : A -> result B) : result B :=
  match r with Ok a => k a | Throw m => Throw m end.

(** *** encodeURIComponent *)

(** uriUnreserved: letters, digits and [- _ . ! ~ * ' ( )]. *)
Definition uri_unreserved (c : N) : bool :=
  ((65 <=? c) && (c <=? 90) || (97 <=? c) && (c <=? 122)
   || (48 <=? c) && (c <=? 57)
   || (c =? 45) || (c =? 95) || (c =? 46) || (c =? 33) || (c =? 126)
   || (c =? 42) || (c =? 39) || (c =? 40) || (c =? 41))%N.

Definition is_leading_surrogate (c : N) : bool :=
  ((55296 <=? c) && (c <=? 56319))%N.
Definition is_trailing_surrogate (c : N) : bool :=
  ((56320 <=? c) && (c <=? 57343))%N.

Definition hex_digit (d : N) : N :=
  (if d mod 16 <? 10 then 48 + d mod 16 else 55 + d mod 16)%N.

(** One octet as [%XX], upper-case hexadecimal. *)
Definition percent (b : N) : jsstring :=
  [37%N; hex_digit (b / 16); hex_digit b].

Definition utf8 (cp : N) : list N :=
  (if cp <? 128 then [cp]
   else if cp <? 2048 then [192 + cp / 64; 128 + cp mod 64]
   else if cp <? 65536 then
     [224 + cp / 4096; 128 + (cp / 64) mod 64; 128 + cp mod 64]
   else
     [240 + cp / 262144; 128 + (cp / 4096) mod 64;
      128 + (cp / 64) mod 64; 128 + cp mod 64])%N.

Definition escape (cp : N) : jsstring := flat_map percent (utf8 cp).

Definition URIError_message : jsstring := lit "URI malformed".

Fixpoint encodeURIComponent (s : jsstring) : result jsstring :=
  match s with
  | [] => Ok []
  | c :: rest =>
    if uri_unreserved c then
      bind (encodeURIComponent rest) (fun e => Ok (c :: e))
    else if is_leading_surrogate c then
      match rest with
      | d :: rest' =>
        if is_trailing_surrogate d then
          bind (encodeURIComponent rest')
               (fun e => Ok (escape ((c - 55296) * 1024 + (d - 56320) + 65536)%N ++ e))
        else Throw URIError_message
      | [] => Throw URIError_message
      end
    else if is_trailing_surrogate c then Throw URIError_message
    else bind (encodeURIComponent rest) (fun e => Ok (escape c ++ e))
  end.

(** *** Array.prototype.sort

    ECMAScript requires the sort to be stable, and to order the array when the
    comparator is consistent; with such a comparator the resulting array is
    determined, whatever algorithm the engine runs.  A comparator enters
    through the sign of the number it returns: [Lt] for a negative number,
    [Gt] for a positive one, [Eq] for zero. *)

Section Sort.
Context {A : Type} (comparefn : A -> A -> comparison).

Fixpoint insert (x : A) (l : list A) : list A :=
    match l with
    | [] => [x]
    | y :: l' =>
      match comparefn x y with
      | Gt => y :: insert x l'
      | _ => x :: l
      end
    end.

Fixpoint Array_sort (l : list A) : list A :=
    match l with
    | [] => []
    | x :: l' => insert x (Array_sort l')
    end.
End Sort.

Definition sign_Z (v : Z) : comparison := (v ?= 0)%Z.
Definition sign_Q (v : Q) : comparison := (v ?= 0)%Q.

(** [haystack.startsWith(needle)] and [haystack.includes(needle)]. *)
Fixpoint startsWith (needle haystack : jsstring) : bool :=
  match needle, haystack with
  | [], _ => true
  | a :: n', b :: h' => (a =? b)%N && startsWith n' h'
  | _ :: _, [] => false
  end.

Fixpoint includes (needle haystack : jsstring) : bool :=
  startsWith needle haystack
  || match haystack with
     | [] => false
     | _ :: h' => includes needle h'
     end.

End JS.
Import JS.

(** ** Predicates on strings and lists *)

(** String.prototype.isWellFormed: no lone surrogate. *)
Fixpoint isWellFormed (s : jsstring) : bool :=
  match s with
  | [] => true
  | c :: rest =>
    if is_leading_surrogate c then
      match rest with
      | d :: rest' => is_trailing_surrogate d && isWellFormed rest'
      | [] => false
      end
    else negb (is_trailing_surrogate c) && isWellFormed rest
  end.

(** The characters an escaped component is made of: the unreserved ones and
    the percent sign.  None of [& = ? # / + space] is among them. *)
Definition uri_component_char (c : N) : bool :=
  uri_unreserved c || (c =? 37)%N.

(** [all_before P Q l]: every element with [P] stands before every element
    with [Q]. *)
Definition all_before {A} (P Q : A -> bool) (l : list A) : Prop :=
  forall i j x y,
    nth_error l i = Some x -> nth_error l j = Some y ->
    P x = true -> Q y = true -> (i < j)%nat.

(** ** Data model *)

(** A movie of the [results] array, through the properties the component
    reads.  A property is [None] when it is missing or [null]; when present
    it has the type the API documents (a string may be empty). *)
Record MovieRecord := {
  id : Z;
  title : option jsstring;
  release_date : option jsstring;
  vote_average : option Q;
  poster_path : option jsstring
}.

(** The values [data.results] can be; an array holds movies. *)
Inductive jsval :=
| JUndefined
| JNull
| JBool (b : bool)
| JNum (n : Q)
| JStr (s : jsstring)
| JArr (elems : list MovieRecord)
| JObj.

Definition Array_isArray (v : jsval) : bool :=
  match v with JArr _ => true | _ => false end.

(** The parsed body of a response: [null], or a value with the two
    properties the component reads ([total_pages] is [None] when it is
    missing; for a body that is not an object both are missing). *)
Record Body := { results : jsval; total_pages : option Z }.

Inductive Json :=
| JsonNull
| JsonValue (data : Body).

Definition TypeError_message : jsstring :=
  lit "Cannot read properties of null (reading 'results')".

(** The two awaits of [load]. *)
Inductive Stage := AwaitFetch | AwaitJson.

(** One suspended call of [load]: the run of the effect that launched it,
    the closure's [cancelled] flag, the await it is suspended at, and the
    resource it fetches. *)
Record Request := {
  rid : nat;
  cancelled : bool;
  stage : Stage;
  resource : jsstring
}.

Definition cancel (k : nat) (r : Request) : Request :=
  if Nat.eqb (rid r) k
  then {| rid := rid r; cancelled := true; stage := stage r; resource := resource r |}
  else r.

Definition advance (k : nat) (r : Request) : Request :=
  if Nat.eqb (rid r) k
  then {| rid := rid r; cancelled := cancelled r; stage := AwaitJson; resource := resource r |}
  else r.

Definition lookup_request (k : nat) (l : list Request) : option Request :=
  find (fun r => Nat.eqb (rid r) k) l.

Definition drop_request (k : nat) (l : list Request) : list Request :=
  filter (fun r => negb (Nat.eqb (rid r) k)) l.

Definition is_stage (a b : Stage) : bool :=
  match a, b with
  | AwaitFetch, AwaitFetch | AwaitJson, AwaitJson => true
  | _, _ => false
  end.

Definition live (r : Request) : bool := negb (cancelled r).

(** The bookkeeping of the effect: the identifiers in flight are below the
    number of runs, only the call of the last run can have its flag down, and
    no identifier is in flight twice. *)
Record tracked (l : list Request) (c : option nat) (n : nat) : Prop := {
  tracked_fresh : forall r, In r l -> (rid r < n)%nat;
  tracked_live : forall r, In r l -> cancelled r = false -> c = Some (rid r);
  tracked_last : forall k, c = Some k -> n = S k;
  tracked_nodup : NoDup (map rid l)
}.

(** ** Result presenter: the comparison keys

    [dateVal] and [ratingVal] are the same in both versions of the component.
    [Date_parse s] is the time value of [new Date(s)], [None] for an invalid
    date ([NaN]); what it accepts beyond the ISO format is left to the
    engine, so it is a parameter. *)

Section Keys.
Variable Date_parse : jsstring -> option Z.

Definition Number_isFinite (t : option Z) : bool :=
  match t with Some _ => true | None => false end.

Definition dateVal (m : MovieRecord) : Z :=
  let t :=
    match release_date m with
    | Some s => if truthy s then Date_parse s else Some 0
    | None => Some 0
    end in
  match t with
  | Some v => v
  | None => 0
  end.

Definition ratingVal (m : MovieRecord) : Q :=
  match vote_average m with
  | Some v => v
  | None => 0%Q
  end.

(** The record has a release date that parses. *)
Definition has_valid_date (m : MovieRecord) : bool :=
  match release_date m with
  | Some s => truthy s && Number_isFinite (Date_parse s)
  | None => false
  end.

Definition release_asc (a b : MovieRecord) : comparison :=
  sign_Z (dateVal a - dateVal b).
Definition release_desc (a b : MovieRecord) : comparison :=
  sign_Z (dateVal b - dateVal a).
Definition rating_asc (a b : MovieRecord) : comparison :=
  sign_Q (ratingVal a - ratingVal b).
Definition rating_desc (a b : MovieRecord) : comparison :=
  sign_Q (ratingVal b - ratingVal a).

End Keys.

(** A [Date_parse] for the date-only ISO form [YYYY-MM-DD], the form of the
    API's [release_date]; it is what the examples run with. *)
Definition digit (c : N) : option Z :=
  if ((48 <=? c) && (c <=? 57))%N then Some (Z.of_N c - 48) else None.

Fixpoint digits (acc : Z) (s : jsstring) : option Z :=
  match s with
  | [] => Some acc
  | c :: s' =>
    match digit c with
    | Some d => digits (10 * acc + d) s'
    | None => None
    end
  end.

Definition days_from_civil (y m d : Z) : Z :=
  let y' := if m <=? 2 then y - 1 else y in
  let era := y' / 400 in
  let yoe := y' - era * 400 in
  let doy := (153 * (if 2 <? m then m - 3 else m + 9) + 2) / 5 + d - 1 in
  let doe := yoe * 365 + yoe / 4 - yoe / 100 + doy in
  era * 146097 + doe - 719468.

Definition Date_parse_iso (s : jsstring) : option Z :=
  match s with
  | [y1; y2; y3; y4; 45%N; m1; m2; 45%N; d1; d2] =>
    match digits 0 [y1; y2; y3; y4], digits 0 [m1; m2], digits 0 [d1; d2] with
    | Some y, Some m, Some d =>
      if (1 <=? m) && (m <=? 12) && (1 <=? d) && (d <=? 31)
      then Some (days_from_civil y m d * 86400000)
      else None
    | _, _, _ => None
    end
  | _ => None
  end.

Definition or_else_opt (o : option jsstring) (d : jsstring) : jsstring :=
  match o with
  | Some s => or_else s d
  | None => d
  end.

Definition placeholder : jsstring :=
  lit "https://via.placeholder.com/342x513?text=No+Poster".

(** What one card of the grid shows: the image reference, the reference the
    [onError] handler of the image puts in its place, and the texts. *)
Record Card := {
  key : Z;
  src : jsstring;
  onError_src : jsstring;
  alt : jsstring;
  title_text : jsstring;
  date_text : jsstring
}.

(** ** [src/components/Movie.js] *)

Module MovieJs.

Definition IMG_BASE : jsstring := lit "https://image.tmdb.org/t/p/w342".

(** The [useState] cells, and what React and the event loop hold for the
    effect: the suspended calls of [load] (newest first), the cleanup
    function of the last run of the effect (it sets the [cancelled] flag of
    that run) and the number of runs so far. *)
Record State := {
  movies : jsval;
  page : Z;
  searchInput : jsstring;
  query : jsstring;
  sort : jsstring;
  loading : bool;
  error : jsstring;
  inflight : list Request;
  cleanup : option nat;
  next_rid : nat
}.

Definition setMovies (v : jsval) (s : State) : State :=
  {| movies := v; page := page s; searchInput := searchInput s;
     query := query s; sort := sort s; loading := loading s; error := error s;
     inflight := inflight s; cleanup := cleanup s; next_rid := next_rid s |}.
Definition setPage (v : Z) (s : State) : State :=
  {| movies := movies s; page := v; searchInput := searchInput s;
     query := query s; sort := sort s; loading := loading s; error := error s;
     inflight := inflight s; cleanup := cleanup s; next_rid := next_rid s |}.
Definition setSearchInput (v : jsstring) (s : State) : State :=
  {| movies := movies s; page := page s; searchInput := v;
     query := query s; sort := sort s; loading := loading s; error := error s;
     inflight := inflight s; cleanup := cleanup s; next_rid := next_rid s |}.
Definition setQuery (v : jsstring) (s : State) : State :=
  {| movies := movies s; page := page s; searchInput := searchInput s;
     query := v; sort := sort s; loading := loading s; error := error s;
     inflight := inflight s; cleanup := cleanup s; next_rid := next_rid s |}.
Definition setSort (v : jsstring) (s : State) : State :=
  {| movies := movies s; page := page s; searchInput := searchInput s;
     query := query s; sort := v; loading := loading s; error := error s;
     inflight := inflight s; cleanup := cleanup s; next_rid := next_rid s |}.
Definition setLoading (v : bool) (s : State) : State :=
  {| movies := movies s; page := page s; searchInput := searchInput s;
     query := query s; sort := sort s; loading := v; error := error s;
     inflight := inflight s; cleanup := cleanup s; next_rid := next_rid s |}.
Definition setError (v : jsstring) (s : State) : State :=
  {| movies := movies s; page := page s; searchInput := searchInput s;
     query := query s; sort := sort s; loading := loading s; error := v;
     inflight := inflight s; cleanup := cleanup s; next_rid := next_rid s |}.
Definition with_inflight (l : list Request) (s : State) : State :=
  {| movies := movies s; page := page s; searchInput := searchInput s;
     query := query s; sort := sort s; loading := loading s; error := error s;
     inflight := l; cleanup := cleanup s; next_rid := next_rid s |}.
Definition with_cleanup (c : option nat) (n : nat) (s : State) : State :=
  {| movies := movies s; page := page s; searchInput := searchInput s;
     query := query s; sort := sort s; loading := loading s; error := error s;
     inflight := inflight s; cleanup := c; next_rid := n |}.

(** The state a user sees: the [useState] cells. *)
Definition cells (s : State) :=
  (movies s, page s, searchInput s, query s, sort s, loading s, error s).

Inductive Event :=
| Change (value : jsstring)
| Submit
| Clear
| SelectSort (value : jsstring)
| ClickPrevious
| ClickNext
| FetchResolved (k : nat) (ok : bool) (status : Z)
| FetchRejected (k : nat) (message : jsstring)
| JsonResolved (k : nat) (data : Json)
| JsonRejected (k : nat) (message : jsstring).

Section Component.
Variable API_KEY : option jsstring.
Variable Date_parse : jsstring -> option Z.

Definition initial : State :=
  {| movies := JArr []; page := 1; searchInput := []; query := [];
     sort := lit "release_desc"; loading := false; error := [];
     inflight := []; cleanup := None; next_rid := 0 |}.

(** The URL [load] fetches. *)
Definition base (key query : jsstring) (page : Z) : result jsstring :=
  if (0 <? List.length (trim query))%nat then
    bind (encodeURIComponent query) (fun q =>
      Ok (lit "https://api.themoviedb.org/3/search/movie?api_key=" ++ key
          ++ lit "&query=" ++ q
          ++ lit "&page=" ++ Number_toString page
          ++ lit "&include_adult=false"))
  else
    Ok (lit "https://api.themoviedb.org/3/discover/movie?api_key=" ++ key
        ++ lit "&page=" ++ Number_toString page
        ++ lit "&include_adult=false").

(** [catch (e) { if (!cancelled) setError(e.message || ...) }] and
    [finally { if (!cancelled) setLoading(false) }], with the value of the
    closure's flag. *)
Definition catch (flag : bool) (message : jsstring) (s : State) : State :=
  if flag then s
  else setError (or_else message (lit "Something went wrong.")) s.

Definition finally (flag : bool) (s : State) : State :=
  if flag then s else setLoading false s.

(** The effect: [load] runs up to [await fetch(base)]. *)
Definition effect (s : State) : State :=
  match API_KEY with
  | Some ((_ :: _) as key) =>
    let k := next_rid s in
    let s := setError [] (setLoading true s) in
    let s :=
      match base key (query s) (page s) with
      | Ok u =>
        with_inflight
          ({| rid := k; cancelled := false; stage := AwaitFetch; resource := u |}
           :: inflight s) s
      | Throw m => finally false (catch false m s)
      end in
    with_cleanup (Some k) (S k) s
  | _ =>
    with_cleanup None (next_rid s)
      (setError
         (lit "Missing REACT_APP_TMDB_API_KEY. Add it to a .env file and restart npm start.")
         s)
  end.

(** The cleanup React calls before it runs the effect again. *)
Definition run_cleanup (s : State) : State :=
  match cleanup s with
  | Some k => with_inflight (map (cancel k) (inflight s)) s
  | None => s
  end.

(** The dependency array [[page, query]]. *)
Definition deps (s : State) : Z * jsstring := (page s, query s).

Definition deps_eqb (a b : Z * jsstring) : bool :=
  (fst a =? fst b) && str_eqb (snd a) (snd b).

Definition rerender (before after : State) : State :=
  if deps_eqb (deps before) (deps after) then after
  else effect (run_cleanup after).

(** [load] after [await fetch(base)]. *)
Definition after_fetch (r : Request) (ok : bool) (status : Z) (s : State) : State :=
  if ok then with_inflight (map (advance (rid r)) (inflight s)) s
  else
    let s := with_inflight (drop_request (rid r) (inflight s)) s in
    finally (cancelled r)
      (catch (cancelled r)
         (lit "TMDB request failed (" ++ Number_toString status ++ lit ")") s).

(** [load] after [await res.json()]. *)
Definition after_json (r : Request) (data : Json) (s : State) : State :=
  let s := with_inflight (drop_request (rid r) (inflight s)) s in
  if cancelled r then finally true s
  else
    match data with
    | JsonValue d =>
      finally false
        (setMovies (if Array_isArray (results d) then results d else JArr []) s)
    | JsonNull => finally false (catch false TypeError_message s)
    end.

(** A rejected await: the [catch] and the [finally]. *)
Definition after_reject (r : Request) (message : jsstring) (s : State) : State :=
  let s := with_inflight (drop_request (rid r) (inflight s)) s in
  finally (cancelled r) (catch (cancelled r) message s).

Definition resume (k : nat) (at_stage : Stage)
    (continue : Request -> State -> State) (s : State) : State :=
  match lookup_request k (inflight s) with
  | Some r => if is_stage (stage r) at_stage then continue r s else s
  | None => s
  end.

Definition handleSubmit (s : State) : State :=
  setQuery (trim (searchInput s)) (setPage 1 s).

Definition handleClear (s : State) : State :=
  setPage 1 (setQuery [] (setSearchInput [] s)).

Definition previous_disabled (s : State) : bool := (page s =? 1) || loading s.
Definition next_disabled (s : State) : bool := loading s.

(** The handler of an event; a disabled button does not click. *)
Definition handle (e : Event) (s : State) : State :=
  match e with
  | Change v => setSearchInput v s
  | Submit => handleSubmit s
  | Clear => handleClear s
  | SelectSort v => setSort v s
  | ClickPrevious =>
    if previous_disabled s then s else setPage (Z.max 1 (page s - 1)) s
  | ClickNext =>
    if next_disabled s then s else setPage (page s + 1) s
  | FetchResolved k ok status =>
    resume k AwaitFetch (fun r => after_fetch r ok status) s
  | FetchRejected k m => resume k AwaitFetch (fun r => after_reject r m) s
  | JsonResolved k data => resume k AwaitJson (fun r => after_json r data) s
  | JsonRejected k m => resume k AwaitJson (fun r => after_reject r m) s
  end.

Definition dispatch (s : State) (e : Event) : State :=
  rerender s (handle e s).

(** The component after it mounted: the effect ran once. *)
Definition mounted : State := effect initial.

Definition run (events : list Event) : State := fold_left dispatch events mounted.

Inductive reachable : State -> Prop :=
| reachable_mounted : reachable mounted
| reachable_dispatch s e : reachable s -> reachable (dispatch s e).

(** [sortedMovies], for the array the state holds. *)
Definition sortedMovies (movies : list MovieRecord) (sort : jsstring) : list MovieRecord :=
  let copy := movies in
  if str_eqb sort (lit "release_asc") then Array_sort (release_asc Date_parse) copy
  else if str_eqb sort (lit "release_desc") then Array_sort (release_desc Date_parse) copy
  else if str_eqb sort (lit "rating_asc") then Array_sort rating_asc copy
  else if str_eqb sort (lit "rating_desc") then Array_sort rating_desc copy
  else copy.

Definition card (m : MovieRecord) : Card :=
  {| key := id m;
     src := match poster_path m with
            | Some p => if truthy p then IMG_BASE ++ p else []
            | None => []
            end;
     onError_src := placeholder;
     alt := or_else_opt (title m) (lit "Movie poster");
     title_text := or_else_opt (title m) (lit "Untitled");
     date_text := or_else_opt (release_date m) (lit "Unknown") |}.

(** The grid: the cards of [sortedMovies], when the state holds an array. *)
Definition grid (s : State) : option (list Card) :=
  match movies s with
  | JArr l => Some (map card (sortedMovies l (sort s)))
  | _ => None
  end.

(** The await an event resumes. *)
Definition event_request (e : Event) : option nat :=
  match e with
  | FetchResolved k _ _ | FetchRejected k _
  | JsonResolved k _ | JsonRejected k _ => Some k
  | _ => None
  end.

(** The effect ran again after the run that launched [r]. *)
Definition superseded (s : State) (r : Request) : Prop :=
  (S (rid r) < next_rid s)%nat.

(** What every reachable state satisfies. *)
Record invariant (s : State) : Prop := {
  inv_page : 1 <= page s;
  inv_movies : Array_isArray (movies s) = true;
  inv_tracked : tracked (inflight s) (cleanup s) (next_rid s);
  inv_loading : loading s = existsb live (inflight s);
  inv_error : loading s = true -> error s = [];
  inv_key : truthy_opt API_KEY = false -> cleanup s = None
}.

End Component.
End MovieJs.

(** ** The second version of the component *)

Module Part000.

Definition IMG_BASE : jsstring := lit "https://image.tmdb.org/t/p/w342".

(** The [useState] cells, and what React and the event loop hold for the
    effect: the suspended calls of [load] (newest first), the cleanup
    function of the last run of the effect (it sets the [cancelled] flag of
    that run) and the number of runs so far. *)
Record State := {
  movies : jsval;
  page : Z;
  totalPages : Z;
  searchInput : jsstring;
  query : jsstring;
  sort : jsstring;
  loading : bool;
  error : jsstring;
  inflight : list Request;
  cleanup : option nat;
  next_rid : nat
}.

Definition setMovies (v : jsval) (s : State) : State :=
  {| movies := v; page := page s; totalPages := totalPages s;
     searchInput := searchInput s;
     query := query s; sort := sort s; loading := loading s; error := error s;
     inflight := inflight s; cleanup := cleanup s; next_rid := next_rid s |}.
Definition setPage (v : Z) (s : State) : State :=
  {| movies := movies s; page := v; totalPages := totalPages s;
     searchInput := searchInput s;
     query := query s; sort := sort s; loading := loading s; error := error s;
     inflight := inflight s; cleanup := cleanup s; next_rid := next_rid s |}.
Definition setTotalPages (v : Z) (s : State) : State :=
  {| movies := movies s; page := page s; totalPages := v;
     searchInput := searchInput s;
     query := query s; sort := sort s; loading := loading s; error := error s;
     inflight := inflight s; cleanup := cleanup s; next_rid := next_rid s |}.
Definition setSearchInput (v : jsstring) (s : State) : State :=
  {| movies := movies s; page := page s; totalPages := totalPages s;
     searchInput := v;
     query := query s; sort := sort s; loading := loading s; error := error s;
     inflight := inflight s; cleanup := cleanup s; next_rid := next_rid s |}.
Definition setQuery (v : jsstring) (s : State) : State :=
  {| movies := movies s; page := page s; totalPages := totalPages s;
     searchInput := searchInput s;
     query := v; sort := sort s; loading := loading s; error := error s;
     inflight := inflight s; cleanup := cleanup s; next_rid := next_rid s |}.
Definition setSort (v : jsstring) (s : State) : State :=
  {| movies := movies s; page := page s; totalPages := totalPages s;
     searchInput := searchInput s;
     query := query s; sort := v; loading := loading s; error := error s;
     inflight := inflight s; cleanup := cleanup s; next_rid := next_rid s |}.
Definition setLoading (v : bool) (s : State) : State :=
  {| movies := movies s; page := page s; totalPages := totalPages s;
     searchInput := searchInput s;
     query := query s; sort := sort s; loading := v; error := error s;
     inflight := inflight s; cleanup := cleanup s; next_rid := next_rid s |}.
Definition setError (v : jsstring) (s : State) : State :=
  {| movies := movies s; page := page s; totalPages := totalPages s;
     searchInput := searchInput s;
     query := query s; sort := sort s; loading := loading s; error := v;
     inflight := inflight s; cleanup := cleanup s; next_rid := next_rid s |}.
Definition with_inflight (l : list Request) (s : State) : State :=
  {| movies := movies s; page := page s; totalPages := totalPages s;
     searchInput := searchInput s;
     query := query s; sort := sort s; loading := loading s; error := error s;
     inflight := l; cleanup := cleanup s; next_rid := next_rid s |}.
Definition with_cleanup (c : option nat) (n : nat) (s : State) : State :=
  {| movies := movies s; page := page s; totalPages := totalPages s;
     searchInput := searchInput s;
     query := query s; sort := sort s; loading := loading s; error := error s;
     inflight := inflight s; cleanup := c; next_rid := n |}.

(** The state a user sees: the [useState] cells. *)
Definition cells (s : State) :=
  (movies s, page s, totalPages s, searchInput s, query s, sort s, loading s,
   error s).

Inductive Event :=
| Change (value : jsstring)
| KeyPress (key : jsstring)
| SelectSort (value : jsstring)
| ClickPrevious
| ClickNext
| FetchResolved (k : nat) (ok : bool) (status : Z)
| FetchRejected (k : nat) (message : jsstring)
| JsonResolved (k : nat) (data : Json)
| JsonRejected (k : nat) (message : jsstring).

Section Component.
Variable API_KEY : option jsstring.
Variable Date_parse : jsstring -> option Z.

Definition initial : State :=
  {| movies := JArr []; page := 1; totalPages := 0; searchInput := [];
     query := []; sort := []; loading := false; error := [];
     inflight := []; cleanup := None; next_rid := 0 |}.

(** The URL [load] fetches. *)
Definition url (key query : jsstring) (page : Z) (sort : jsstring) : result jsstring :=
  if (0 <? List.length (trim query))%nat then
    bind (encodeURIComponent query) (fun q =>
      Ok (lit "https://api.themoviedb.org/3/search/movie?api_key=" ++ key
          ++ lit "&query=" ++ q
          ++ lit "&page=" ++ Number_toString page
          ++ lit "&include_adult=false"))
  else
    let url :=
      lit "https://api.themoviedb.org/3/discover/movie?api_key=" ++ key
      ++ lit "&page=" ++ Number_toString page
      ++ lit "&include_adult=false" in
    if truthy sort then Ok (url ++ lit "&sort_by=" ++ sort) else Ok url.

(** [catch (e) { if (!cancelled) setError(e.message || ...) }] and
    [finally { if (!cancelled) setLoading(false) }], with the value of the
    closure's flag. *)
Definition catch (flag : bool) (message : jsstring) (s : State) : State :=
  if flag then s
  else setError (or_else message (lit "Something went wrong.")) s.

Definition finally (flag : bool) (s : State) : State :=
  if flag then s else setLoading false s.

(** The effect: [load] runs up to [await fetch(url)]. *)
Definition effect (s : State) : State :=
  match API_KEY with
  | Some ((_ :: _) as key) =>
    let k := next_rid s in
    let s := setError [] (setLoading true s) in
    let s :=
      match url key (query s) (page s) (sort s) with
      | Ok u =>
        with_inflight
          ({| rid := k; cancelled := false; stage := AwaitFetch;
              resource := u |}
           :: inflight s) s
      | Throw m => finally false (catch false m s)
      end in
    with_cleanup (Some k) (S k) s
  | _ =>
    with_cleanup None (next_rid s)
      (setError
         (lit "Missing REACT_APP_TMDB_API_KEY. Add it to a .env file and restart npm start.")
         s)
  end.

(** The cleanup React calls before it runs the effect again. *)
Definition run_cleanup (s : State) : State :=
  match cleanup s with
  | Some k => with_inflight (map (cancel k) (inflight s)) s
  | None => s
  end.

(** The dependency array [[page, query, sort]]. *)
Definition deps (s : State) : Z * jsstring * jsstring := (page s, query s, sort s).

Definition deps_eqb (a b : Z * jsstring * jsstring) : bool :=
  (fst (fst a) =? fst (fst b)) && str_eqb (snd (fst a)) (snd (fst b))
  && str_eqb (snd a) (snd b).

Definition rerender (before after : State) : State :=
  if deps_eqb (deps before) (deps after) then after
  else effect (run_cleanup after).

(** [load] after [await fetch(url)]. *)
Definition after_fetch (r : Request) (ok : bool) (status : Z) (s : State) : State :=
  if ok then with_inflight (map (advance (rid r)) (inflight s)) s
  else
    let s := with_inflight (drop_request (rid r) (inflight s)) s in
    finally (cancelled r)
      (catch (cancelled r)
         (lit "TMDB request failed (" ++ Number_toString status ++ lit ")") s).

(** [load] after [await res.json()]. *)
Definition after_json (r : Request) (data : Json) (s : State) : State :=
  let s := with_inflight (drop_request (rid r) (inflight s)) s in
  if cancelled r then finally true s
  else
    match data with
    | JsonValue d =>
      finally false
        (setTotalPages
           (match total_pages d with
            | Some n => if n =? 0 then 0 else n
            | None => 0
            end)
           (setMovies (if Array_isArray (results d) then results d else JArr []) s))
    | JsonNull => finally false (catch false TypeError_message s)
    end.

(** A rejected await: the [catch] and the [finally]. *)
Definition after_reject (r : Request) (message : jsstring) (s : State) : State :=
  let s := with_inflight (drop_request (rid r) (inflight s)) s in
  finally (cancelled r) (catch (cancelled r) message s).

Definition resume (k : nat) (at_stage : Stage)
    (continue : Request -> State -> State) (s : State) : State :=
  match lookup_request k (inflight s) with
  | Some r => if is_stage (stage r) at_stage then continue r s else s
  | None => s
  end.

Definition handleSearchInputChange (value : jsstring) (s : State) : State :=
  let s := setSearchInput value s in
  if str_eqb (trim value) [] then setPage 1 (setQuery [] s) else s.

Definition handleKeyPress (key : jsstring) (s : State) : State :=
  if str_eqb key (lit "Enter")
  then setQuery (trim (searchInput s)) (setPage 1 s)
  else s.

Definition previous_disabled (s : State) : bool := (page s =? 1) || loading s.
Definition next_disabled (s : State) : bool :=
  loading s || (0 <? totalPages s) && (totalPages s <=? page s).

(** The pagination is rendered under [!loading && !error]. *)
Definition pagination_rendered (s : State) : bool :=
  negb (loading s) && negb (truthy (error s)).

(** The handler of an event; a button that is disabled or not rendered does
    not click. *)
Definition handle (e : Event) (s : State) : State :=
  match e with
  | Change v => handleSearchInputChange v s
  | KeyPress k => handleKeyPress k s
  | SelectSort v => setSort v s
  | ClickPrevious =>
    if pagination_rendered s && negb (previous_disabled s)
    then setPage (Z.max 1 (page s - 1)) s else s
  | ClickNext =>
    if pagination_rendered s && negb (next_disabled s)
    then setPage (page s + 1) s else s
  | FetchResolved k ok status =>
    resume k AwaitFetch (fun r => after_fetch r ok status) s
  | FetchRejected k m => resume k AwaitFetch (fun r => after_reject r m) s
  | JsonResolved k data => resume k AwaitJson (fun r => after_json r data) s
  | JsonRejected k m => resume k AwaitJson (fun r => after_reject r m) s
  end.

Definition dispatch (s : State) (e : Event) : State :=
  rerender s (handle e s).

(** The component after it mounted: the effect ran once. *)
Definition mounted : State := effect initial.

Definition run (events : list Event) : State := fold_left dispatch events mounted.

Inductive reachable : State -> Prop :=
| reachable_mounted : reachable mounted
| reachable_dispatch s e : reachable s -> reachable (dispatch s e).

(** [sortedMovies], for the array the state holds. *)
Definition sortedMovies (movies : list MovieRecord) (sort query : jsstring) : list MovieRecord :=
  if negb (truthy query) || negb (truthy sort) then movies
  else
    let copy := movies in
    if str_eqb sort (lit "release_date.asc") then Array_sort (release_asc Date_parse) copy
    else if str_eqb sort (lit "release_date.desc") then Array_sort (release_desc Date_parse) copy
    else if str_eqb sort (lit "vote_average.asc") then Array_sort rating_asc copy
    else if str_eqb sort (lit "vote_average.desc") then Array_sort rating_desc copy
    else copy.

Definition card (m : MovieRecord) : Card :=
  {| key := id m;
     src := match poster_path m with
            | Some p => if truthy p then IMG_BASE ++ p else placeholder
            | None => placeholder
            end;
     onError_src := placeholder;
     alt := or_else_opt (title m) (lit "Movie poster");
     title_text := or_else_opt (title m) (lit "Untitled");
     date_text := or_else_opt (release_date m) (lit "Unknown") |}.

(** The grid, rendered under [!loading && !error]: the cards of
    [sortedMovies], when the state holds an array. *)
Definition grid (s : State) : option (list Card) :=
  match movies s with
  | JArr l =>
    if pagination_rendered s
    then Some (map card (sortedMovies l (sort s) (query s)))
    else Some []
  | _ => None
  end.

(** The await an event resumes. *)
Definition event_request (e : Event) : option nat :=
  match e with
  | FetchResolved k _ _ | FetchRejected k _
  | JsonResolved k _ | JsonRejected k _ => Some k
  | _ => None
  end.

(** The effect ran again after the run that launched [r]. *)
Definition superseded (s : State) (r : Request) : Prop :=
  (S (rid r) < next_rid s)%nat.

(** What every reachable state satisfies. *)
Record invariant (s : State) : Prop := {
  inv_page : 1 <= page s;
  inv_movies : Array_isArray (movies s) = true;
  inv_tracked : tracked (inflight s) (cleanup s) (next_rid s);
  inv_loading : loading s = existsb live (inflight s);
  inv_error : loading s = true -> error s = [];
  inv_key : truthy_opt API_KEY = false -> cleanup s = None
}.

End Component.
End Part000.

(** ** Vocabulary of the properties *)

(** The two endpoints, and the parameters a URL carries. *)
Definition search_endpoint : jsstring :=
  lit "https://api.themoviedb.org/3/search/movie?".

Definition discover_endpoint : jsstring :=
  lit "https://api.themoviedb.org/3/discover/movie?".

Definition page_parameter (page : Z) : jsstring :=
  lit "&page=" ++ Number_toString page ++ lit "&".

Definition query_parameter (q : jsstring) : jsstring :=
  lit "&query=" ++ q ++ lit "&".

(** The messages of a failed attempt. *)
Definition http_failure (status : Z) : jsstring :=
  lit "TMDB request failed (" ++ Number_toString status ++ lit ")".

Definition fallback_message : jsstring := lit "Something went wrong.".

(** Two records have the same comparison key under a sort key; under a sort
    key that orders nothing, every two records do. *)
Definition same_date (Date_parse : jsstring -> option Z) (a b : MovieRecord) : bool :=
  dateVal Date_parse a =? dateVal Date_parse b.

Definition same_rating (a b : MovieRecord) : bool :=
  Qeq_bool (ratingVal a) (ratingVal b).

Definition same_key_MovieJs (Date_parse : jsstring -> option Z) (sort : jsstring)
    (a b : MovieRecord) : bool :=
  if str_eqb sort (lit "release_asc") || str_eqb sort (lit "release_desc")
  then same_date Date_parse a b
  else if str_eqb sort (lit "rating_asc") || str_eqb sort (lit "rating_desc")
  then same_rating a b
  else true.

Definition same_key_Part000 (Date_parse : jsstring -> option Z) (sort : jsstring)
    (a b : MovieRecord) : bool :=
  if str_eqb sort (lit "release_date.asc") || str_eqb sort (lit "release_date.desc")
  then same_date Date_parse a b
  else if str_eqb sort (lit "vote_average.asc") || str_eqb sort (lit "vote_average.desc")
  then same_rating a b
  else true.

(** [a] stands before [b] in [l]. *)
Definition in_order {A} (a b : A) (l : list A) : Prop :=
  exists l1 l2 l3, l = l1 ++ a :: l2 ++ b :: l3.

(** The classes of records the date keys tell apart. *)
Section DateClasses.
Variable Date_parse : jsstring -> option Z.

Definition undated (m : MovieRecord) : bool := negb (has_valid_date Date_parse m).

Definition dated_after_epoch (m : MovieRecord) : bool :=
  has_valid_date Date_parse m && (0 <? dateVal Date_parse m).

Definition dated_before_epoch (m : MovieRecord) : bool :=
  has_valid_date Date_parse m && (dateVal Date_parse m <? 0).

End DateClasses.

(** ** Sample inputs *)

(** A configured key. *)
Definition sample_key : option jsstring := Some (lit "k").

(** The two films of the scenario of the specification. *)
Definition film_A : MovieRecord :=
  {| id := 1; title := Some (lit "A"); release_date := Some (lit "2020-01-01");
     vote_average := Some (5 # 1); poster_path := Some (lit "/a.jpg") |}.

Definition film_B : MovieRecord :=
  {| id := 2; title := Some (lit "B"); release_date := Some (lit "1999-01-01");
     vote_average := Some (8 # 1); poster_path := None |}.

(** A film released before 1970, and two records without a usable date. *)
Definition film_1960 : MovieRecord :=
  {| id := 13; title := Some (lit "Psycho"); release_date := Some (lit "1960-05-16");
     vote_average := Some (84 # 10); poster_path := Some (lit "/psycho.jpg") |}.

Definition undated_1 : MovieRecord :=
  {| id := 11; title := Some (lit "Untitled project"); release_date := Some [];
     vote_average := Some (0 # 1); poster_path := None |}.

Definition undated_2 : MovieRecord :=
  {| id := 12; title := None; release_date := None;
     vote_average := None; poster_path := None |}.

Definition sample_body : Json :=
  JsonValue {| results := JArr [film_A; film_B]; total_pages := Some 3 |}.

Definition malformed_body : Body :=
  {| results := JStr (lit "rate limited"); total_pages := None |}.

(** The request of the first run of the effect: superseded while its fetch
    is awaited, and live while its body is awaited. *)
Definition first_request : Request :=
  {| rid := 0; cancelled := true; stage := AwaitFetch;
     resource :=
       lit "https://api.themoviedb.org/3/discover/movie?api_key=k&page=1&include_adult=false" |}.

Definition awaiting_body : Request :=
  {| rid := 0; cancelled := false; stage := AwaitJson;
     resource :=
       lit "https://api.themoviedb.org/3/discover/movie?api_key=k&page=1&include_adult=false" |}.

(** The request of the second run, for page 2. *)
Definition retry_request : Request :=
  {| rid := 1; cancelled := false; stage := AwaitJson;
     resource :=
       lit "https://api.themoviedb.org/3/discover/movie?api_key=k&page=2&include_adult=false" |}.

(** A search is submitted while the first request is in flight. *)
Definition overlapping_MovieJs : MovieJs.State :=
  MovieJs.run sample_key [MovieJs.Change (lit "dune"); MovieJs.Submit].

Definition overlapping_Part000 : Part000.State :=
  Part000.run sample_key
    [Part000.Change (lit "dune"); Part000.KeyPress (lit "Enter")].

(** Page 2 loaded, and "dune" typed but not submitted. *)
Definition second_page_MovieJs : MovieJs.State :=
  MovieJs.run sample_key
    [MovieJs.FetchResolved 0 true 200; MovieJs.JsonResolved 0 sample_body;
     MovieJs.ClickNext;
     MovieJs.FetchResolved 1 true 200; MovieJs.JsonResolved 1 sample_body;
     MovieJs.Change (lit "dune")].

Definition second_page_Part000 : Part000.State :=
  Part000.run sample_key
    [Part000.FetchResolved 0 true 200; Part000.JsonResolved 0 sample_body;
     Part000.ClickNext;
     Part000.FetchResolved 1 true 200; Part000.JsonResolved 1 sample_body;
     Part000.Change (lit "dune")].

(** The last page of the sample body is reached: page 3 of 3. *)
Definition last_page_Part000 : Part000.State :=
  Part000.run sample_key
    [Part000.FetchResolved 0 true 200; Part000.JsonResolved 0 sample_body;
     Part000.ClickNext;
     Part000.FetchResolved 1 true 200; Part000.JsonResolved 1 sample_body;
     Part000.ClickNext;
     Part000.FetchResolved 2 true 200; Part000.JsonResolved 2 sample_body].

(** A failed attempt, then page 2 requested and its body awaited. *)
Definition retrying_MovieJs : MovieJs.State :=
  MovieJs.run sample_key
    [MovieJs.FetchResolved 0 false 503; MovieJs.ClickNext;
     MovieJs.FetchResolved 1 true 200].

(** The first request failed. *)
Definition failed_MovieJs : MovieJs.State :=
  MovieJs.run sample_key [MovieJs.FetchResolved 0 false 503].

(** The first page loaded, nothing in flight. *)
Definition loaded_Part000 : Part000.State :=
  Part000.run sample_key
    [Part000.FetchResolved 0 true 200; Part000.JsonResolved 0 sample_body].

(** A query that cannot be escaped is submitted: a leading surrogate without
    its trailing one.  In [Movie.js] it is submitted while the first request
    is in flight, in the second version after the first page loaded. *)
Definition lone_surrogate : jsstring := [55357%N].

Definition malformed_query_MovieJs : MovieJs.State :=
  MovieJs.run sample_key [MovieJs.Change lone_surrogate; MovieJs.Submit].

Definition malformed_query_Part000 : Part000.State :=
  Part000.run sample_key
    [Part000.FetchResolved 0 true 200; Part000.JsonResolved 0 sample_body;
     Part000.Change lone_surrogate; Part000.KeyPress (lit "Enter")].

(** ** What the component renders *)

Inductive ModeTag :=
| SearchResultsFor (query : jsstring)
| DiscoverMovies.

Inductive Grid :=
| NoMoviesFound
| Cards (cards : list Card).

Record Pager := {
  previous_off : bool;
  page_label : jsstring;
  next_off : bool
}.

(** The regions of the page: the mode tag of [Movie.js], the loading line,
    the error line, the grid and the pager; a region is [None] when it is
    not rendered. *)
Record Screen := {
  mode_tag : option ModeTag;
  loading_line : bool;
  error_line : option jsstring;
  grid_region : option Grid;
  pager_region : option Pager
}.

(** The JSX [Movie.js] returns, for the array the state holds. *)
Definition render_MovieJs (Date_parse : jsstring -> option Z) (s : MovieJs.State)
    : option Screen :=
  match MovieJs.movies s with
  | JArr l =>
    let sortedMovies := MovieJs.sortedMovies Date_parse l (MovieJs.sort s) in
    Some
      {| mode_tag :=
           Some (if truthy (MovieJs.query s)
                 then SearchResultsFor (MovieJs.query s) else DiscoverMovies);
         loading_line := MovieJs.loading s;
         error_line :=
           if truthy (MovieJs.error s) then Some (MovieJs.error s) else None;
         grid_region :=
           Some (if negb (MovieJs.loading s) && negb (truthy (MovieJs.error s))
                    && Nat.eqb (List.length sortedMovies) 0
                 then NoMoviesFound
                 else Cards (map MovieJs.card sortedMovies));
         pager_region :=
           Some {| previous_off := MovieJs.previous_disabled s;
                   page_label := lit "Page " ++ Number_toString (MovieJs.page s);
                   next_off := MovieJs.next_disabled s |} |}
  | _ => None
  end.

(** The JSX the second version returns. *)
Definition render_Part000 (Date_parse : jsstring -> option Z) (s : Part000.State)
    : option Screen :=
  match Part000.movies s with
  | JArr l =>
    let sortedMovies :=
      Part000.sortedMovies Date_parse l (Part000.sort s) (Part000.query s) in
    let shown := negb (Part000.loading s) && negb (truthy (Part000.error s)) in
    Some
      {| mode_tag := None;
         loading_line := Part000.loading s;
         error_line :=
           if truthy (Part000.error s) then Some (Part000.error s) else None;
         grid_region :=
           if shown
           then Some (if Nat.eqb (List.length sortedMovies) 0
                      then NoMoviesFound
                      else Cards (map Part000.card sortedMovies))
           else None;
         pager_region :=
           if shown
           then Some {| previous_off := Part000.previous_disabled s;
                        page_label :=
                          lit "Page " ++ Number_toString (Part000.page s) ++ lit " "
                          ++ (if 0 <? Part000.totalPages s
                              then lit "of " ++ Number_toString (Part000.totalPages s)
                              else []);
                        next_off := Part000.next_disabled s |}
           else None |}
  | _ => None
  end.

(** ** Vocabulary of the further properties *)

Definition missing_key_message : jsstring :=
  lit "Missing REACT_APP_TMDB_API_KEY. Add it to a .env file and restart npm start.".

(** The events of the network, and the runs made of them. *)
Definition network_MovieJs (e : MovieJs.Event) : bool :=
  match MovieJs.event_request e with Some _ => true | None => false end.

Definition network_Part000 (e : Part000.Event) : bool :=
  match Part000.event_request e with Some _ => true | None => false end.

(** The resources in flight are URLs the component builds, and the resource
    of a call whose flag is down is the URL for the page and the query of the
    state (and its sort key, in the second version). *)
Definition resources_ok_MovieJs (fetch_key : jsstring) (s : MovieJs.State) : Prop :=
  forall r, In r (MovieJs.inflight s) ->
    (exists q p, MovieJs.base fetch_key q p = Ok (resource r))
    /\ (cancelled r = false ->
        MovieJs.base fetch_key (MovieJs.query s) (MovieJs.page s) = Ok (resource r)).

Definition resources_ok_Part000 (fetch_key : jsstring) (s : Part000.State) : Prop :=
  forall r, In r (Part000.inflight s) ->
    (exists q p o, Part000.url fetch_key q p o = Ok (resource r))
    /\ (cancelled r = false ->
        Part000.url fetch_key (Part000.query s) (Part000.page s) (Part000.sort s)
        = Ok (resource r)).

(** The records the rating keys tell apart. *)
Definition unrated (m : MovieRecord) : bool :=
  match vote_average m with Some _ => false | None => true end.

Definition rated_above_zero (m : MovieRecord) : bool :=
  match vote_average m with Some v => negb (Qle_bool v 0) | None => false end.

Definition rated_below_zero (m : MovieRecord) : bool :=
  match vote_average m with Some v => negb (Qle_bool 0 v) | None => false end.

(** No two records of the list have the same comparison key. *)
Definition distinct_keys (same : MovieRecord -> MovieRecord -> bool)
    (l : list MovieRecord) : Prop :=
  forall r, (List.length (filter (same r) l) <= 1)%nat.

(** * Properties *)

(** ** Examples *)

Example trim_example : trim (lit "  the  thing ") = lit "the  thing".
Proof. reflexivity. Qed.

Example encode_example :
  encodeURIComponent (lit "a b&c=d/e") = Ok (lit "a%20b%26c%3Dd%2Fe").
Proof. reflexivity. Qed.

Example encode_example_utf8 :
  encodeURIComponent [233%N; 55357%N; 56832%N] = Ok (lit "%C3%A9%F0%9F%98%80").
Proof. reflexivity. Qed.

Example encode_example_lone : encodeURIComponent [55357%N] = Throw URIError_message.
Proof. reflexivity. Qed.

Example toString_example : Number_toString 42 = lit "42".
Proof. reflexivity. Qed.

Example Date_parse_epoch : Date_parse_iso (lit "1970-01-01") = Some 0.
Proof. reflexivity. Qed.
Example Date_parse_2020 : Date_parse_iso (lit "2020-01-01") = Some 1577836800000.
Proof. reflexivity. Qed.
Example Date_parse_1999 : Date_parse_iso (lit "1999-01-01") = Some 915148800000.
Proof. reflexivity. Qed.
Example Date_parse_1960 : Date_parse_iso (lit "1960-05-16") = Some (-303868800000).
Proof. reflexivity. Qed.
Example Date_parse_junk : Date_parse_iso (lit "soon") = None.
Proof. reflexivity. Qed.

(** ** Facts about the built-ins *)

Section SortFacts.
Context {A : Type} (comparefn : A -> A -> comparison).

Lemma insert_perm (x : A) (l : list A) :
    Permutation (insert comparefn x l) (x :: l).
  Proof.
    induction l as [|y l IH]; simpl.
    - apply Permutation_refl.
    - destruct (comparefn x y); try apply Permutation_refl.
      apply perm_trans with (y :: x :: l).
      + now apply perm_skip.
      + apply perm_swap.
  Qed.

Lemma Array_sort_perm (l : list A) : Permutation (Array_sort comparefn l) l.
  Proof.
    induction l as [|x l IH]; simpl.
    - apply perm_nil.
    - apply perm_trans with (x :: Array_sort comparefn l).
      + apply insert_perm.
      + now apply perm_skip.
  Qed.

Lemma Array_sort_length (l : list A) :
    List.length (Array_sort comparefn l) = List.length l.
  Proof. apply Permutation_length, Array_sort_perm. Qed.

  (** Stability: a class of elements that never compare [Gt] among themselves
      keeps its order. *)
Section Stable.
Variable same : A -> bool.
Hypothesis same_tie :
      forall x y, same x = true -> same y = true -> comparefn x y <> Gt.

Lemma insert_filter (x : A) (l : list A) :
      filter same (insert comparefn x l) = filter same (x :: l).
    Proof.
      induction l as [|y l IH]; simpl; [reflexivity|].
      destruct (comparefn x y) eqn:E; try reflexivity.
      simpl. rewrite IH. simpl.
      destruct (same x) eqn:Sx, (same y) eqn:Sy; try reflexivity.
      exfalso. exact (same_tie x y Sx Sy E).
    Qed.

Lemma Array_sort_stable (l : list A) :
      filter same (Array_sort comparefn l) = filter same l.
    Proof.
      induction l as [|x l IH]; simpl; [reflexivity|].
      rewrite insert_filter. simpl. now rewrite IH.
    Qed.
End Stable.

  (** Order: with a comparator that follows a total preorder, the result is
      sorted. *)
Section Ordered.
Variable le : A -> A -> Prop.
Hypothesis le_trans : forall x y z, le x y -> le y z -> le x z.
Hypothesis cmp_gt : forall x y, comparefn x y = Gt -> le y x.
Hypothesis cmp_le : forall x y, comparefn x y <> Gt -> le x y.

Lemma insert_sorted (x : A) (l : list A) :
      StronglySorted le l -> StronglySorted le (insert comparefn x l).
    Proof.
      induction 1 as [|y l Hl IH Hy]; simpl.
      - constructor; constructor.
      - destruct (comparefn x y) eqn:E.
        + constructor; [now constructor|].
          assert (Hxy : le x y) by (apply cmp_le; congruence).
          constructor; [exact Hxy|].
          eapply Forall_impl; [|exact Hy]. intros z Hz. eapply le_trans; eauto.
        + constructor; [now constructor|].
          assert (Hxy : le x y) by (apply cmp_le; congruence).
          constructor; [exact Hxy|].
          eapply Forall_impl; [|exact Hy]. intros z Hz. eapply le_trans; eauto.
        + constructor; [exact IH|].
          eapply Permutation_Forall.
          * apply Permutation_sym, insert_perm.
          * constructor; [now apply cmp_gt | exact Hy].
    Qed.

Lemma Array_sort_sorted (l : list A) :
      StronglySorted le (Array_sort comparefn l).
    Proof.
      induction l as [|x l IH]; simpl.
      - constructor.
      - now apply insert_sorted.
    Qed.
End Ordered.
End SortFacts.

(** The contract determines the result: an arrangement of [l] that is
    ordered and keeps every class of ties in the order of [l] is the one
    [Array_sort] returns. *)
Section Determined.
Context {A : Type}.
Variable le : A -> A -> Prop.
Variable same : A -> A -> bool.
Hypothesis le_refl : forall x, le x x.
Hypothesis same_le : forall x y, le x y -> le y x -> same x y = true.

Lemma stable_sorted_unique (l1 : list A) :
  forall l2,
    Permutation l1 l2 -> StronglySorted le l1 -> StronglySorted le l2 ->
    (forall r, filter (same r) l1 = filter (same r) l2) ->
    l1 = l2.
Proof.
  induction l1 as [|x l1 IH]; intros l2 Hp H1 H2 Hf.
  - apply Permutation_nil in Hp. now subst.
  - destruct l2 as [|y l2].
    + apply Permutation_sym, Permutation_nil in Hp. discriminate.
    + inversion H1 as [|? ? S1 F1]; subst. inversion H2 as [|? ? S2 F2]; subst.
      rewrite Forall_forall in F1, F2.
      assert (Hxy : le x y).
      { assert (Hy : In y (x :: l1))
          by (eapply Permutation_in; [apply Permutation_sym, Hp | now left]).
        destruct Hy as [->|Hy]; auto. }
      assert (Hyx : le y x).
      { assert (Hx : In x (y :: l2))
          by (eapply Permutation_in; [apply Hp | now left]).
        destruct Hx as [->|Hx]; auto. }
      assert (x = y).
      { specialize (Hf x). simpl in Hf.
        rewrite (same_le x x (le_refl x) (le_refl x)) in Hf.
        rewrite (same_le x y Hxy Hyx) in Hf. congruence. }
      subst y. f_equal. apply IH; auto.
      * eapply Permutation_cons_inv; eauto.
      * intros r. specialize (Hf r). simpl in Hf.
        destruct (same r x); congruence.
Qed.

End Determined.

Lemma Array_sort_determined {A} (comparefn : A -> A -> comparison)
    (le : A -> A -> Prop) (same : A -> A -> bool) :
  (forall x, le x x) ->
  (forall x y z, le x y -> le y z -> le x z) ->
  (forall x y, comparefn x y = Gt -> le y x) ->
  (forall x y, comparefn x y <> Gt -> le x y) ->
  (forall x y, le x y -> le y x -> same x y = true) ->
  (forall r x y, same r x = true -> same r y = true -> comparefn x y <> Gt) ->
  forall l out,
    Permutation out l -> StronglySorted le out ->
    (forall r, filter (same r) out = filter (same r) l) ->
    out = Array_sort comparefn l.
Proof.
  intros Hrefl Htrans Hgt Hle Hsame Htie l out Hp Hs Hf.
  apply (stable_sorted_unique le same Hrefl Hsame).
  - eapply perm_trans; [exact Hp|]. apply Permutation_sym, Array_sort_perm.
  - exact Hs.
  - now apply Array_sort_sorted.
  - intros r. rewrite Hf. symmetry. apply Array_sort_stable. apply Htie.
Qed.

(** Positions in a sorted list follow the order. *)
Lemma StronglySorted_nth {A} (le : A -> A -> Prop) (l : list A) :
  StronglySorted le l ->
  forall i j x y, (i < j)%nat ->
    nth_error l i = Some x -> nth_error l j = Some y -> le x y.
Proof.
  induction 1 as [|a l Hl IH Ha]; intros i j x y Hij Hi Hj.
  - destruct i; discriminate.
  - destruct j as [|j]; [lia|]. simpl in Hj.
    destruct i as [|i]; simpl in Hi.
    + injection Hi as <-. rewrite Forall_forall in Ha.
      apply Ha. eapply nth_error_In; eauto.
    + apply (IH i j); auto. lia.
Qed.

Lemma sorted_all_before {A} (le : A -> A -> Prop) (P Q : A -> bool) (l : list A) :
  StronglySorted le l ->
  (forall x, le x x) ->
  (forall x y, P x = true -> Q y = true -> ~ le y x) ->
  all_before P Q l.
Proof.
  intros Hs Hrefl Hsep i j x y Hi Hj Px Qy.
  destruct (Nat.lt_ge_cases i j) as [Hlt|Hge]; [exact Hlt|exfalso].
  apply (Hsep x y Px Qy).
  destruct (Nat.eq_dec j i) as [->|Hne].
  - rewrite Hi in Hj. injection Hj as <-. apply Hrefl.
  - apply (StronglySorted_nth le l Hs j i); auto. lia.
Qed.

Lemma startsWith_app (p s : jsstring) : startsWith p (p ++ s) = true.
Proof.
  induction p as [|a p IH]; simpl; [reflexivity|].
  now rewrite N.eqb_refl, IH.
Qed.

Lemma startsWith_includes (frag s : jsstring) :
  startsWith frag s = true -> includes frag s = true.
Proof. intros H. destruct s; simpl; now rewrite H. Qed.

Lemma includes_app (pre frag post : jsstring) :
  includes frag (pre ++ frag ++ post) = true.
Proof.
  induction pre as [|a pre IH].
  - rewrite app_nil_l. apply startsWith_includes, startsWith_app.
  - simpl. rewrite IH. apply orb_true_r.
Qed.

Lemma trim_start_nil_or_black (s : jsstring) :
  match trim_start s with
  | [] => True
  | c :: _ => is_white_space c = false
  end.
Proof.
  induction s as [|c s IH]; simpl; [exact I|].
  destruct (is_white_space c) eqn:E; [exact IH | exact E].
Qed.

Lemma trim_start_idem (s : jsstring) : trim_start (trim_start s) = trim_start s.
Proof.
  pose proof (trim_start_nil_or_black s) as H.
  destruct (trim_start s) as [|c t]; [reflexivity|]. simpl. now rewrite H.
Qed.

Lemma hex_digit_unreserved (d : N) : uri_unreserved (hex_digit d) = true.
Proof.
  unfold hex_digit.
  assert (H : (d mod 16 < 16)%N) by (apply N.mod_lt; discriminate).
  set (r := (d mod 16)%N) in *. clearbody r.
  assert (Hr : In r (map N.of_nat (seq 0 16))).
  { rewrite in_map_iff. exists (N.to_nat r). split; [apply N2Nat.id|].
    apply in_seq. lia. }
  simpl in Hr.
  repeat (destruct Hr as [<-|Hr]; [reflexivity|]). destruct Hr.
Qed.

Lemma escape_chars (cp : N) : forallb uri_component_char (escape cp) = true.
Proof.
  unfold escape. apply forallb_forall. intros c Hc.
  apply in_flat_map in Hc. destruct Hc as [b [_ Hc]].
  unfold percent in Hc. simpl in Hc.
  destruct Hc as [<-|[<-|[<-|[]]]]; unfold uri_component_char;
    [reflexivity| |]; now rewrite hex_digit_unreserved.
Qed.

(** Two-step induction, following the recursion of [encodeURIComponent]. *)
Lemma jsstring_ind2 (P : jsstring -> Prop) :
  P [] -> (forall c, P [c]) ->
  (forall c d s, P s -> P (d :: s) -> P (c :: d :: s)) ->
  forall s, P s.
Proof.
  intros H0 H1 H2 s.
  assert (H : P s /\ forall c, P (c :: s)).
  { induction s as [|d s [IHa IHb]]; split; auto. }
  apply H.
Qed.

Lemma encodeURIComponent_chars (s : jsstring) :
  forall e, encodeURIComponent s = Ok e -> forallb uri_component_char e = true.
Proof.
  induction s as [|c|c d s IHs IHd] using jsstring_ind2; intros e.
  - simpl. intros [= <-]. reflexivity.
  - simpl. destruct (uri_unreserved c) eqn:U.
    + intros [= <-]. simpl. unfold uri_component_char. now rewrite U.
    + destruct (is_leading_surrogate c); [discriminate|].
      destruct (is_trailing_surrogate c); [discriminate|].
      intros [= <-]. rewrite app_nil_r. apply escape_chars.
  - change (encodeURIComponent (c :: d :: s)) with
      (if uri_unreserved c then
         bind (encodeURIComponent (d :: s)) (fun e => Ok (c :: e))
       else if is_leading_surrogate c then
         if is_trailing_surrogate d then
           bind (encodeURIComponent s)
             (fun e => Ok (escape ((c - 55296) * 1024 + (d - 56320) + 65536)%N ++ e))
         else Throw URIError_message
       else if is_trailing_surrogate c then Throw URIError_message
       else bind (encodeURIComponent (d :: s)) (fun e => Ok (escape c ++ e))).
    destruct (uri_unreserved c) eqn:U.
    + destruct (encodeURIComponent (d :: s)) as [e'|]; [|discriminate].
      intros [= <-]. simpl. unfold uri_component_char at 1. rewrite U. simpl.
      now apply IHd.
    + destruct (is_leading_surrogate c).
      * destruct (is_trailing_surrogate d); [|discriminate].
        destruct (encodeURIComponent s) as [e'|]; [|discriminate].
        intros [= <-]. rewrite forallb_app, escape_chars. now apply IHs.
      * destruct (is_trailing_surrogate c); [discriminate|].
        destruct (encodeURIComponent (d :: s)) as [e'|]; [|discriminate].
        intros [= <-]. rewrite forallb_app, escape_chars. now apply IHd.
Qed.

Lemma unreserved_not_surrogate (c : N) :
  uri_unreserved c = true ->
  is_leading_surrogate c = false /\ is_trailing_surrogate c = false.
Proof.
  unfold uri_unreserved, is_leading_surrogate, is_trailing_surrogate.
  intros H. repeat rewrite orb_true_iff in H. repeat rewrite andb_true_iff in H.
  repeat rewrite N.leb_le in H. repeat rewrite N.eqb_eq in H.
  split; apply andb_false_iff; rewrite !N.leb_gt; lia.
Qed.

(** encodeURIComponent throws exactly on the strings with a lone surrogate. *)
Lemma encodeURIComponent_total (s : jsstring) :
  isWellFormed s = true <-> exists e, encodeURIComponent s = Ok e.
Proof.
  induction s as [|c|c d s IHs IHd] using jsstring_ind2.
  - simpl. split; eauto.
  - simpl. destruct (uri_unreserved c) eqn:U.
    + destruct (unreserved_not_surrogate c U) as [-> ->]. simpl. split; eauto.
    + destruct (is_leading_surrogate c).
      * split; [discriminate|]. intros [e H]. discriminate.
      * destruct (is_trailing_surrogate c); simpl.
        -- split; [discriminate|]. intros [e H]. discriminate.
        -- split; eauto.
  - change (encodeURIComponent (c :: d :: s)) with
      (if uri_unreserved c then
         bind (encodeURIComponent (d :: s)) (fun e => Ok (c :: e))
       else if is_leading_surrogate c then
         if is_trailing_surrogate d then
           bind (encodeURIComponent s)
             (fun e => Ok (escape ((c - 55296) * 1024 + (d - 56320) + 65536)%N ++ e))
         else Throw URIError_message
       else if is_trailing_surrogate c then Throw URIError_message
       else bind (encodeURIComponent (d :: s)) (fun e => Ok (escape c ++ e))).
    change (isWellFormed (c :: d :: s)) with
      (if is_leading_surrogate c
       then is_trailing_surrogate d && isWellFormed s
       else negb (is_trailing_surrogate c) && isWellFormed (d :: s)).
    destruct (uri_unreserved c) eqn:U.
    + destruct (unreserved_not_surrogate c U) as [-> ->].
      rewrite andb_true_l, IHd.
      destruct (encodeURIComponent (d :: s)); simpl; split; eauto;
        intros [e H]; discriminate.
    + destruct (is_leading_surrogate c).
      * destruct (is_trailing_surrogate d); cbn [negb andb].
        -- rewrite IHs. destruct (encodeURIComponent s); simpl; split; eauto;
             intros [e H]; discriminate.
        -- split; [discriminate|]. intros [e H]. discriminate.
      * destruct (is_trailing_surrogate c); cbn [negb andb].
        -- split; [discriminate|]. intros [e H]. discriminate.
        -- rewrite IHd. destruct (encodeURIComponent (d :: s)); simpl; split; eauto;
             intros [e H]; discriminate.
Qed.

Section KeyFacts.
Variable Date_parse : jsstring -> option Z.

Lemma sign_Z_sub_gt (a b : Z) : sign_Z (a - b) = Gt <-> b < a.
Proof. unfold sign_Z. rewrite Z.compare_gt_iff. lia. Qed.

Lemma sign_Q_sub_gt (a b : Q) : sign_Q (a - b) = Gt <-> (b < a)%Q.
Proof.
  unfold sign_Q. rewrite <- Qgt_alt. split; intros H; lra.
Qed.

Lemma dateVal_missing (m : MovieRecord) :
  has_valid_date Date_parse m = false -> dateVal Date_parse m = 0.
Proof.
  unfold has_valid_date, dateVal. destruct (release_date m) as [s|]; [|reflexivity].
  destruct (truthy s); [|reflexivity]. simpl.
  destruct (Date_parse s); [discriminate|reflexivity].
Qed.

Lemma release_asc_sorted (l : list MovieRecord) :
  StronglySorted (fun a b => dateVal Date_parse a <= dateVal Date_parse b)
    (Array_sort (release_asc Date_parse) l).
Proof.
  apply Array_sort_sorted.
  - intros x y z. lia.
  - intros x y H. apply sign_Z_sub_gt in H. lia.
  - intros x y H. unfold release_asc in H. rewrite sign_Z_sub_gt in H. lia.
Qed.

Lemma release_desc_sorted (l : list MovieRecord) :
  StronglySorted (fun a b => dateVal Date_parse b <= dateVal Date_parse a)
    (Array_sort (release_desc Date_parse) l).
Proof.
  apply Array_sort_sorted.
  - intros x y z. lia.
  - intros x y H. apply sign_Z_sub_gt in H. lia.
  - intros x y H. unfold release_desc in H. rewrite sign_Z_sub_gt in H. lia.
Qed.

Lemma rating_asc_sorted (l : list MovieRecord) :
  StronglySorted (fun a b => (ratingVal a <= ratingVal b)%Q)
    (Array_sort rating_asc l).
Proof.
  apply Array_sort_sorted.
  - intros x y z. apply Qle_trans.
  - intros x y H. apply sign_Q_sub_gt in H. lra.
  - intros x y H. unfold rating_asc in H. rewrite sign_Q_sub_gt in H. lra.
Qed.

Lemma rating_desc_sorted (l : list MovieRecord) :
  StronglySorted (fun a b => (ratingVal b <= ratingVal a)%Q)
    (Array_sort rating_desc l).
Proof.
  apply Array_sort_sorted.
  - intros x y z H1 H2. eapply Qle_trans; eauto.
  - intros x y H. apply sign_Q_sub_gt in H. lra.
  - intros x y H. unfold rating_desc in H. rewrite sign_Q_sub_gt in H. lra.
Qed.

End KeyFacts.

(** ** The suspended calls of [load] *)

Lemma rid_cancel (k : nat) (r : Request) : rid (cancel k r) = rid r.
Proof. unfold cancel. now destruct (Nat.eqb (rid r) k). Qed.

Lemma rid_advance (k : nat) (r : Request) : rid (advance k r) = rid r.
Proof. unfold advance. now destruct (Nat.eqb (rid r) k). Qed.

Lemma cancelled_advance (k : nat) (r : Request) :
  cancelled (advance k r) = cancelled r.
Proof. unfold advance. now destruct (Nat.eqb (rid r) k). Qed.

Lemma cancelled_cancel (k : nat) (r : Request) :
  cancelled (cancel k r) = Nat.eqb (rid r) k || cancelled r.
Proof. unfold cancel. now destruct (Nat.eqb (rid r) k). Qed.

Lemma cancel_keeps (k : nat) (r : Request) :
  cancelled r = true -> cancelled (cancel k r) = true.
Proof. rewrite cancelled_cancel. intros ->. apply orb_true_r. Qed.

Lemma map_rid_cancel (k : nat) (l : list Request) :
  map rid (map (cancel k) l) = map rid l.
Proof. rewrite map_map. apply map_ext. intros r. apply rid_cancel. Qed.

Lemma map_rid_advance (k : nat) (l : list Request) :
  map rid (map (advance k) l) = map rid l.
Proof. rewrite map_map. apply map_ext. intros r. apply rid_advance. Qed.

Lemma lookup_request_In (k : nat) (l : list Request) (r : Request) :
  lookup_request k l = Some r -> In r l /\ rid r = k.
Proof.
  unfold lookup_request. intros H. apply find_some in H.
  destruct H as [Hin Hk]. apply Nat.eqb_eq in Hk. now split.
Qed.

Lemma In_drop_request (k : nat) (l : list Request) (r : Request) :
  In r (drop_request k l) <-> In r l /\ rid r <> k.
Proof.
  unfold drop_request. rewrite filter_In, negb_true_iff, Nat.eqb_neq. tauto.
Qed.

Lemma NoDup_drop_request (k : nat) (l : list Request) :
  NoDup (map rid l) -> NoDup (map rid (drop_request k l)).
Proof.
  induction l as [|r l IH]; simpl; intros H; [constructor|].
  inversion H as [|x xs Hx Hl]; subst.
  destruct (Nat.eqb (rid r) k); simpl; auto.
  constructor; auto.
  rewrite in_map_iff. intros [q [Hq Hin]]. apply Hx.
  apply In_drop_request in Hin. rewrite in_map_iff. exists q. tauto.
Qed.

Lemma tracked_nil : tracked [] None 0.
Proof. split; simpl; try easy. constructor. Qed.

Lemma tracked_advance l c n k :
  tracked l c n -> tracked (map (advance k) l) c n.
Proof.
  intros [Hf Hl Hk Hn]. split; auto.
  - intros r Hr. apply in_map_iff in Hr. destruct Hr as [q [<- Hq]].
    rewrite rid_advance. auto.
  - intros r Hr. apply in_map_iff in Hr. destruct Hr as [q [<- Hq]].
    rewrite rid_advance, cancelled_advance. auto.
  - now rewrite map_rid_advance.
Qed.

Lemma tracked_drop l c n k :
  tracked l c n -> tracked (drop_request k l) c n.
Proof.
  intros [Hf Hl Hk Hn]. split; auto.
  - intros r Hr. apply In_drop_request in Hr. apply Hf, Hr.
  - intros r Hr. apply In_drop_request in Hr. apply Hl, Hr.
  - now apply NoDup_drop_request.
Qed.

(** After the cleanup of the last run, every call in flight is cancelled. *)
Lemma tracked_cleanup l k n :
  tracked l (Some k) n ->
  forall r, In r (map (cancel k) l) -> cancelled r = true.
Proof.
  intros [Hf Hl Hk Hn] r Hr. apply in_map_iff in Hr. destruct Hr as [q [<- Hq]].
  rewrite cancelled_cancel. destruct (cancelled q) eqn:E; [apply orb_true_r|].
  specialize (Hl q Hq E). injection Hl as ->. now rewrite Nat.eqb_refl.
Qed.

Lemma tracked_none_cancelled l n :
  tracked l None n -> forall r, In r l -> cancelled r = true.
Proof.
  intros [Hf Hl Hk Hn] r Hr. destruct (cancelled r) eqn:E; [reflexivity|].
  specialize (Hl r Hr E). discriminate.
Qed.

(** A new run of the effect, with or without a call that reaches its
    [await]. *)
Lemma tracked_rerun l n :
  (forall r, In r l -> (rid r < n)%nat) -> NoDup (map rid l) ->
  (forall r, In r l -> cancelled r = true) ->
  tracked l (Some n) (S n).
Proof.
  intros Hf Hn Hc. split; auto.
  - intros r Hr. specialize (Hf r Hr). lia.
  - intros r Hr E. rewrite (Hc r Hr) in E. discriminate.
  - intros k [= <-]. reflexivity.
Qed.

Lemma tracked_launch l n u :
  (forall r, In r l -> (rid r < n)%nat) -> NoDup (map rid l) ->
  (forall r, In r l -> cancelled r = true) ->
  tracked ({| rid := n; cancelled := false; stage := AwaitFetch; resource := u |} :: l)
          (Some n) (S n).
Proof.
  intros Hf Hn Hc. split.
  - intros r [<-|Hr]; simpl; [lia|]. specialize (Hf r Hr). lia.
  - intros r [<-|Hr] E; simpl; [reflexivity|].
    rewrite (Hc r Hr) in E. discriminate.
  - intros k [= <-]. reflexivity.
  - simpl. constructor; auto. rewrite in_map_iff. intros [q [Hq Hin]].
    specialize (Hf q Hin). lia.
Qed.

(** A call that an earlier run of the effect launched is cancelled. *)
Lemma tracked_superseded l c n r :
  tracked l c n -> In r l -> (S (rid r) < n)%nat -> cancelled r = true.
Proof.
  intros [Hf Hl Hk Hn] Hr Hlt. destruct (cancelled r) eqn:E; [reflexivity|].
  specialize (Hl r Hr E). specialize (Hk _ Hl). lia.
Qed.

Lemma existsb_live_false (l : list Request) :
  (forall r, In r l -> cancelled r = true) -> existsb live l = false.
Proof.
  intros H. destruct (existsb live l) eqn:E; [|reflexivity].
  apply existsb_exists in E. destruct E as [r [Hr Hlive]].
  unfold live in Hlive. rewrite (H r Hr) in Hlive. discriminate.
Qed.

Lemma existsb_live_advance (k : nat) (l : list Request) :
  existsb live (map (advance k) l) = existsb live l.
Proof.
  induction l as [|r l IH]; simpl; [reflexivity|].
  rewrite IH. unfold live at 1 3. now rewrite cancelled_advance.
Qed.

(** Dropping a cancelled call does not change whether a live one is left. *)
Lemma existsb_live_drop_cancelled l c n r :
  tracked l c n -> In r l -> cancelled r = true ->
  existsb live (drop_request (rid r) l) = existsb live l.
Proof.
  intros T Hr Hc.
  destruct (existsb live l) eqn:E.
  - apply existsb_exists in E. destruct E as [q [Hq Hlive]].
    apply existsb_exists. exists q. split; [|exact Hlive].
    apply In_drop_request. split; [exact Hq|].
    intros Heq. destruct T as [_ _ _ Hn].
    assert (q = r).
    { clear - Hn Hq Hr Heq. induction l as [|a l IH]; [easy|].
      simpl in Hn. inversion Hn as [|x xs Hx Hl]; subst.
      destruct Hq as [->|Hq], Hr as [->|Hr]; auto.
      - exfalso. apply Hx. rewrite Heq. now apply in_map.
      - exfalso. apply Hx. rewrite <- Heq. now apply in_map. }
    subst q. unfold live in Hlive. rewrite Hc in Hlive. discriminate.
  - destruct (existsb live (drop_request (rid r) l)) eqn:E'; [|reflexivity].
    apply existsb_exists in E'. destruct E' as [q [Hq Hlive]].
    apply In_drop_request in Hq.
    assert (existsb live l = true) by (apply existsb_exists; exists q; tauto).
    congruence.
Qed.

(** Dropping the live call leaves none. *)
Lemma existsb_live_drop_live l c n r :
  tracked l c n -> In r l -> cancelled r = false ->
  existsb live (drop_request (rid r) l) = false.
Proof.
  intros T Hr Hc. apply existsb_live_false. intros q Hq.
  apply In_drop_request in Hq. destruct Hq as [Hq Hne].
  destruct (cancelled q) eqn:E; [reflexivity|exfalso].
  pose proof (tracked_live _ _ _ T r Hr Hc) as H1.
  pose proof (tracked_live _ _ _ T q Hq E) as H2.
  congruence.
Qed.

Lemma lookup_request_found (l : list Request) (r : Request) :
  NoDup (map rid l) -> In r l -> lookup_request (rid r) l = Some r.
Proof.
  unfold lookup_request. induction l as [|a l IH]; simpl; [easy|].
  intros Hn Hr. inversion Hn as [|x xs Hx Hl]; subst.
  destruct Hr as [->|Hr]; [now rewrite Nat.eqb_refl|].
  destruct (Nat.eqb (rid a) (rid r)) eqn:E; [|auto].
  apply Nat.eqb_eq in E. exfalso. apply Hx. rewrite E. now apply in_map.
Qed.

Lemma or_else_truthy (m d : jsstring) : d <> [] -> or_else m d <> [].
Proof. unfold or_else. destruct m; simpl; [auto|discriminate]. Qed.

(** ** [Movie.js]: the invariant of the reachable states *)

Module MovieJsFacts.
Import MovieJs.

Section Facts.
Variable API_KEY : option jsstring.

Lemma run_cleanup_cancelled (s : State) :
  tracked (inflight s) (cleanup s) (next_rid s) ->
  forall r, In r (inflight (run_cleanup s)) -> cancelled r = true.
Proof.
  intros T. unfold run_cleanup. destruct (cleanup s) as [k|] eqn:E; simpl.
  - eapply tracked_cleanup; eauto.
  - eapply tracked_none_cancelled; eauto.
Qed.

Lemma run_cleanup_fresh (s : State) :
  tracked (inflight s) (cleanup s) (next_rid s) ->
  (forall r, In r (inflight (run_cleanup s)) -> (rid r < next_rid s)%nat)
  /\ NoDup (map rid (inflight (run_cleanup s))).
Proof.
  intros [Hf Hl Hk Hn]. unfold run_cleanup. destruct (cleanup s) as [k|]; simpl.
  - split.
    + intros r Hr. apply in_map_iff in Hr. destruct Hr as [q [<- Hq]].
      rewrite rid_cancel. auto.
    + now rewrite map_rid_cancel.
  - now split.
Qed.

Lemma run_cleanup_cells (s : State) : cells (run_cleanup s) = cells s.
Proof. unfold run_cleanup. now destruct (cleanup s). Qed.

Lemma run_cleanup_next (s : State) : next_rid (run_cleanup s) = next_rid s.
Proof. unfold run_cleanup. now destruct (cleanup s). Qed.

Lemma effect_invariant (s : State) :
  invariant API_KEY s -> invariant API_KEY (effect API_KEY (run_cleanup s)).
Proof.
  intros [Hp Hm Ht Hl He Hk].
  pose proof (run_cleanup_cancelled s Ht) as Hc.
  destruct (run_cleanup_fresh s Ht) as [Hf Hn].
  pose proof (run_cleanup_cells s) as Hcells.
  pose proof (run_cleanup_next s) as Hnext.
  unfold cells in Hcells. injection Hcells as Em Ep Ei Eq Es El Ee.
  unfold effect.
  destruct API_KEY as [[|c key]|] eqn:EK.
  - specialize (Hk eq_refl).
    assert (Hs : run_cleanup s = s) by (unfold run_cleanup; now rewrite Hk).
    rewrite Hs. split; simpl; auto.
    + rewrite Hk in Ht. exact Ht.
    + intros Hload. rewrite Hl in Hload. rewrite Hk in Ht.
      rewrite existsb_live_false in Hload; [discriminate|].
      eapply tracked_none_cancelled; eauto.
  - cbn -[base run_cleanup]. rewrite Hnext.
    destruct (base (c :: key) _ _) as [u|m] eqn:EB.
    + split; simpl; try congruence.
      now apply tracked_launch.
    + split; simpl; try congruence;
        [now apply tracked_rerun | symmetry; now apply existsb_live_false].
  - specialize (Hk eq_refl).
    assert (Hs : run_cleanup s = s) by (unfold run_cleanup; now rewrite Hk).
    rewrite Hs. split; simpl; auto.
    + rewrite Hk in Ht. exact Ht.
    + intros Hload. rewrite Hl in Hload. rewrite Hk in Ht.
      rewrite existsb_live_false in Hload; [discriminate|].
      eapply tracked_none_cancelled; eauto.
Qed.

Lemma resume_cases (k : nat) (st : Stage) (f : Request -> State -> State)
    (P : State -> Prop) (s : State) :
  P s ->
  (forall r, In r (inflight s) -> rid r = k -> P (f r s)) ->
  P (resume k st f s).
Proof.
  intros Hs Hf. unfold resume.
  destruct (lookup_request k (inflight s)) as [r|] eqn:E; [|exact Hs].
  apply lookup_request_In in E. destruct E as [Hin Hk].
  destruct (is_stage (stage r) st); auto.
Qed.

Lemma after_reject_invariant (s : State) (r : Request) (m : jsstring) :
  invariant API_KEY s -> In r (inflight s) ->
  invariant API_KEY (after_reject r m s).
Proof.
  intros [Hp Hm Ht Hl He Hk] Hr. unfold after_reject.
  destruct (cancelled r) eqn:Ec; split; simpl; auto.
  - now apply tracked_drop.
  - rewrite Hl. symmetry. eapply existsb_live_drop_cancelled; eauto.
  - now apply tracked_drop.
  - symmetry. eapply existsb_live_drop_live; eauto.
  - discriminate.
Qed.

Lemma after_fetch_invariant (s : State) (r : Request) (ok : bool) (status : Z) :
  invariant API_KEY s -> In r (inflight s) ->
  invariant API_KEY (after_fetch r ok status s).
Proof.
  intros I Hr. unfold after_fetch. destruct ok.
  - destruct I as [Hp Hm Ht Hl He Hk]. split; simpl; auto.
    + now apply tracked_advance.
    + now rewrite existsb_live_advance.
  - now apply (after_reject_invariant s r).
Qed.

Lemma after_json_invariant (s : State) (r : Request) (data : Json) :
  invariant API_KEY s -> In r (inflight s) ->
  invariant API_KEY (after_json r data s).
Proof.
  intros I Hr. unfold after_json.
  destruct (cancelled r) eqn:Ec.
  - pose proof (after_reject_invariant s r [] I Hr) as H.
    unfold after_reject in H. now rewrite Ec in H.
  - destruct data as [|d].
    + pose proof (after_reject_invariant s r TypeError_message I Hr) as H.
      unfold after_reject in H. now rewrite Ec in H.
    + destruct I as [Hp Hm Ht Hl He Hk]. split; simpl; auto.
      * now destruct (Array_isArray (results d)) eqn:E.
      * now apply tracked_drop.
      * symmetry. eapply existsb_live_drop_live; eauto.
      * discriminate.
Qed.

Lemma handle_invariant (s : State) (e : Event) :
  invariant API_KEY s -> invariant API_KEY (handle e s).
Proof.
  intros I. destruct e; simpl.
  - destruct I. now split.
  - destruct I. split; simpl; auto. lia.
  - destruct I. split; simpl; auto. lia.
  - destruct I. now split.
  - destruct (previous_disabled s); [exact I|].
    destruct I. split; simpl; auto. lia.
  - destruct (next_disabled s); [exact I|].
    destruct I. split; simpl; auto. lia.
  - apply resume_cases; [exact I|]. intros r Hr _. now apply after_fetch_invariant.
  - apply resume_cases; [exact I|]. intros r Hr _. now apply after_reject_invariant.
  - apply resume_cases; [exact I|]. intros r Hr _. now apply after_json_invariant.
  - apply resume_cases; [exact I|]. intros r Hr _. now apply after_reject_invariant.
Qed.

Lemma dispatch_invariant (s : State) (e : Event) :
  invariant API_KEY s -> invariant API_KEY (dispatch API_KEY s e).
Proof.
  intros I. unfold dispatch, rerender.
  destruct (deps_eqb _ _).
  - now apply handle_invariant.
  - now apply effect_invariant, handle_invariant.
Qed.

Lemma initial_invariant : invariant API_KEY initial.
Proof.
  split; simpl; auto; try lia; try discriminate. apply tracked_nil.
Qed.

Lemma mounted_invariant : invariant API_KEY (mounted API_KEY).
Proof. apply (effect_invariant initial), initial_invariant. Qed.

Lemma reachable_invariant (s : State) :
  reachable API_KEY s -> invariant API_KEY s.
Proof.
  induction 1 as [|s e _ IH].
  - apply mounted_invariant.
  - now apply dispatch_invariant.
Qed.

Lemma run_reachable (events : list Event) : reachable API_KEY (run API_KEY events).
Proof.
  unfold run.
  assert (H : forall s, reachable API_KEY s ->
                        reachable API_KEY (fold_left (dispatch API_KEY) events s)).
  { induction events as [|e es IH]; simpl; intros s Hs; [exact Hs|].
    apply IH. now constructor. }
  apply H. constructor.
Qed.

(** Resuming a cancelled call changes no cell. *)
Lemma resume_cancelled_cells (s : State) (e : Event) (k : nat) :
  event_request e = Some k ->
  (forall r, In r (inflight s) -> rid r = k -> cancelled r = true) ->
  cells (handle e s) = cells s.
Proof.
  intros He Hc.
  destruct e; try discriminate; injection He as ->; simpl;
    apply (resume_cases k _ _ (fun s' => cells s' = cells s)); auto;
    intros r Hr Hk; specialize (Hc r Hr Hk).
  - unfold after_fetch. destruct ok; [reflexivity|]. now rewrite Hc.
  - unfold after_reject. now rewrite Hc.
  - unfold after_json. now rewrite Hc.
  - unfold after_reject. now rewrite Hc.
Qed.

(** Resuming a call leaves the other calls in flight as they are. *)
Lemma resume_others (s : State) (e : Event) (k : nat) (q : Request) :
  event_request e = Some k -> In q (inflight s) -> rid q <> k ->
  In q (inflight (handle e s)).
Proof.
  intros He Hq Hne.
  assert (Hadv : In q (map (advance k) (inflight s))).
  { apply in_map_iff. exists q. split; [|exact Hq].
    unfold advance. apply Nat.eqb_neq in Hne. now rewrite Hne. }
  assert (Hdrop : In q (drop_request k (inflight s)))
    by (apply In_drop_request; now split).
  destruct e; try discriminate; injection He as ->; simpl;
    apply (resume_cases k _ _ (fun s' => In q (inflight s'))); auto;
    intros r Hr Hk; subst k.
  - unfold after_fetch. destruct ok; [exact Hadv|].
    now destruct (cancelled r).
  - unfold after_reject. now destruct (cancelled r).
  - unfold after_json. destruct (cancelled r); [exact Hdrop|].
    now destruct data.
  - unfold after_reject. now destruct (cancelled r).
Qed.

Lemma handle_network_deps (s : State) (e : Event) (k : nat) :
  event_request e = Some k -> deps (handle e s) = deps s.
Proof.
  intros He.
  destruct e; try discriminate; simpl;
    apply (resume_cases _ _ _ (fun s' => deps s' = deps s)); auto;
    intros r Hr Hk.
  - unfold after_fetch. destruct ok; [reflexivity|]. now destruct (cancelled r).
  - unfold after_reject. now destruct (cancelled r).
  - unfold after_json. destruct (cancelled r); [reflexivity|]. now destruct data.
  - unfold after_reject. now destruct (cancelled r).
Qed.

Lemma deps_eqb_refl (d : Z * jsstring) : deps_eqb d d = true.
Proof.
  unfold deps_eqb, str_eqb. rewrite Z.eqb_refl.
  now destruct (jsstring_eq_dec (snd d) (snd d)).
Qed.

Lemma dispatch_network (s : State) (e : Event) (k : nat) :
  event_request e = Some k -> dispatch API_KEY s e = handle e s.
Proof.
  intros He. unfold dispatch, rerender.
  now rewrite (handle_network_deps s e k He), deps_eqb_refl.
Qed.

Lemma effect_keeps (s : State) :
  movies (effect API_KEY s) = movies s /\ page (effect API_KEY s) = page s
  /\ query (effect API_KEY s) = query s /\ sort (effect API_KEY s) = sort s
  /\ searchInput (effect API_KEY s) = searchInput s.
Proof.
  unfold effect. destruct API_KEY as [[|c key]|]; simpl; auto.
  destruct (base _ _ _); simpl; auto.
Qed.

Lemma rerender_keeps (s t : State) :
  movies (rerender API_KEY s t) = movies t /\ page (rerender API_KEY s t) = page t
  /\ query (rerender API_KEY s t) = query t /\ sort (rerender API_KEY s t) = sort t
  /\ searchInput (rerender API_KEY s t) = searchInput t.
Proof.
  unfold rerender. destruct (deps_eqb _ _); [tauto|].
  pose proof (effect_keeps (run_cleanup t)) as H.
  pose proof (run_cleanup_cells t) as C. unfold cells in C.
  injection C as Em Ep Ei Eq Es El Ee.
  intuition congruence.
Qed.

(** Resuming the call [r] at the await it is suspended at runs its
    continuation. *)
Lemma resume_found (s : State) (r : Request) (f : Request -> State -> State) :
  invariant API_KEY s -> In r (inflight s) ->
  resume (rid r) (stage r) f s = f r s.
Proof.
  intros I Hr. unfold resume.
  rewrite (lookup_request_found _ r (tracked_nodup _ _ _ (inv_tracked _ _ I)) Hr).
  now destruct (stage r).
Qed.

Lemma live_loading (s : State) (r : Request) :
  invariant API_KEY s -> In r (inflight s) -> cancelled r = false ->
  loading s = true /\ error s = [].
Proof.
  intros I Hr Hc.
  assert (H : loading s = true).
  { rewrite (inv_loading _ _ I). apply existsb_exists. exists r.
    unfold live. now rewrite Hc. }
  split; [exact H|]. now apply (inv_error _ _ I).
Qed.

Lemma loading_live (s : State) :
  invariant API_KEY s ->
  (loading s = true <-> exists r, In r (inflight s) /\ cancelled r = false).
Proof.
  intros I. rewrite (inv_loading _ _ I), existsb_exists. unfold live.
  split; intros [r [Hr Hc]]; exists r; split; auto.
  - now apply negb_true_iff.
  - now apply negb_true_iff.
Qed.

End Facts.
End MovieJsFacts.

(** ** The second version: the invariant of the reachable states *)

Module Part000Facts.
Import Part000.

Section Facts.
Variable API_KEY : option jsstring.

Lemma run_cleanup_cancelled_v2 (s : State) :
  tracked (inflight s) (cleanup s) (next_rid s) ->
  forall r, In r (inflight (run_cleanup s)) -> cancelled r = true.
Proof.
  intros T. unfold run_cleanup. destruct (cleanup s) as [k|] eqn:E; simpl.
  - eapply tracked_cleanup; eauto.
  - eapply tracked_none_cancelled; eauto.
Qed.

Lemma run_cleanup_fresh_v2 (s : State) :
  tracked (inflight s) (cleanup s) (next_rid s) ->
  (forall r, In r (inflight (run_cleanup s)) -> (rid r < next_rid s)%nat)
  /\ NoDup (map rid (inflight (run_cleanup s))).
Proof.
  intros [Hf Hl Hk Hn]. unfold run_cleanup. destruct (cleanup s) as [k|]; simpl.
  - split.
    + intros r Hr. apply in_map_iff in Hr. destruct Hr as [q [<- Hq]].
      rewrite rid_cancel. auto.
    + now rewrite map_rid_cancel.
  - now split.
Qed.

Lemma run_cleanup_cells_v2 (s : State) : cells (run_cleanup s) = cells s.
Proof. unfold run_cleanup. now destruct (cleanup s). Qed.

Lemma run_cleanup_next_v2 (s : State) : next_rid (run_cleanup s) = next_rid s.
Proof. unfold run_cleanup. now destruct (cleanup s). Qed.

Lemma effect_invariant_v2 (s : State) :
  invariant API_KEY s -> invariant API_KEY (effect API_KEY (run_cleanup s)).
Proof.
  intros [Hp Hm Ht Hl He Hk].
  pose proof (run_cleanup_cancelled_v2 s Ht) as Hc.
  destruct (run_cleanup_fresh_v2 s Ht) as [Hf Hn].
  pose proof (run_cleanup_cells_v2 s) as Hcells.
  pose proof (run_cleanup_next_v2 s) as Hnext.
  unfold cells in Hcells. injection Hcells as Em Ep Etp Ei Eq Es El Ee.
  unfold effect.
  destruct API_KEY as [[|c key]|] eqn:EK.
  - specialize (Hk eq_refl).
    assert (Hs : run_cleanup s = s) by (unfold run_cleanup; now rewrite Hk).
    rewrite Hs. split; simpl; auto.
    + rewrite Hk in Ht. exact Ht.
    + intros Hload. rewrite Hl in Hload. rewrite Hk in Ht.
      rewrite existsb_live_false in Hload; [discriminate|].
      eapply tracked_none_cancelled; eauto.
  - cbn -[url run_cleanup]. rewrite Hnext.
    destruct (url (c :: key) _ _ _) as [u|m] eqn:EB.
    + split; simpl; try congruence.
      now apply tracked_launch.
    + split; simpl; try congruence;
        [now apply tracked_rerun | symmetry; now apply existsb_live_false].
  - specialize (Hk eq_refl).
    assert (Hs : run_cleanup s = s) by (unfold run_cleanup; now rewrite Hk).
    rewrite Hs. split; simpl; auto.
    + rewrite Hk in Ht. exact Ht.
    + intros Hload. rewrite Hl in Hload. rewrite Hk in Ht.
      rewrite existsb_live_false in Hload; [discriminate|].
      eapply tracked_none_cancelled; eauto.
Qed.

Lemma resume_cases_v2 (k : nat) (st : Stage) (f : Request -> State -> State)
    (P : State -> Prop) (s : State) :
  P s ->
  (forall r, In r (inflight s) -> rid r = k -> P (f r s)) ->
  P (resume k st f s).
Proof.
  intros Hs Hf. unfold resume.
  destruct (lookup_request k (inflight s)) as [r|] eqn:E; [|exact Hs].
  apply lookup_request_In in E. destruct E as [Hin Hk].
  destruct (is_stage (stage r) st); auto.
Qed.

Lemma after_reject_invariant_v2 (s : State) (r : Request) (m : jsstring) :
  invariant API_KEY s -> In r (inflight s) ->
  invariant API_KEY (after_reject r m s).
Proof.
  intros [Hp Hm Ht Hl He Hk] Hr. unfold after_reject.
  destruct (cancelled r) eqn:Ec; split; simpl; auto.
  - now apply tracked_drop.
  - rewrite Hl. symmetry. eapply existsb_live_drop_cancelled; eauto.
  - now apply tracked_drop.
  - symmetry. eapply existsb_live_drop_live; eauto.
  - discriminate.
Qed.

Lemma after_fetch_invariant_v2 (s : State) (r : Request) (ok : bool) (status : Z) :
  invariant API_KEY s -> In r (inflight s) ->
  invariant API_KEY (after_fetch r ok status s).
Proof.
  intros I Hr. unfold after_fetch. destruct ok.
  - destruct I as [Hp Hm Ht Hl He Hk]. split; simpl; auto.
    + now apply tracked_advance.
    + now rewrite existsb_live_advance.
  - now apply (after_reject_invariant_v2 s r).
Qed.

Lemma after_json_invariant_v2 (s : State) (r : Request) (data : Json) :
  invariant API_KEY s -> In r (inflight s) ->
  invariant API_KEY (after_json r data s).
Proof.
  intros I Hr. unfold after_json.
  destruct (cancelled r) eqn:Ec.
  - pose proof (after_reject_invariant_v2 s r [] I Hr) as H.
    unfold after_reject in H. now rewrite Ec in H.
  - destruct data as [|d].
    + pose proof (after_reject_invariant_v2 s r TypeError_message I Hr) as H.
      unfold after_reject in H. now rewrite Ec in H.
    + destruct I as [Hp Hm Ht Hl He Hk]. split; simpl; auto.
      * now destruct (Array_isArray (results d)) eqn:E.
      * now apply tracked_drop.
      * symmetry. eapply existsb_live_drop_live; eauto.
      * discriminate.
Qed.

Lemma handle_invariant_v2 (s : State) (e : Event) :
  invariant API_KEY s -> invariant API_KEY (handle e s).
Proof.
  intros I. destruct e as [value|pressed|value| | |k ok status|k m|k data|k m]; simpl.
  - unfold handleSearchInputChange. destruct (str_eqb (trim value) []).
    + destruct I. split; simpl; auto. lia.
    + destruct I. now split.
  - unfold handleKeyPress. destruct (str_eqb pressed (lit "Enter")); [|exact I].
    destruct I. split; simpl; auto. lia.
  - destruct I. now split.
  - destruct (pagination_rendered s && negb (previous_disabled s)); [|exact I].
    destruct I. split; simpl; auto. lia.
  - destruct (pagination_rendered s && negb (next_disabled s)); [|exact I].
    destruct I. split; simpl; auto. lia.
  - apply resume_cases_v2; [exact I|]. intros r Hr _. now apply after_fetch_invariant_v2.
  - apply resume_cases_v2; [exact I|]. intros r Hr _. now apply after_reject_invariant_v2.
  - apply resume_cases_v2; [exact I|]. intros r Hr _. now apply after_json_invariant_v2.
  - apply resume_cases_v2; [exact I|]. intros r Hr _. now apply after_reject_invariant_v2.
Qed.

Lemma dispatch_invariant_v2 (s : State) (e : Event) :
  invariant API_KEY s -> invariant API_KEY (dispatch API_KEY s e).
Proof.
  intros I. unfold dispatch, rerender.
  destruct (deps_eqb _ _).
  - now apply handle_invariant_v2.
  - now apply effect_invariant_v2, handle_invariant_v2.
Qed.

Lemma initial_invariant_v2 : invariant API_KEY initial.
Proof.
  split; simpl; auto; try lia; try discriminate. apply tracked_nil.
Qed.

Lemma mounted_invariant_v2 : invariant API_KEY (mounted API_KEY).
Proof. apply (effect_invariant_v2 initial), initial_invariant_v2. Qed.

Lemma reachable_invariant_v2 (s : State) :
  reachable API_KEY s -> invariant API_KEY s.
Proof.
  induction 1 as [|s e _ IH].
  - apply mounted_invariant_v2.
  - now apply dispatch_invariant_v2.
Qed.

Lemma run_reachable_v2 (events : list Event) : reachable API_KEY (run API_KEY events).
Proof.
  unfold run.
  assert (H : forall s, reachable API_KEY s ->
                        reachable API_KEY (fold_left (dispatch API_KEY) events s)).
  { induction events as [|e es IH]; simpl; intros s Hs; [exact Hs|].
    apply IH. now constructor. }
  apply H. constructor.
Qed.

(** Resuming a cancelled call changes no cell. *)
Lemma resume_cancelled_cells_v2 (s : State) (e : Event) (k : nat) :
  event_request e = Some k ->
  (forall r, In r (inflight s) -> rid r = k -> cancelled r = true) ->
  cells (handle e s) = cells s.
Proof.
  intros He Hc.
  destruct e; try discriminate; injection He as ->; simpl;
    apply (resume_cases_v2 k _ _ (fun s' => cells s' = cells s)); auto;
    intros r Hr Hk; specialize (Hc r Hr Hk).
  - unfold after_fetch. destruct ok; [reflexivity|]. now rewrite Hc.
  - unfold after_reject. now rewrite Hc.
  - unfold after_json. now rewrite Hc.
  - unfold after_reject. now rewrite Hc.
Qed.

(** Resuming a call leaves the other calls in flight as they are. *)
Lemma resume_others_v2 (s : State) (e : Event) (k : nat) (q : Request) :
  event_request e = Some k -> In q (inflight s) -> rid q <> k ->
  In q (inflight (handle e s)).
Proof.
  intros He Hq Hne.
  assert (Hadv : In q (map (advance k) (inflight s))).
  { apply in_map_iff. exists q. split; [|exact Hq].
    unfold advance. apply Nat.eqb_neq in Hne. now rewrite Hne. }
  assert (Hdrop : In q (drop_request k (inflight s)))
    by (apply In_drop_request; now split).
  destruct e; try discriminate; injection He as ->; simpl;
    apply (resume_cases_v2 k _ _ (fun s' => In q (inflight s'))); auto;
    intros r Hr Hk; subst k.
  - unfold after_fetch. destruct ok; [exact Hadv|].
    now destruct (cancelled r).
  - unfold after_reject. now destruct (cancelled r).
  - unfold after_json. destruct (cancelled r); [exact Hdrop|].
    now destruct data.
  - unfold after_reject. now destruct (cancelled r).
Qed.

Lemma handle_network_deps_v2 (s : State) (e : Event) (k : nat) :
  event_request e = Some k -> deps (handle e s) = deps s.
Proof.
  intros He.
  destruct e; try discriminate; simpl;
    apply (resume_cases_v2 _ _ _ (fun s' => deps s' = deps s)); auto;
    intros r Hr Hk.
  - unfold after_fetch. destruct ok; [reflexivity|]. now destruct (cancelled r).
  - unfold after_reject. now destruct (cancelled r).
  - unfold after_json. destruct (cancelled r); [reflexivity|]. now destruct data.
  - unfold after_reject. now destruct (cancelled r).
Qed.

Lemma deps_eqb_refl_v2 (d : Z * jsstring * jsstring) : deps_eqb d d = true.
Proof.
  unfold deps_eqb, str_eqb. rewrite Z.eqb_refl.
  destruct (jsstring_eq_dec (snd (fst d)) (snd (fst d))); [|congruence].
  now destruct (jsstring_eq_dec (snd d) (snd d)).
Qed.

Lemma dispatch_network_v2 (s : State) (e : Event) (k : nat) :
  event_request e = Some k -> dispatch API_KEY s e = handle e s.
Proof.
  intros He. unfold dispatch, rerender.
  now rewrite (handle_network_deps_v2 s e k He), deps_eqb_refl_v2.
Qed.

Lemma effect_keeps_v2 (s : State) :
  movies (effect API_KEY s) = movies s /\ page (effect API_KEY s) = page s
  /\ query (effect API_KEY s) = query s /\ sort (effect API_KEY s) = sort s
  /\ searchInput (effect API_KEY s) = searchInput s.
Proof.
  unfold effect. destruct API_KEY as [[|c key]|]; simpl; auto.
  destruct (url _ _ _ _); simpl; auto.
Qed.

Lemma rerender_keeps_v2 (s t : State) :
  movies (rerender API_KEY s t) = movies t /\ page (rerender API_KEY s t) = page t
  /\ query (rerender API_KEY s t) = query t /\ sort (rerender API_KEY s t) = sort t
  /\ searchInput (rerender API_KEY s t) = searchInput t.
Proof.
  unfold rerender. destruct (deps_eqb _ _); [tauto|].
  pose proof (effect_keeps_v2 (run_cleanup t)) as H.
  pose proof (run_cleanup_cells_v2 t) as C. unfold cells in C.
  injection C as Em Ep Etp Ei Eq Es El Ee.
  intuition congruence.
Qed.

(** Resuming the call [r] at the await it is suspended at runs its
    continuation. *)
Lemma resume_found_v2 (s : State) (r : Request) (f : Request -> State -> State) :
  invariant API_KEY s -> In r (inflight s) ->
  resume (rid r) (stage r) f s = f r s.
Proof.
  intros I Hr. unfold resume.
  rewrite (lookup_request_found _ r (tracked_nodup _ _ _ (inv_tracked _ _ I)) Hr).
  now destruct (stage r).
Qed.

Lemma live_loading_v2 (s : State) (r : Request) :
  invariant API_KEY s -> In r (inflight s) -> cancelled r = false ->
  loading s = true /\ error s = [].
Proof.
  intros I Hr Hc.
  assert (H : loading s = true).
  { rewrite (inv_loading _ _ I). apply existsb_exists. exists r.
    unfold live. now rewrite Hc. }
  split; [exact H|]. now apply (inv_error _ _ I).
Qed.

Lemma loading_live_v2 (s : State) :
  invariant API_KEY s ->
  (loading s = true <-> exists r, In r (inflight s) /\ cancelled r = false).
Proof.
  intros I. rewrite (inv_loading _ _ I), existsb_exists. unfold live.
  split; intros [r [Hr Hc]]; exists r; split; auto.
  - now apply negb_true_iff.
  - now apply negb_true_iff.
Qed.

End Facts.
End Part000Facts.

(** * The claims *)

(** ** Superseded requests *)

Lemma superseded_noop_MovieJs API_KEY (s : MovieJs.State) (X : Request)
    (e : MovieJs.Event) :
  MovieJs.reachable API_KEY s -> In X (MovieJs.inflight s) ->
  MovieJs.superseded s X -> MovieJs.event_request e = Some (rid X) ->
  cancelled X = true
  /\ MovieJs.cells (MovieJs.dispatch API_KEY s e) = MovieJs.cells s
  /\ (forall Y, In Y (MovieJs.inflight s) -> rid Y <> rid X ->
        In Y (MovieJs.inflight (MovieJs.dispatch API_KEY s e))).
Proof.
  intros Hs HX Hsup He.
  pose proof (MovieJsFacts.reachable_invariant API_KEY s Hs) as I.
  pose proof (MovieJs.inv_tracked _ _ I) as T.
  rewrite (MovieJsFacts.dispatch_network API_KEY s e (rid X) He).
  split; [|split].
  - eapply tracked_superseded; eauto.
  - apply (MovieJsFacts.resume_cancelled_cells s e (rid X) He).
    intros r Hr Hk. eapply tracked_superseded; eauto.
    unfold MovieJs.superseded in Hsup. now rewrite Hk.
  - intros Y HY Hne. now apply (MovieJsFacts.resume_others s e (rid X)).
Qed.

Lemma superseded_noop_Part000 API_KEY (s : Part000.State) (X : Request)
    (e : Part000.Event) :
  Part000.reachable API_KEY s -> In X (Part000.inflight s) ->
  Part000.superseded s X -> Part000.event_request e = Some (rid X) ->
  cancelled X = true
  /\ Part000.cells (Part000.dispatch API_KEY s e) = Part000.cells s
  /\ (forall Y, In Y (Part000.inflight s) -> rid Y <> rid X ->
        In Y (Part000.inflight (Part000.dispatch API_KEY s e))).
Proof.
  intros Hs HX Hsup He.
  pose proof (Part000Facts.reachable_invariant_v2 API_KEY s Hs) as I.
  pose proof (Part000.inv_tracked _ _ I) as T.
  rewrite (Part000Facts.dispatch_network_v2 API_KEY s e (rid X) He).
  split; [|split].
  - eapply tracked_superseded; eauto.
  - apply (Part000Facts.resume_cancelled_cells_v2 s e (rid X) He).
    intros r Hr Hk. eapply tracked_superseded; eauto.
    unfold Part000.superseded in Hsup. now rewrite Hk.
  - intros Y HY Hne. now apply (Part000Facts.resume_others_v2 s e (rid X)).
Qed.

(** C1 -- In both versions: when request X is in flight and the effect has
    run again since X was launched (in particular when a request Y launched
    after X is in flight), X's closure flag is set, and every resolution of X
    (of its fetch or of its body, fulfilled or rejected) leaves the stored
    movies, error message, loading flag and every other state cell as they
    are, and leaves the other requests in flight, Y among them, untouched. *)
Theorem stale_resolution_is_noop :
  (forall API_KEY s X e,
     MovieJs.reachable API_KEY s -> In X (MovieJs.inflight s) ->
     MovieJs.superseded s X -> MovieJs.event_request e = Some (rid X) ->
     cancelled X = true
     /\ MovieJs.cells (MovieJs.dispatch API_KEY s e) = MovieJs.cells s
     /\ (forall Y, In Y (MovieJs.inflight s) -> rid Y <> rid X ->
           In Y (MovieJs.inflight (MovieJs.dispatch API_KEY s e))))
  /\ (forall API_KEY s X Y,
        MovieJs.reachable API_KEY s -> In X (MovieJs.inflight s) ->
        In Y (MovieJs.inflight s) -> (rid X < rid Y)%nat ->
        MovieJs.superseded s X)
  /\ (forall API_KEY s X e,
        Part000.reachable API_KEY s -> In X (Part000.inflight s) ->
        Part000.superseded s X -> Part000.event_request e = Some (rid X) ->
        cancelled X = true
        /\ Part000.cells (Part000.dispatch API_KEY s e) = Part000.cells s
        /\ (forall Y, In Y (Part000.inflight s) -> rid Y <> rid X ->
              In Y (Part000.inflight (Part000.dispatch API_KEY s e))))
  /\ (forall API_KEY s X Y,
        Part000.reachable API_KEY s -> In X (Part000.inflight s) ->
        In Y (Part000.inflight s) -> (rid X < rid Y)%nat ->
        Part000.superseded s X).
Proof.
  split; [|split; [|split]].
  - apply superseded_noop_MovieJs.
  - intros K s X Y Hs HX HY Hlt. unfold MovieJs.superseded.
    pose proof (MovieJsFacts.reachable_invariant K s Hs) as I.
    pose proof (tracked_fresh _ _ _ (MovieJs.inv_tracked _ _ I) Y HY). lia.
  - apply superseded_noop_Part000.
  - intros K s X Y Hs HX HY Hlt. unfold Part000.superseded.
    pose proof (Part000Facts.reachable_invariant_v2 K s Hs) as I.
    pose proof (tracked_fresh _ _ _ (Part000.inv_tracked _ _ I) Y HY). lia.
Qed.

Lemma stale_resolution_is_noop_witness :
  (MovieJs.cells
     (MovieJs.dispatch sample_key overlapping_MovieJs
        (MovieJs.JsonRejected 0 (lit "Unexpected end of JSON input")))
   = MovieJs.cells overlapping_MovieJs
   /\ MovieJs.superseded overlapping_MovieJs first_request)
  /\ (Part000.cells
        (Part000.dispatch sample_key overlapping_Part000
           (Part000.FetchResolved 0 false 500))
      = Part000.cells overlapping_Part000
      /\ Part000.superseded overlapping_Part000 first_request).
Proof.
  assert (InA : In first_request (MovieJs.inflight overlapping_MovieJs))
    by (vm_compute; right; left; reflexivity).
  assert (InB : In first_request (Part000.inflight overlapping_Part000))
    by (vm_compute; right; left; reflexivity).
  assert (SA : MovieJs.superseded overlapping_MovieJs first_request)
    by (vm_compute; lia).
  assert (SB : Part000.superseded overlapping_Part000 first_request)
    by (vm_compute; lia).
  destruct stale_resolution_is_noop as [A1 [A2 [B1 B2]]].
  split; split.
  - exact (proj1 (proj2 (A1 sample_key overlapping_MovieJs first_request
             (MovieJs.JsonRejected 0 (lit "Unexpected end of JSON input"))
             (MovieJsFacts.run_reachable _ _) InA SA eq_refl))).
  - refine (A2 sample_key overlapping_MovieJs first_request
              (hd first_request (MovieJs.inflight overlapping_MovieJs))
              (MovieJsFacts.run_reachable _ _) InA _ _).
    + vm_compute. left. reflexivity.
    + vm_compute. lia.
  - exact (proj1 (proj2 (B1 sample_key overlapping_Part000 first_request
             (Part000.FetchResolved 0 false 500)
             (Part000Facts.run_reachable_v2 _ _) InB SB eq_refl))).
  - refine (B2 sample_key overlapping_Part000 first_request
              (hd first_request (Part000.inflight overlapping_Part000))
              (Part000Facts.run_reachable_v2 _ _) InB _ _).
    + vm_compute. left. reflexivity.
    + vm_compute. lia.
Defined.

(** ** The stored result set *)

Lemma malformed_results_MovieJs API_KEY (s : MovieJs.State) (r : Request) (d : Body) :
  MovieJs.reachable API_KEY s -> In r (MovieJs.inflight s) ->
  cancelled r = false -> stage r = AwaitJson ->
  Array_isArray (results d) = false ->
  MovieJs.movies
    (MovieJs.dispatch API_KEY s (MovieJs.JsonResolved (rid r) (JsonValue d)))
  = JArr [].
Proof.
  intros Hs Hr Hc Hst Hd.
  pose proof (MovieJsFacts.reachable_invariant API_KEY s Hs) as I.
  rewrite (MovieJsFacts.dispatch_network API_KEY s
             (MovieJs.JsonResolved (rid r) (JsonValue d)) (rid r) eq_refl). simpl.
  rewrite <- Hst, (MovieJsFacts.resume_found API_KEY s r _ I Hr).
  unfold MovieJs.after_json. rewrite Hc. simpl. now rewrite Hd.
Qed.

Lemma malformed_results_Part000 API_KEY (s : Part000.State) (r : Request) (d : Body) :
  Part000.reachable API_KEY s -> In r (Part000.inflight s) ->
  cancelled r = false -> stage r = AwaitJson ->
  Array_isArray (results d) = false ->
  Part000.movies
    (Part000.dispatch API_KEY s (Part000.JsonResolved (rid r) (JsonValue d)))
  = JArr [].
Proof.
  intros Hs Hr Hc Hst Hd.
  pose proof (Part000Facts.reachable_invariant_v2 API_KEY s Hs) as I.
  rewrite (Part000Facts.dispatch_network_v2 API_KEY s
             (Part000.JsonResolved (rid r) (JsonValue d)) (rid r) eq_refl). simpl.
  rewrite <- Hst, (Part000Facts.resume_found_v2 API_KEY s r _ I Hr).
  unfold Part000.after_json. rewrite Hc. simpl. now rewrite Hd.
Qed.

Lemma isArray_JArr (v : jsval) :
  Array_isArray v = true -> exists l, v = JArr l.
Proof. destruct v; try discriminate. eauto. Qed.

(** C10 -- In every reachable state of both versions the [movies] cell holds
    an array, so [sortedMovies] and the grid are defined; when the body of
    the current request resolves with a [results] property that is not an
    array, the cell is set to the empty array. *)
Theorem stored_movies_is_array :
  (forall API_KEY Date_parse s,
     MovieJs.reachable API_KEY s ->
     (exists l, MovieJs.movies s = JArr l)
     /\ (exists cards, MovieJs.grid Date_parse s = Some cards))
  /\ (forall API_KEY s r d,
        MovieJs.reachable API_KEY s -> In r (MovieJs.inflight s) ->
        cancelled r = false -> stage r = AwaitJson ->
        Array_isArray (results d) = false ->
        MovieJs.movies
          (MovieJs.dispatch API_KEY s (MovieJs.JsonResolved (rid r) (JsonValue d)))
        = JArr [])
  /\ (forall API_KEY Date_parse s,
        Part000.reachable API_KEY s ->
        (exists l, Part000.movies s = JArr l)
        /\ (exists cards, Part000.grid Date_parse s = Some cards))
  /\ (forall API_KEY s r d,
        Part000.reachable API_KEY s -> In r (Part000.inflight s) ->
        cancelled r = false -> stage r = AwaitJson ->
        Array_isArray (results d) = false ->
        Part000.movies
          (Part000.dispatch API_KEY s (Part000.JsonResolved (rid r) (JsonValue d)))
        = JArr []).
Proof.
  split; [|split; [|split]].
  - intros K D s Hs.
    pose proof (MovieJsFacts.reachable_invariant K s Hs) as I.
    destruct (isArray_JArr _ (MovieJs.inv_movies _ _ I)) as [l Hl].
    split; [eauto|]. unfold MovieJs.grid. rewrite Hl. eauto.
  - apply malformed_results_MovieJs.
  - intros K D s Hs.
    pose proof (Part000Facts.reachable_invariant_v2 K s Hs) as I.
    destruct (isArray_JArr _ (Part000.inv_movies _ _ I)) as [l Hl].
    split; [eauto|]. unfold Part000.grid. rewrite Hl.
    destruct (Part000.pagination_rendered s); eauto.
  - apply malformed_results_Part000.
Qed.

Lemma stored_movies_is_array_witness :
  (exists l,
     MovieJs.movies
       (MovieJs.run sample_key
          [MovieJs.FetchResolved 0 true 200;
           MovieJs.JsonResolved 0 (JsonValue malformed_body)]) = JArr l)
  /\ MovieJs.movies
       (MovieJs.dispatch sample_key
          (MovieJs.run sample_key [MovieJs.FetchResolved 0 true 200])
          (MovieJs.JsonResolved 0 (JsonValue malformed_body))) = JArr []
  /\ (exists l,
        Part000.movies
          (Part000.run sample_key
             [Part000.FetchResolved 0 true 200;
              Part000.JsonResolved 0 (JsonValue malformed_body)]) = JArr l)
  /\ Part000.movies
       (Part000.dispatch sample_key
          (Part000.run sample_key [Part000.FetchResolved 0 true 200])
          (Part000.JsonResolved 0 (JsonValue malformed_body))) = JArr [].
Proof.
  destruct stored_movies_is_array as [A1 [A2 [B1 B2]]].
  split; [|split; [|split]].
  - exact (proj1 (A1 sample_key Date_parse_iso _ (MovieJsFacts.run_reachable _ _))).
  - refine (A2 sample_key (MovieJs.run sample_key [MovieJs.FetchResolved 0 true 200])
              awaiting_body malformed_body (MovieJsFacts.run_reachable _ _)
              _ eq_refl eq_refl eq_refl).
    vm_compute. left. reflexivity.
  - exact (proj1 (B1 sample_key Date_parse_iso _ (Part000Facts.run_reachable_v2 _ _))).
  - refine (B2 sample_key (Part000.run sample_key [Part000.FetchResolved 0 true 200])
              awaiting_body malformed_body (Part000Facts.run_reachable_v2 _ _)
              _ eq_refl eq_refl eq_refl).
    vm_compute. left. reflexivity.
Defined.

(** ** The page number *)

Lemma query_change_resets_MovieJs API_KEY (s : MovieJs.State) (e : MovieJs.Event) :
  MovieJs.query (MovieJs.dispatch API_KEY s e) <> MovieJs.query s ->
  MovieJs.page (MovieJs.dispatch API_KEY s e) = 1.
Proof.
  unfold MovieJs.dispatch.
  destruct (MovieJsFacts.rerender_keeps API_KEY s (MovieJs.handle e s))
    as [_ [-> [-> _]]].
  destruct e; simpl; try congruence.
  - destruct (MovieJs.previous_disabled s); simpl; congruence.
  - destruct (MovieJs.next_disabled s); simpl; congruence.
  - intros H. exfalso. apply H.
    pose proof (MovieJsFacts.handle_network_deps s
                  (MovieJs.FetchResolved k ok status) k eq_refl) as D.
    unfold MovieJs.deps in D. simpl in D. congruence.
  - intros H. exfalso. apply H.
    pose proof (MovieJsFacts.handle_network_deps s
                  (MovieJs.FetchRejected k message) k eq_refl) as D.
    unfold MovieJs.deps in D. simpl in D. congruence.
  - intros H. exfalso. apply H.
    pose proof (MovieJsFacts.handle_network_deps s
                  (MovieJs.JsonResolved k data) k eq_refl) as D.
    unfold MovieJs.deps in D. simpl in D. congruence.
  - intros H. exfalso. apply H.
    pose proof (MovieJsFacts.handle_network_deps s
                  (MovieJs.JsonRejected k message) k eq_refl) as D.
    unfold MovieJs.deps in D. simpl in D. congruence.
Qed.

Lemma query_change_resets_Part000 API_KEY (s : Part000.State) (e : Part000.Event) :
  Part000.query (Part000.dispatch API_KEY s e) <> Part000.query s ->
  Part000.page (Part000.dispatch API_KEY s e) = 1.
Proof.
  unfold Part000.dispatch.
  destruct (Part000Facts.rerender_keeps_v2 API_KEY s (Part000.handle e s))
    as [_ [-> [-> _]]].
  destruct e as [value|pressed|value| | |k ok status|k message|k data|k message];
    simpl; try congruence.
  - unfold Part000.handleSearchInputChange.
    destruct (str_eqb (trim value) []); simpl; congruence.
  - unfold Part000.handleKeyPress.
    destruct (str_eqb pressed (lit "Enter")); simpl; congruence.
  - destruct (Part000.pagination_rendered s && negb (Part000.previous_disabled s));
      simpl; congruence.
  - destruct (Part000.pagination_rendered s && negb (Part000.next_disabled s));
      simpl; congruence.
  - intros H. exfalso. apply H.
    pose proof (Part000Facts.handle_network_deps_v2 s
                  (Part000.FetchResolved k ok status) k eq_refl) as D.
    unfold Part000.deps in D. simpl in D. congruence.
  - intros H. exfalso. apply H.
    pose proof (Part000Facts.handle_network_deps_v2 s
                  (Part000.FetchRejected k message) k eq_refl) as D.
    unfold Part000.deps in D. simpl in D. congruence.
  - intros H. exfalso. apply H.
    pose proof (Part000Facts.handle_network_deps_v2 s
                  (Part000.JsonResolved k data) k eq_refl) as D.
    unfold Part000.deps in D. simpl in D. congruence.
  - intros H. exfalso. apply H.
    pose proof (Part000Facts.handle_network_deps_v2 s
                  (Part000.JsonRejected k message) k eq_refl) as D.
    unfold Part000.deps in D. simpl in D. congruence.
Qed.

(** C7 -- In both versions: the page number is at least 1 in every reachable
    state; the Previous handler sets it to [max 1 (p - 1)], which is at least
    1 whatever [p] is; and every event that changes the submitted query
    (submit and clear in [Movie.js]; the Enter key and an input that trims to
    the empty string in the second version) leaves the page number at 1. *)
Theorem page_number_invariant :
  (forall API_KEY s, MovieJs.reachable API_KEY s -> 1 <= MovieJs.page s)
  /\ (forall s,
        MovieJs.previous_disabled s = false ->
        MovieJs.page (MovieJs.handle MovieJs.ClickPrevious s)
        = Z.max 1 (MovieJs.page s - 1)
        /\ 1 <= MovieJs.page (MovieJs.handle MovieJs.ClickPrevious s))
  /\ (forall API_KEY s e,
        MovieJs.query (MovieJs.dispatch API_KEY s e) <> MovieJs.query s ->
        MovieJs.page (MovieJs.dispatch API_KEY s e) = 1)
  /\ (forall API_KEY s, Part000.reachable API_KEY s -> 1 <= Part000.page s)
  /\ (forall s,
        Part000.pagination_rendered s = true ->
        Part000.previous_disabled s = false ->
        Part000.page (Part000.handle Part000.ClickPrevious s)
        = Z.max 1 (Part000.page s - 1)
        /\ 1 <= Part000.page (Part000.handle Part000.ClickPrevious s))
  /\ (forall API_KEY s e,
        Part000.query (Part000.dispatch API_KEY s e) <> Part000.query s ->
        Part000.page (Part000.dispatch API_KEY s e) = 1).
Proof.
  split; [|split; [|split; [|split; [|split]]]].
  - intros K s Hs. apply (MovieJs.inv_page K), MovieJsFacts.reachable_invariant, Hs.
  - intros s Hd. simpl. rewrite Hd. simpl. split; [reflexivity|lia].
  - apply query_change_resets_MovieJs.
  - intros K s Hs.
    apply (Part000.inv_page K), Part000Facts.reachable_invariant_v2, Hs.
  - intros s Hr Hd. simpl. rewrite Hr, Hd. simpl. split; [reflexivity|lia].
  - apply query_change_resets_Part000.
Qed.

Lemma page_number_invariant_witness :
  (1 <= MovieJs.page second_page_MovieJs
   /\ MovieJs.page (MovieJs.handle MovieJs.ClickPrevious second_page_MovieJs) = 1
   /\ MovieJs.page (MovieJs.dispatch sample_key second_page_MovieJs MovieJs.Submit) = 1)
  /\ (1 <= Part000.page second_page_Part000
      /\ Part000.page (Part000.handle Part000.ClickPrevious second_page_Part000) = 1
      /\ Part000.page
           (Part000.dispatch sample_key second_page_Part000
              (Part000.KeyPress (lit "Enter"))) = 1).
Proof.
  destruct page_number_invariant as [A1 [A2 [A3 [B1 [B2 B3]]]]].
  split; (split; [|split]).
  - exact (A1 sample_key _ (MovieJsFacts.run_reachable _ _)).
  - exact (proj1 (A2 second_page_MovieJs eq_refl)).
  - refine (A3 sample_key second_page_MovieJs MovieJs.Submit _).
    vm_compute. discriminate.
  - exact (B1 sample_key _ (Part000Facts.run_reachable_v2 _ _)).
  - exact (proj1 (B2 second_page_Part000 eq_refl eq_refl)).
  - refine (B3 sample_key second_page_Part000 (Part000.KeyPress (lit "Enter")) _).
    vm_compute. discriminate.
Defined.

(** ** The pagination controls *)

(** C6 -- In every reachable state of both versions, Previous is disabled
    exactly when the page number is 1 or the loading flag is up, and the
    loading flag is up exactly when a request that is not superseded is in
    flight.  Next is disabled exactly while loading in [Movie.js], which
    keeps no page count; in the second version it is disabled exactly while
    loading or when a page count is known ([totalPages > 0]) and the page
    number has reached it, and the two controls are rendered only when
    nothing is loading and no error message is stored. *)
Theorem pagination_controls :
  (forall API_KEY s,
     MovieJs.reachable API_KEY s ->
     (MovieJs.previous_disabled s = true
      <-> MovieJs.page s = 1 \/ MovieJs.loading s = true)
     /\ (MovieJs.next_disabled s = true <-> MovieJs.loading s = true)
     /\ (MovieJs.loading s = true
         <-> exists r, In r (MovieJs.inflight s) /\ cancelled r = false))
  /\ (forall API_KEY s,
        Part000.reachable API_KEY s ->
        (Part000.previous_disabled s = true
         <-> Part000.page s = 1 \/ Part000.loading s = true)
        /\ (Part000.next_disabled s = true
            <-> Part000.loading s = true
                \/ (0 < Part000.totalPages s
                    /\ Part000.totalPages s <= Part000.page s))
        /\ (Part000.loading s = true
            <-> exists r, In r (Part000.inflight s) /\ cancelled r = false)
        /\ (Part000.pagination_rendered s = true
            <-> Part000.loading s = false /\ Part000.error s = [])).
Proof.
  split.
  - intros K s Hs. split; [|split].
    + unfold MovieJs.previous_disabled. rewrite orb_true_iff, Z.eqb_eq. tauto.
    + unfold MovieJs.next_disabled. tauto.
    + apply (MovieJsFacts.loading_live K), MovieJsFacts.reachable_invariant, Hs.
  - intros K s Hs. split; [|split; [|split]].
    + unfold Part000.previous_disabled. rewrite orb_true_iff, Z.eqb_eq. tauto.
    + unfold Part000.next_disabled.
      rewrite orb_true_iff, andb_true_iff, Z.ltb_lt, Z.leb_le. tauto.
    + apply (Part000Facts.loading_live_v2 K), Part000Facts.reachable_invariant_v2, Hs.
    + unfold Part000.pagination_rendered.
      rewrite andb_true_iff, !negb_true_iff.
      destruct (Part000.error s); simpl; split; intros [H1 H2]; split;
        congruence.
Qed.

Lemma pagination_controls_witness :
  (MovieJs.previous_disabled (MovieJs.mounted sample_key) = true
   <-> MovieJs.page (MovieJs.mounted sample_key) = 1
       \/ MovieJs.loading (MovieJs.mounted sample_key) = true)
  /\ (Part000.next_disabled last_page_Part000 = true
      <-> Part000.loading last_page_Part000 = true
          \/ (0 < Part000.totalPages last_page_Part000
              /\ Part000.totalPages last_page_Part000
                 <= Part000.page last_page_Part000)).
Proof.
  destruct pagination_controls as [A B].
  split.
  - exact (proj1 (A sample_key _ (MovieJs.reachable_mounted sample_key))).
  - exact (proj1 (proj2 (B sample_key _ (Part000Facts.run_reachable_v2 _ _)))).
Defined.

Example last_page_next_disabled :
  Part000.page last_page_Part000 = 3
  /\ Part000.loading last_page_Part000 = false
  /\ Part000.next_disabled last_page_Part000 = true
  /\ Part000.dispatch sample_key last_page_Part000 Part000.ClickNext
     = last_page_Part000.
Proof. vm_compute. repeat split. Qed.

(** ** The outcomes of a request *)

Lemma fetch_outcomes_MovieJs API_KEY (s : MovieJs.State) (r : Request) :
  MovieJs.reachable API_KEY s -> In r (MovieJs.inflight s) ->
  cancelled r = false -> stage r = AwaitFetch ->
  (forall status,
     let s' := MovieJs.dispatch API_KEY s (MovieJs.FetchResolved (rid r) false status) in
     MovieJs.loading s' = false /\ MovieJs.error s' = http_failure status
     /\ MovieJs.error s' <> [] /\ MovieJs.movies s' = MovieJs.movies s)
  /\ (forall m,
        let s' := MovieJs.dispatch API_KEY s (MovieJs.FetchRejected (rid r) m) in
        MovieJs.loading s' = false /\ MovieJs.error s' = or_else m fallback_message
        /\ MovieJs.error s' <> [] /\ MovieJs.movies s' = MovieJs.movies s)
  /\ (forall status,
        let s' := MovieJs.dispatch API_KEY s (MovieJs.FetchResolved (rid r) true status) in
        MovieJs.cells s' = MovieJs.cells s /\ MovieJs.loading s' = true).
Proof.
  intros Hs Hr Hc Hst.
  pose proof (MovieJsFacts.reachable_invariant API_KEY s Hs) as I.
  destruct (MovieJsFacts.live_loading API_KEY s r I Hr Hc) as [Hload Herr].
  split; [|split].
  - intros status s'. subst s'.
    rewrite (MovieJsFacts.dispatch_network API_KEY s
               (MovieJs.FetchResolved (rid r) false status) (rid r) eq_refl).
    simpl. rewrite <- Hst, (MovieJsFacts.resume_found API_KEY s r _ I Hr).
    unfold MovieJs.after_fetch. rewrite Hc. simpl.
    repeat split. discriminate.
  - intros m s'. subst s'.
    rewrite (MovieJsFacts.dispatch_network API_KEY s
               (MovieJs.FetchRejected (rid r) m) (rid r) eq_refl).
    simpl. rewrite <- Hst, (MovieJsFacts.resume_found API_KEY s r _ I Hr).
    unfold MovieJs.after_reject. rewrite Hc. simpl.
    repeat split. apply or_else_truthy. discriminate.
  - intros status s'. subst s'.
    rewrite (MovieJsFacts.dispatch_network API_KEY s
               (MovieJs.FetchResolved (rid r) true status) (rid r) eq_refl).
    simpl. rewrite <- Hst, (MovieJsFacts.resume_found API_KEY s r _ I Hr).
    unfold MovieJs.after_fetch. simpl. now split.
Qed.

Lemma body_outcomes_MovieJs API_KEY (s : MovieJs.State) (r : Request) :
  MovieJs.reachable API_KEY s -> In r (MovieJs.inflight s) ->
  cancelled r = false -> stage r = AwaitJson ->
  (forall d,
     let s' := MovieJs.dispatch API_KEY s (MovieJs.JsonResolved (rid r) (JsonValue d)) in
     MovieJs.loading s' = false /\ MovieJs.error s' = []
     /\ MovieJs.movies s'
        = (if Array_isArray (results d) then results d else JArr []))
  /\ (let s' := MovieJs.dispatch API_KEY s (MovieJs.JsonResolved (rid r) JsonNull) in
      MovieJs.loading s' = false /\ MovieJs.error s' = TypeError_message
      /\ MovieJs.error s' <> [] /\ MovieJs.movies s' = MovieJs.movies s)
  /\ (forall m,
        let s' := MovieJs.dispatch API_KEY s (MovieJs.JsonRejected (rid r) m) in
        MovieJs.loading s' = false /\ MovieJs.error s' = or_else m fallback_message
        /\ MovieJs.error s' <> [] /\ MovieJs.movies s' = MovieJs.movies s).
Proof.
  intros Hs Hr Hc Hst.
  pose proof (MovieJsFacts.reachable_invariant API_KEY s Hs) as I.
  destruct (MovieJsFacts.live_loading API_KEY s r I Hr Hc) as [Hload Herr].
  split; [|split].
  - intros d s'. subst s'.
    rewrite (MovieJsFacts.dispatch_network API_KEY s
               (MovieJs.JsonResolved (rid r) (JsonValue d)) (rid r) eq_refl).
    simpl. rewrite <- Hst, (MovieJsFacts.resume_found API_KEY s r _ I Hr).
    unfold MovieJs.after_json. rewrite Hc. simpl. now repeat split.
  - intros s'. subst s'.
    rewrite (MovieJsFacts.dispatch_network API_KEY s
               (MovieJs.JsonResolved (rid r) JsonNull) (rid r) eq_refl).
    simpl. rewrite <- Hst, (MovieJsFacts.resume_found API_KEY s r _ I Hr).
    unfold MovieJs.after_json. rewrite Hc. simpl.
    repeat split. discriminate.
  - intros m s'. subst s'.
    rewrite (MovieJsFacts.dispatch_network API_KEY s
               (MovieJs.JsonRejected (rid r) m) (rid r) eq_refl).
    simpl. rewrite <- Hst, (MovieJsFacts.resume_found API_KEY s r _ I Hr).
    unfold MovieJs.after_reject. rewrite Hc. simpl.
    repeat split. apply or_else_truthy. discriminate.
Qed.

Lemma fetch_outcomes_Part000 API_KEY (s : Part000.State) (r : Request) :
  Part000.reachable API_KEY s -> In r (Part000.inflight s) ->
  cancelled r = false -> stage r = AwaitFetch ->
  (forall status,
     let s' := Part000.dispatch API_KEY s (Part000.FetchResolved (rid r) false status) in
     Part000.loading s' = false /\ Part000.error s' = http_failure status
     /\ Part000.error s' <> [] /\ Part000.movies s' = Part000.movies s)
  /\ (forall m,
        let s' := Part000.dispatch API_KEY s (Part000.FetchRejected (rid r) m) in
        Part000.loading s' = false /\ Part000.error s' = or_else m fallback_message
        /\ Part000.error s' <> [] /\ Part000.movies s' = Part000.movies s)
  /\ (forall status,
        let s' := Part000.dispatch API_KEY s (Part000.FetchResolved (rid r) true status) in
        Part000.cells s' = Part000.cells s /\ Part000.loading s' = true).
Proof.
  intros Hs Hr Hc Hst.
  pose proof (Part000Facts.reachable_invariant_v2 API_KEY s Hs) as I.
  destruct (Part000Facts.live_loading_v2 API_KEY s r I Hr Hc) as [Hload Herr].
  split; [|split].
  - intros status s'. subst s'.
    rewrite (Part000Facts.dispatch_network_v2 API_KEY s
               (Part000.FetchResolved (rid r) false status) (rid r) eq_refl).
    simpl. rewrite <- Hst, (Part000Facts.resume_found_v2 API_KEY s r _ I Hr).
    unfold Part000.after_fetch. rewrite Hc. simpl.
    repeat split. discriminate.
  - intros m s'. subst s'.
    rewrite (Part000Facts.dispatch_network_v2 API_KEY s
               (Part000.FetchRejected (rid r) m) (rid r) eq_refl).
    simpl. rewrite <- Hst, (Part000Facts.resume_found_v2 API_KEY s r _ I Hr).
    unfold Part000.after_reject. rewrite Hc. simpl.
    repeat split. apply or_else_truthy. discriminate.
  - intros status s'. subst s'.
    rewrite (Part000Facts.dispatch_network_v2 API_KEY s
               (Part000.FetchResolved (rid r) true status) (rid r) eq_refl).
    simpl. rewrite <- Hst, (Part000Facts.resume_found_v2 API_KEY s r _ I Hr).
    unfold Part000.after_fetch. simpl. now split.
Qed.

Lemma body_outcomes_Part000 API_KEY (s : Part000.State) (r : Request) :
  Part000.reachable API_KEY s -> In r (Part000.inflight s) ->
  cancelled r = false -> stage r = AwaitJson ->
  (forall d,
     let s' := Part000.dispatch API_KEY s (Part000.JsonResolved (rid r) (JsonValue d)) in
     Part000.loading s' = false /\ Part000.error s' = []
     /\ Part000.movies s'
        = (if Array_isArray (results d) then results d else JArr [])
     /\ Part000.totalPages s'
        = match total_pages d with Some n => n | None => 0 end)
  /\ (let s' := Part000.dispatch API_KEY s (Part000.JsonResolved (rid r) JsonNull) in
      Part000.loading s' = false /\ Part000.error s' = TypeError_message
      /\ Part000.error s' <> [] /\ Part000.movies s' = Part000.movies s)
  /\ (forall m,
        let s' := Part000.dispatch API_KEY s (Part000.JsonRejected (rid r) m) in
        Part000.loading s' = false /\ Part000.error s' = or_else m fallback_message
        /\ Part000.error s' <> [] /\ Part000.movies s' = Part000.movies s).
Proof.
  intros Hs Hr Hc Hst.
  pose proof (Part000Facts.reachable_invariant_v2 API_KEY s Hs) as I.
  destruct (Part000Facts.live_loading_v2 API_KEY s r I Hr Hc) as [Hload Herr].
  split; [|split].
  - intros d s'. subst s'.
    rewrite (Part000Facts.dispatch_network_v2 API_KEY s
               (Part000.JsonResolved (rid r) (JsonValue d)) (rid r) eq_refl).
    simpl. rewrite <- Hst, (Part000Facts.resume_found_v2 API_KEY s r _ I Hr).
    unfold Part000.after_json. rewrite Hc. simpl. repeat split; auto.
    destruct (total_pages d) as [n|]; [|reflexivity].
    destruct (Z.eqb_spec n 0); congruence.
  - intros s'. subst s'.
    rewrite (Part000Facts.dispatch_network_v2 API_KEY s
               (Part000.JsonResolved (rid r) JsonNull) (rid r) eq_refl).
    simpl. rewrite <- Hst, (Part000Facts.resume_found_v2 API_KEY s r _ I Hr).
    unfold Part000.after_json. rewrite Hc. simpl.
    repeat split. discriminate.
  - intros m s'. subst s'.
    rewrite (Part000Facts.dispatch_network_v2 API_KEY s
               (Part000.JsonRejected (rid r) m) (rid r) eq_refl).
    simpl. rewrite <- Hst, (Part000Facts.resume_found_v2 API_KEY s r _ I Hr).
    unfold Part000.after_reject. rewrite Hc. simpl.
    repeat split. apply or_else_truthy. discriminate.
Qed.

(** C8 -- In both versions, the request that is not superseded resolves in
    one of two ways, and both clear the loading flag.  Failure -- a response
    that is not ok, a rejected fetch, a body that does not parse or is
    [null] -- stores a non-empty error message and keeps the stored movies.
    Success stores the [results] array (the empty array when [results] is
    not one) and, in the second version, the page count ([0] when the body
    has none), and leaves the error message empty, whatever message an
    earlier attempt stored.  An ok response alone changes no cell: the
    request goes on to await its body. *)
Theorem fetch_outcomes :
  (forall API_KEY s r,
     MovieJs.reachable API_KEY s -> In r (MovieJs.inflight s) ->
     cancelled r = false ->
     (stage r = AwaitFetch ->
      (forall status,
         let s' := MovieJs.dispatch API_KEY s (MovieJs.FetchResolved (rid r) false status) in
         MovieJs.loading s' = false /\ MovieJs.error s' = http_failure status
         /\ MovieJs.error s' <> [] /\ MovieJs.movies s' = MovieJs.movies s)
      /\ (forall m,
            let s' := MovieJs.dispatch API_KEY s (MovieJs.FetchRejected (rid r) m) in
            MovieJs.loading s' = false
            /\ MovieJs.error s' = or_else m fallback_message
            /\ MovieJs.error s' <> [] /\ MovieJs.movies s' = MovieJs.movies s)
      /\ (forall status,
            let s' := MovieJs.dispatch API_KEY s (MovieJs.FetchResolved (rid r) true status) in
            MovieJs.cells s' = MovieJs.cells s /\ MovieJs.loading s' = true))
     /\ (stage r = AwaitJson ->
         (forall d,
            let s' := MovieJs.dispatch API_KEY s (MovieJs.JsonResolved (rid r) (JsonValue d)) in
            MovieJs.loading s' = false /\ MovieJs.error s' = []
            /\ MovieJs.movies s'
               = (if Array_isArray (results d) then results d else JArr []))
         /\ (let s' := MovieJs.dispatch API_KEY s (MovieJs.JsonResolved (rid r) JsonNull) in
             MovieJs.loading s' = false /\ MovieJs.error s' = TypeError_message
             /\ MovieJs.error s' <> [] /\ MovieJs.movies s' = MovieJs.movies s)
         /\ (forall m,
               let s' := MovieJs.dispatch API_KEY s (MovieJs.JsonRejected (rid r) m) in
               MovieJs.loading s' = false
               /\ MovieJs.error s' = or_else m fallback_message
               /\ MovieJs.error s' <> [] /\ MovieJs.movies s' = MovieJs.movies s)))
  /\ (forall API_KEY s r,
        Part000.reachable API_KEY s -> In r (Part000.inflight s) ->
        cancelled r = false ->
        (stage r = AwaitFetch ->
         (forall status,
            let s' := Part000.dispatch API_KEY s (Part000.FetchResolved (rid r) false status) in
            Part000.loading s' = false /\ Part000.error s' = http_failure status
            /\ Part000.error s' <> [] /\ Part000.movies s' = Part000.movies s)
         /\ (forall m,
               let s' := Part000.dispatch API_KEY s (Part000.FetchRejected (rid r) m) in
               Part000.loading s' = false
               /\ Part000.error s' = or_else m fallback_message
               /\ Part000.error s' <> [] /\ Part000.movies s' = Part000.movies s)
         /\ (forall status,
               let s' := Part000.dispatch API_KEY s (Part000.FetchResolved (rid r) true status) in
               Part000.cells s' = Part000.cells s /\ Part000.loading s' = true))
        /\ (stage r = AwaitJson ->
            (forall d,
               let s' := Part000.dispatch API_KEY s (Part000.JsonResolved (rid r) (JsonValue d)) in
               Part000.loading s' = false /\ Part000.error s' = []
               /\ Part000.movies s'
                  = (if Array_isArray (results d) then results d else JArr [])
               /\ Part000.totalPages s'
                  = match total_pages d with Some n => n | None => 0 end)
            /\ (let s' := Part000.dispatch API_KEY s (Part000.JsonResolved (rid r) JsonNull) in
                Part000.loading s' = false /\ Part000.error s' = TypeError_message
                /\ Part000.error s' <> [] /\ Part000.movies s' = Part000.movies s)
            /\ (forall m,
                  let s' := Part000.dispatch API_KEY s (Part000.JsonRejected (rid r) m) in
                  Part000.loading s' = false
                  /\ Part000.error s' = or_else m fallback_message
                  /\ Part000.error s' <> [] /\ Part000.movies s' = Part000.movies s))).
Proof.
  split.
  - intros K s r Hs Hr Hc. split; intros Hst.
    + now apply fetch_outcomes_MovieJs.
    + now apply body_outcomes_MovieJs.
  - intros K s r Hs Hr Hc. split; intros Hst.
    + now apply fetch_outcomes_Part000.
    + now apply body_outcomes_Part000.
Qed.

Example failed_attempt_MovieJs :
  MovieJs.error (MovieJs.run sample_key [MovieJs.FetchResolved 0 false 503])
  = lit "TMDB request failed (503)".
Proof. reflexivity. Qed.

Lemma fetch_outcomes_witness :
  (MovieJs.loading
     (MovieJs.dispatch sample_key retrying_MovieJs (MovieJs.JsonResolved 1 sample_body))
   = false
   /\ MovieJs.error
        (MovieJs.dispatch sample_key retrying_MovieJs (MovieJs.JsonResolved 1 sample_body))
      = []
   /\ MovieJs.movies
        (MovieJs.dispatch sample_key retrying_MovieJs (MovieJs.JsonResolved 1 sample_body))
      = JArr [film_A; film_B])
  /\ (Part000.loading
        (Part000.dispatch sample_key (Part000.mounted sample_key)
           (Part000.FetchResolved 0 false 404)) = false
      /\ Part000.error
           (Part000.dispatch sample_key (Part000.mounted sample_key)
              (Part000.FetchResolved 0 false 404))
         = lit "TMDB request failed (404)").
Proof.
  destruct fetch_outcomes as [A B].
  split.
  - assert (Hin : In retry_request (MovieJs.inflight retrying_MovieJs))
      by (vm_compute; left; reflexivity).
    exact (proj1 (proj2 (A sample_key retrying_MovieJs retry_request
                           (MovieJsFacts.run_reachable _ _) Hin eq_refl) eq_refl)
             {| results := JArr [film_A; film_B]; total_pages := Some 3 |}).
  - assert (Hin : In (hd retry_request (Part000.inflight (Part000.mounted sample_key)))
                     (Part000.inflight (Part000.mounted sample_key)))
      by (vm_compute; left; reflexivity).
    pose proof (proj1 (proj1 (B sample_key (Part000.mounted sample_key)
                                (hd retry_request (Part000.inflight (Part000.mounted sample_key)))
                                (Part000.reachable_mounted _) Hin eq_refl) eq_refl) 404)
      as H.
    split; [exact (proj1 H) | exact (proj1 (proj2 H))].
Defined.

Lemma str_eqb_eq (a b : jsstring) : str_eqb a b = true <-> a = b.
Proof.
  unfold str_eqb. destruct (jsstring_eq_dec a b); split; congruence.
Qed.

Lemma str_eqb_refl (a : jsstring) : str_eqb a a = true.
Proof. now apply str_eqb_eq. Qed.

(** ** The request *)

Lemma length_pos_iff (s : jsstring) :
  (0 <? List.length s)%nat = true <-> s <> [].
Proof.
  destruct s; simpl; split; intros H; try reflexivity; try discriminate.
  now elim H.
Qed.

Lemma encodeURIComponent_throws (s : jsstring) (m : jsstring) :
  encodeURIComponent s = Throw m -> m = URIError_message.
Proof.
  revert m. induction s as [|c|c d s IHs IHd] using jsstring_ind2; intros m.
  - discriminate.
  - simpl. destruct (uri_unreserved c); [discriminate|].
    destruct (is_leading_surrogate c); [now intros [= <-]|].
    destruct (is_trailing_surrogate c); [now intros [= <-]|discriminate].
  - change (encodeURIComponent (c :: d :: s)) with
      (if uri_unreserved c then
         bind (encodeURIComponent (d :: s)) (fun e => Ok (c :: e))
       else if is_leading_surrogate c then
         if is_trailing_surrogate d then
           bind (encodeURIComponent s)
             (fun e => Ok (escape ((c - 55296) * 1024 + (d - 56320) + 65536)%N ++ e))
         else Throw URIError_message
       else if is_trailing_surrogate c then Throw URIError_message
       else bind (encodeURIComponent (d :: s)) (fun e => Ok (escape c ++ e))).
    destruct (uri_unreserved c).
    + destruct (encodeURIComponent (d :: s)) as [e'|m'] eqn:E; [discriminate|].
      simpl. intros [= <-]. now apply IHd.
    + destruct (is_leading_surrogate c).
      * destruct (is_trailing_surrogate d); [|now intros [= <-]].
        destruct (encodeURIComponent s) as [e'|m'] eqn:E; [discriminate|].
        simpl. intros [= <-]. now apply IHs.
      * destruct (is_trailing_surrogate c); [now intros [= <-]|].
        destruct (encodeURIComponent (d :: s)) as [e'|m'] eqn:E; [discriminate|].
        simpl. intros [= <-]. now apply IHd.
Qed.

Lemma encodeURIComponent_malformed (s : jsstring) :
  isWellFormed s = false -> encodeURIComponent s = Throw URIError_message.
Proof.
  intros H. destruct (encodeURIComponent s) as [e|m] eqn:E.
  - assert (W : isWellFormed s = true) by (apply encodeURIComponent_total; eauto).
    congruence.
  - now rewrite (encodeURIComponent_throws s m E).
Qed.

Lemma search_url_shape (key q page_text tail : jsstring) :
  let u := lit "https://api.themoviedb.org/3/search/movie?api_key=" ++ key
           ++ lit "&query=" ++ q ++ lit "&page=" ++ page_text
           ++ lit "&include_adult=false" ++ tail in
  startsWith search_endpoint u = true
  /\ startsWith discover_endpoint u = false
  /\ includes (lit "&query=" ++ q ++ lit "&") u = true
  /\ includes (lit "&page=" ++ page_text ++ lit "&") u = true.
Proof.
  intros u. subst u. split; [reflexivity|]. split; [reflexivity|]. split.
  - replace (lit "https://api.themoviedb.org/3/search/movie?api_key=" ++ key
             ++ lit "&query=" ++ q ++ lit "&page=" ++ page_text
             ++ lit "&include_adult=false" ++ tail)
      with ((lit "https://api.themoviedb.org/3/search/movie?api_key=" ++ key)
            ++ (lit "&query=" ++ q ++ lit "&")
            ++ (lit "page=" ++ page_text ++ lit "&include_adult=false" ++ tail)).
    + apply includes_app.
    + rewrite <- !app_assoc. reflexivity.
  - replace (lit "https://api.themoviedb.org/3/search/movie?api_key=" ++ key
             ++ lit "&query=" ++ q ++ lit "&page=" ++ page_text
             ++ lit "&include_adult=false" ++ tail)
      with ((lit "https://api.themoviedb.org/3/search/movie?api_key=" ++ key
             ++ lit "&query=" ++ q)
            ++ (lit "&page=" ++ page_text ++ lit "&")
            ++ (lit "include_adult=false" ++ tail)).
    + apply includes_app.
    + rewrite <- !app_assoc. reflexivity.
Qed.

Lemma discover_url_shape (key page_text tail : jsstring) :
  let u := lit "https://api.themoviedb.org/3/discover/movie?api_key=" ++ key
           ++ lit "&page=" ++ page_text ++ lit "&include_adult=false" ++ tail in
  startsWith discover_endpoint u = true
  /\ startsWith search_endpoint u = false
  /\ includes (lit "&page=" ++ page_text ++ lit "&") u = true.
Proof.
  intros u. subst u. split; [reflexivity|]. split; [reflexivity|].
  replace (lit "https://api.themoviedb.org/3/discover/movie?api_key=" ++ key
           ++ lit "&page=" ++ page_text ++ lit "&include_adult=false" ++ tail)
    with ((lit "https://api.themoviedb.org/3/discover/movie?api_key=" ++ key)
          ++ (lit "&page=" ++ page_text ++ lit "&")
          ++ (lit "include_adult=false" ++ tail)).
  - apply includes_app.
  - rewrite <- !app_assoc. reflexivity.
Qed.

Lemma base_search (key query : jsstring) (page : Z) :
  trim query <> [] ->
  (isWellFormed query = true ->
   exists u q,
     MovieJs.base key query page = Ok u /\ encodeURIComponent query = Ok q
     /\ forallb uri_component_char q = true
     /\ startsWith search_endpoint u = true
     /\ startsWith discover_endpoint u = false
     /\ includes (query_parameter q) u = true
     /\ includes (page_parameter page) u = true)
  /\ (isWellFormed query = false ->
      MovieJs.base key query page = Throw URIError_message).
Proof.
  intros Hq. apply length_pos_iff in Hq. unfold MovieJs.base. rewrite Hq.
  split; intros W.
  - destruct (proj1 (encodeURIComponent_total query) W) as [q E].
    rewrite E. simpl bind.
    eexists; exists q. split; [reflexivity|]. split; [reflexivity|].
    split; [now apply (encodeURIComponent_chars query)|].
    exact (search_url_shape key q (Number_toString page) []).
  - now rewrite (encodeURIComponent_malformed query W).
Qed.

Lemma base_discover (key query : jsstring) (page : Z) :
  trim query = [] ->
  exists u,
    MovieJs.base key query page = Ok u
    /\ startsWith discover_endpoint u = true
    /\ startsWith search_endpoint u = false
    /\ includes (page_parameter page) u = true.
Proof.
  intros Hq. unfold MovieJs.base. rewrite Hq. simpl Nat.ltb.
  eexists. split; [reflexivity|].
  exact (discover_url_shape key (Number_toString page) []).
Qed.

Lemma url_search (key query : jsstring) (page : Z) (sort : jsstring) :
  trim query <> [] ->
  (isWellFormed query = true ->
   exists u q,
     Part000.url key query page sort = Ok u /\ encodeURIComponent query = Ok q
     /\ forallb uri_component_char q = true
     /\ startsWith search_endpoint u = true
     /\ startsWith discover_endpoint u = false
     /\ includes (query_parameter q) u = true
     /\ includes (page_parameter page) u = true)
  /\ (isWellFormed query = false ->
      Part000.url key query page sort = Throw URIError_message).
Proof.
  intros Hq. apply length_pos_iff in Hq. unfold Part000.url. rewrite Hq.
  split; intros W.
  - destruct (proj1 (encodeURIComponent_total query) W) as [q E].
    rewrite E. simpl bind.
    eexists; exists q. split; [reflexivity|]. split; [reflexivity|].
    split; [now apply (encodeURIComponent_chars query)|].
    exact (search_url_shape key q (Number_toString page) []).
  - now rewrite (encodeURIComponent_malformed query W).
Qed.

Lemma url_discover (key query : jsstring) (page : Z) (sort : jsstring) :
  trim query = [] ->
  exists u,
    Part000.url key query page sort = Ok u
    /\ startsWith discover_endpoint u = true
    /\ startsWith search_endpoint u = false
    /\ includes (page_parameter page) u = true
    /\ (truthy sort = true -> includes (lit "&sort_by=" ++ sort) u = true)
    /\ (truthy sort = false -> MovieJs.base key query page = Ok u).
Proof.
  intros Hq. unfold Part000.url. rewrite Hq. simpl Nat.ltb. cbv iota zeta.
  destruct (truthy sort) eqn:Es.
  - eexists. split; [reflexivity|].
    replace ((lit "https://api.themoviedb.org/3/discover/movie?api_key=" ++ key
              ++ lit "&page=" ++ Number_toString page ++ lit "&include_adult=false")
             ++ lit "&sort_by=" ++ sort)
      with (lit "https://api.themoviedb.org/3/discover/movie?api_key=" ++ key
            ++ lit "&page=" ++ Number_toString page ++ lit "&include_adult=false"
            ++ (lit "&sort_by=" ++ sort))
      by (now rewrite <- !app_assoc).
    destruct (discover_url_shape key (Number_toString page) (lit "&sort_by=" ++ sort))
      as [H1 [H2 H3]].
    repeat split; auto; [|discriminate]. intros _.
    replace (lit "https://api.themoviedb.org/3/discover/movie?api_key=" ++ key
             ++ lit "&page=" ++ Number_toString page ++ lit "&include_adult=false"
             ++ (lit "&sort_by=" ++ sort))
      with ((lit "https://api.themoviedb.org/3/discover/movie?api_key=" ++ key
             ++ lit "&page=" ++ Number_toString page ++ lit "&include_adult=false")
            ++ (lit "&sort_by=" ++ sort) ++ [])
      by (now rewrite app_nil_r, <- !app_assoc).
    apply includes_app.
  - eexists. split; [reflexivity|].
    destruct (discover_url_shape key (Number_toString page) []) as [H1 [H2 H3]].
    repeat split; auto; [discriminate|]. intros _.
    unfold MovieJs.base. now rewrite Hq.
Qed.

Lemma effect_request_MovieJs API_KEY (key : jsstring) (s : MovieJs.State) :
  API_KEY = Some key -> truthy key = true ->
  match MovieJs.base key (MovieJs.query s) (MovieJs.page s) with
  | Ok u =>
    MovieJs.inflight (MovieJs.effect API_KEY s)
    = {| rid := MovieJs.next_rid s; cancelled := false; stage := AwaitFetch;
         resource := u |} :: MovieJs.inflight s
  | Throw m =>
    MovieJs.inflight (MovieJs.effect API_KEY s) = MovieJs.inflight s
    /\ MovieJs.loading (MovieJs.effect API_KEY s) = false
    /\ MovieJs.error (MovieJs.effect API_KEY s) = or_else m fallback_message
  end.
Proof.
  intros -> Hk. destruct key as [|c key]; [discriminate|].
  unfold MovieJs.effect. cbn -[MovieJs.base].
  destruct (MovieJs.base (c :: key) (MovieJs.query s) (MovieJs.page s));
    simpl; auto.
Qed.

Lemma effect_request_Part000 API_KEY (key : jsstring) (s : Part000.State) :
  API_KEY = Some key -> truthy key = true ->
  match Part000.url key (Part000.query s) (Part000.page s) (Part000.sort s) with
  | Ok u =>
    Part000.inflight (Part000.effect API_KEY s)
    = {| rid := Part000.next_rid s; cancelled := false; stage := AwaitFetch;
         resource := u |} :: Part000.inflight s
  | Throw m =>
    Part000.inflight (Part000.effect API_KEY s) = Part000.inflight s
    /\ Part000.loading (Part000.effect API_KEY s) = false
    /\ Part000.error (Part000.effect API_KEY s) = or_else m fallback_message
  end.
Proof.
  intros -> Hk. destruct key as [|c key]; [discriminate|].
  unfold Part000.effect. cbn -[Part000.url].
  destruct (Part000.url (c :: key) (Part000.query s) (Part000.page s)
              (Part000.sort s)); simpl; auto.
Qed.

(** A submitted query with a lone surrogate is not empty after trimming, and
    yet no request is issued for it: [encodeURIComponent] throws, the only
    request in flight is the superseded one of the first run (for the
    discovery endpoint), nothing is loading and the message of the exception
    is shown.  In the second version, where the first page had loaded,
    nothing is in flight at all. *)
Lemma no_request_for_lone_surrogate :
  (trim (MovieJs.query malformed_query_MovieJs) <> []
   /\ MovieJs.base (lit "k") (MovieJs.query malformed_query_MovieJs)
        (MovieJs.page malformed_query_MovieJs) = Throw URIError_message
   /\ MovieJs.inflight malformed_query_MovieJs = [first_request]
   /\ MovieJs.loading malformed_query_MovieJs = false
   /\ MovieJs.error malformed_query_MovieJs = lit "URI malformed"
   /\ ~ (exists r, In r (MovieJs.inflight malformed_query_MovieJs)
                   /\ startsWith search_endpoint (resource r) = true))
  /\ (trim (Part000.query malformed_query_Part000) <> []
      /\ Part000.url (lit "k") (Part000.query malformed_query_Part000)
           (Part000.page malformed_query_Part000)
           (Part000.sort malformed_query_Part000) = Throw URIError_message
      /\ Part000.inflight malformed_query_Part000 = []
      /\ Part000.loading malformed_query_Part000 = false
      /\ Part000.error malformed_query_Part000 = lit "URI malformed"
      /\ Part000.movies malformed_query_Part000 = JArr [film_A; film_B]).
Proof.
  split.
  - split; [vm_compute; discriminate|].
    split; [reflexivity|]. split; [reflexivity|].
    split; [reflexivity|]. split; [reflexivity|].
    intros [r [Hr Hs]]. vm_compute in Hr. destruct Hr as [<-|[]].
    vm_compute in Hs. discriminate.
  - split; [vm_compute; discriminate|]. repeat split.
Qed.

(** C3 (as amended) -- In both versions, with a configured API key, the
    effect builds one URL from the query and the page of the state.  When
    the query is well formed (no lone surrogate) the effect launches one
    request, for that URL: when the query is not empty after trimming, the
    URL is that of the search endpoint and not of the discovery endpoint,
    and carries the query escaped by [encodeURIComponent] (only unreserved
    characters and percent escapes) and the page number; when the query
    trims to the empty string, the URL is that of the discovery endpoint and
    not of the search endpoint, and carries the page number (and, in the
    second version, the sort key when one is selected).  When the query is
    not empty after trimming and holds a lone surrogate,
    [encodeURIComponent] throws: no request is launched, the loading flag is
    cleared and the error message is that of the exception. *)
Theorem request_endpoint :
  (forall key query page,
     (trim query <> [] ->
      (isWellFormed query = true ->
       exists u q,
         MovieJs.base key query page = Ok u /\ encodeURIComponent query = Ok q
         /\ forallb uri_component_char q = true
         /\ startsWith search_endpoint u = true
         /\ startsWith discover_endpoint u = false
         /\ includes (query_parameter q) u = true
         /\ includes (page_parameter page) u = true)
      /\ (isWellFormed query = false ->
          MovieJs.base key query page = Throw URIError_message))
     /\ (trim query = [] ->
         exists u,
           MovieJs.base key query page = Ok u
           /\ startsWith discover_endpoint u = true
           /\ startsWith search_endpoint u = false
           /\ includes (page_parameter page) u = true))
  /\ (forall API_KEY key s,
        API_KEY = Some key -> truthy key = true ->
        match MovieJs.base key (MovieJs.query s) (MovieJs.page s) with
        | Ok u =>
          MovieJs.inflight (MovieJs.effect API_KEY s)
          = {| rid := MovieJs.next_rid s; cancelled := false; stage := AwaitFetch;
               resource := u |} :: MovieJs.inflight s
        | Throw m =>
          MovieJs.inflight (MovieJs.effect API_KEY s) = MovieJs.inflight s
          /\ MovieJs.loading (MovieJs.effect API_KEY s) = false
          /\ MovieJs.error (MovieJs.effect API_KEY s) = or_else m fallback_message
        end)
  /\ (forall key query page sort,
        (trim query <> [] ->
         (isWellFormed query = true ->
          exists u q,
            Part000.url key query page sort = Ok u
            /\ encodeURIComponent query = Ok q
            /\ forallb uri_component_char q = true
            /\ startsWith search_endpoint u = true
            /\ startsWith discover_endpoint u = false
            /\ includes (query_parameter q) u = true
            /\ includes (page_parameter page) u = true)
         /\ (isWellFormed query = false ->
             Part000.url key query page sort = Throw URIError_message))
        /\ (trim query = [] ->
            exists u,
              Part000.url key query page sort = Ok u
              /\ startsWith discover_endpoint u = true
              /\ startsWith search_endpoint u = false
              /\ includes (page_parameter page) u = true
              /\ (truthy sort = true -> includes (lit "&sort_by=" ++ sort) u = true)
              /\ (truthy sort = false -> MovieJs.base key query page = Ok u)))
  /\ (forall API_KEY key s,
        API_KEY = Some key -> truthy key = true ->
        match Part000.url key (Part000.query s) (Part000.page s) (Part000.sort s) with
        | Ok u =>
          Part000.inflight (Part000.effect API_KEY s)
          = {| rid := Part000.next_rid s; cancelled := false; stage := AwaitFetch;
               resource := u |} :: Part000.inflight s
        | Throw m =>
          Part000.inflight (Part000.effect API_KEY s) = Part000.inflight s
          /\ Part000.loading (Part000.effect API_KEY s) = false
          /\ Part000.error (Part000.effect API_KEY s) = or_else m fallback_message
        end).
Proof.
  split; [|split; [|split]].
  - intros key query page. split.
    + apply base_search.
    + apply base_discover.
  - apply effect_request_MovieJs.
  - intros key query page sort. split.
    + apply url_search.
    + apply url_discover.
  - apply effect_request_Part000.
Qed.

Example search_url_example :
  MovieJs.base (lit "k") (lit "blade runner") 2
  = Ok (lit "https://api.themoviedb.org/3/search/movie?api_key=k&query=blade%20runner&page=2&include_adult=false").
Proof. reflexivity. Qed.

Example discover_url_example :
  Part000.url (lit "k") (lit "  ") 3 (lit "release_date.asc")
  = Ok (lit "https://api.themoviedb.org/3/discover/movie?api_key=k&page=3&include_adult=false&sort_by=release_date.asc").
Proof. reflexivity. Qed.

Example lone_surrogate_example :
  MovieJs.base (lit "k") lone_surrogate 1 = Throw URIError_message.
Proof. reflexivity. Qed.

Lemma request_endpoint_witness :
  (exists u q,
     MovieJs.base (lit "k") (lit "blade runner") 2 = Ok u
     /\ encodeURIComponent (lit "blade runner") = Ok q
     /\ forallb uri_component_char q = true
     /\ startsWith search_endpoint u = true
     /\ startsWith discover_endpoint u = false
     /\ includes (query_parameter q) u = true
     /\ includes (page_parameter 2) u = true)
  /\ MovieJs.base (lit "k") lone_surrogate 1 = Throw URIError_message
  /\ (exists u,
        Part000.url (lit "k") (lit "  ") 3 (lit "release_date.asc") = Ok u
        /\ startsWith discover_endpoint u = true
        /\ startsWith search_endpoint u = false
        /\ includes (page_parameter 3) u = true
        /\ (truthy (lit "release_date.asc") = true ->
            includes (lit "&sort_by=" ++ lit "release_date.asc") u = true)
        /\ (truthy (lit "release_date.asc") = false ->
            MovieJs.base (lit "k") (lit "  ") 3 = Ok u))
  /\ (Part000.inflight
        (Part000.effect sample_key (Part000.setQuery lone_surrogate loaded_Part000))
      = Part000.inflight (Part000.setQuery lone_surrogate loaded_Part000)
      /\ Part000.loading
           (Part000.effect sample_key (Part000.setQuery lone_surrogate loaded_Part000))
         = false
      /\ Part000.error
           (Part000.effect sample_key (Part000.setQuery lone_surrogate loaded_Part000))
         = or_else URIError_message fallback_message).
Proof.
  destruct request_endpoint as [A1 [A2 [B1 B2]]].
  split; [|split; [|split]].
  - refine (proj1 (proj1 (A1 (lit "k") (lit "blade runner") 2) _) eq_refl).
    vm_compute. discriminate.
  - refine (proj2 (proj1 (A1 (lit "k") lone_surrogate 1) _) eq_refl).
    vm_compute. discriminate.
  - exact (proj2 (B1 (lit "k") (lit "  ") 3 (lit "release_date.asc")) eq_refl).
  - exact (B2 sample_key (lit "k") (Part000.setQuery lone_surrogate loaded_Part000)
             eq_refl eq_refl).
Defined.

(** ** A change of the sort key *)

(** In the second version the sort key is a dependency of the effect: with
    the first page stored and nothing in flight, selecting a sort key raises
    the loading flag and fetches the discovery listing again. *)
Lemma sort_change_refetches_Part000 :
  Part000.movies loaded_Part000 = JArr [film_A; film_B]
  /\ Part000.loading loaded_Part000 = false
  /\ Part000.inflight loaded_Part000 = []
  /\ Part000.loading
       (Part000.dispatch sample_key loaded_Part000
          (Part000.SelectSort (lit "vote_average.desc"))) = true
  /\ Part000.inflight
       (Part000.dispatch sample_key loaded_Part000
          (Part000.SelectSort (lit "vote_average.desc")))
     = [ {| rid := 1; cancelled := false; stage := AwaitFetch;
            resource :=
              lit "https://api.themoviedb.org/3/discover/movie?api_key=k&page=1&include_adult=false&sort_by=vote_average.desc" |} ]
  /\ ~ (Part000.loading
          (Part000.dispatch sample_key loaded_Part000
             (Part000.SelectSort (lit "vote_average.desc")))
        = Part000.loading loaded_Part000
        /\ Part000.inflight
             (Part000.dispatch sample_key loaded_Part000
                (Part000.SelectSort (lit "vote_average.desc")))
           = Part000.inflight loaded_Part000).
Proof.
  vm_compute. repeat split. intros [H _]. discriminate.
Qed.

Lemma sort_change_MovieJs API_KEY Date_parse (s : MovieJs.State) (v : jsstring) :
  let s' := MovieJs.dispatch API_KEY s (MovieJs.SelectSort v) in
  MovieJs.cells s'
  = (MovieJs.movies s, MovieJs.page s, MovieJs.searchInput s, MovieJs.query s, v,
     MovieJs.loading s, MovieJs.error s)
  /\ MovieJs.inflight s' = MovieJs.inflight s
  /\ MovieJs.next_rid s' = MovieJs.next_rid s
  /\ MovieJs.grid Date_parse s'
     = match MovieJs.movies s with
       | JArr l => Some (map MovieJs.card (MovieJs.sortedMovies Date_parse l v))
       | _ => None
       end.
Proof.
  unfold MovieJs.dispatch, MovieJs.rerender. simpl.
  change (MovieJs.deps (MovieJs.setSort v s)) with (MovieJs.deps s).
  rewrite MovieJsFacts.deps_eqb_refl. simpl. repeat split.
Qed.

Lemma effect_totalPages API_KEY (s : Part000.State) :
  Part000.totalPages (Part000.effect API_KEY s) = Part000.totalPages s.
Proof.
  unfold Part000.effect. destruct API_KEY as [[|c rest]|]; simpl; auto.
  destruct (Part000.url _ _ _ _); reflexivity.
Qed.

Lemma rerender_totalPages API_KEY (s t : Part000.State) :
  Part000.totalPages (Part000.rerender API_KEY s t) = Part000.totalPages t.
Proof.
  unfold Part000.rerender. destruct (Part000.deps_eqb _ _); [reflexivity|].
  rewrite effect_totalPages.
  pose proof (Part000Facts.run_cleanup_cells_v2 t) as C. unfold Part000.cells in C.
  now injection C.
Qed.

Lemma url_throws (key query : jsstring) (page : Z) (sort m : jsstring) :
  Part000.url key query page sort = Throw m ->
  m = URIError_message /\ isWellFormed query = false.
Proof.
  unfold Part000.url.
  destruct (0 <? List.length (trim query))%nat.
  - destruct (encodeURIComponent query) as [q|m'] eqn:E; simpl; [discriminate|].
    intros H. assert (Hm : m' = m) by congruence. subst m'.
    split; [exact (encodeURIComponent_throws query m E)|].
    destruct (isWellFormed query) eqn:W; [|reflexivity].
    destruct (proj1 (encodeURIComponent_total query) W) as [e He]. congruence.
  - cbv zeta. destruct (truthy sort); discriminate.
Qed.

Lemma sort_change_Part000 API_KEY (s : Part000.State) (v : jsstring) :
  Part000.reachable API_KEY s ->
  let s' := Part000.dispatch API_KEY s (Part000.SelectSort v) in
  (Part000.movies s' = Part000.movies s /\ Part000.page s' = Part000.page s
   /\ Part000.totalPages s' = Part000.totalPages s
   /\ Part000.searchInput s' = Part000.searchInput s
   /\ Part000.query s' = Part000.query s /\ Part000.sort s' = v)
  /\ (v = Part000.sort s ->
      Part000.loading s' = Part000.loading s /\ Part000.error s' = Part000.error s
      /\ Part000.inflight s' = Part000.inflight s
      /\ Part000.next_rid s' = Part000.next_rid s)
  /\ (v <> Part000.sort s ->
      (forall key, API_KEY = Some key -> truthy key = true ->
       Part000.next_rid s' = S (Part000.next_rid s)
       /\ (forall r, In r (Part000.inflight s') ->
             rid r <> Part000.next_rid s -> cancelled r = true)
       /\ match Part000.url key (Part000.query s) (Part000.page s) v with
          | Ok u =>
            Part000.loading s' = true /\ Part000.error s' = []
            /\ In {| rid := Part000.next_rid s; cancelled := false;
                     stage := AwaitFetch; resource := u |}
                  (Part000.inflight s')
            /\ (trim (Part000.query s) = [] -> truthy v = true ->
                includes (lit "&sort_by=" ++ v) u = true)
          | Throw m =>
            isWellFormed (Part000.query s) = false
            /\ Part000.loading s' = false
            /\ Part000.error s' = URIError_message
            /\ (forall r, In r (Part000.inflight s') -> cancelled r = true)
          end)
      /\ (truthy_opt API_KEY = false ->
          Part000.loading s' = Part000.loading s
          /\ Part000.inflight s' = Part000.inflight s
          /\ Part000.next_rid s' = Part000.next_rid s
          /\ Part000.error s' = missing_key_message)).
Proof.
  intros Hs s'.
  pose proof (Part000Facts.reachable_invariant_v2 API_KEY s Hs) as I.
  split; [|split].
  - subst s'. unfold Part000.dispatch. rewrite rerender_totalPages.
    destruct (Part000Facts.rerender_keeps_v2 API_KEY s
                (Part000.handle (Part000.SelectSort v) s)) as [-> [-> [-> [-> ->]]]].
    simpl. repeat split.
  - intros ->. subst s'. unfold Part000.dispatch, Part000.rerender. simpl.
    change (Part000.deps (Part000.setSort (Part000.sort s) s)) with (Part000.deps s).
    rewrite Part000Facts.deps_eqb_refl_v2. simpl. auto.
  - intros Hne.
    assert (Hd : Part000.deps_eqb (Part000.deps s) (Part000.deps (Part000.setSort v s))
                 = false).
    { unfold Part000.deps_eqb, Part000.deps. simpl.
      destruct (str_eqb (Part000.sort s) v) eqn:E; [|apply andb_false_r].
      apply str_eqb_eq in E. congruence. }
    split.
    + intros key HK Hkey. subst s'.
      unfold Part000.dispatch, Part000.rerender. simpl. rewrite Hd.
      assert (T : tracked (Part000.inflight (Part000.setSort v s))
                    (Part000.cleanup (Part000.setSort v s))
                    (Part000.next_rid (Part000.setSort v s)))
        by exact (Part000.inv_tracked _ _ I).
      pose proof (Part000Facts.run_cleanup_cancelled_v2 _ T) as Hc.
      pose proof (Part000Facts.run_cleanup_next_v2 (Part000.setSort v s)) as Hn.
      pose proof (Part000Facts.run_cleanup_cells_v2 (Part000.setSort v s)) as Hcells.
      unfold Part000.cells in Hcells. injection Hcells as Em Ep Etp Ei Eq Es El Ee.
      simpl in Hn, Ep, Eq, Es.
      unfold Part000.effect. rewrite HK.
      destruct key as [|c key]; [discriminate|].
      cbn -[Part000.url Part000.run_cleanup]. rewrite Hn, Eq, Ep, Es.
      destruct (Part000.url (c :: key) (Part000.query s) (Part000.page s) v)
        as [u|m] eqn:Eu.
      * simpl. split; [reflexivity|]. split.
        { intros r [<-|Hr] Hrid; [now elim Hrid|]. now apply Hc. }
        split; [reflexivity|]. split; [reflexivity|]. split; [now left|].
        intros Hq Hv.
        destruct (url_discover (c :: key) (Part000.query s) (Part000.page s) v Hq)
          as [u' [E' [_ [_ [_ [Hsort _]]]]]].
        assert (Hu : u' = u) by congruence. subst u'. exact (Hsort Hv).
      * destruct (url_throws _ _ _ _ _ Eu) as [-> W].
        simpl. split; [reflexivity|]. split.
        { intros r Hr _. now apply Hc. }
        split; [exact W|]. split; [reflexivity|]. split; [reflexivity|].
        exact Hc.
    + intros HK. subst s'.
      unfold Part000.dispatch, Part000.rerender. simpl. rewrite Hd.
      pose proof (Part000.inv_key _ _ I HK) as Hnone.
      unfold Part000.run_cleanup.
      change (Part000.cleanup (Part000.setSort v s)) with (Part000.cleanup s).
      rewrite Hnone. unfold Part000.effect.
      destruct API_KEY as [[|c key]|]; [|discriminate HK|]; simpl; auto.
Qed.

(** C2 (as amended) -- In [Movie.js], whose effect depends on the page and
    the query only, selecting a sort key changes the [sort] cell and nothing
    else: no request is launched, the stored movies, the loading flag and the
    error message are unchanged, and the grid is the stored movies sorted
    under the new key.  In the second version the sort key is a dependency of
    the effect: selecting the key already selected changes nothing, and
    selecting another one keeps the stored movies, the page, the page count,
    the input text and the query and runs the effect again.  With a configured API key that run cancels the
    requests in flight; when the URL can be built, the loading flag is
    raised, the error message cleared and a request for the URL with the new
    key launched (a discovery URL carries a non-empty key as [sort_by]);
    when the URL cannot be built, because the query holds a lone surrogate,
    no request is launched, nothing is loading and the error message is that
    of the exception.  Without a configured API key no request is launched
    either: the requests in flight and the loading flag are unchanged and the
    error message is the one that asks for the key. *)
Theorem sort_change_fetch :
  (forall API_KEY Date_parse s v,
     let s' := MovieJs.dispatch API_KEY s (MovieJs.SelectSort v) in
     MovieJs.cells s'
     = (MovieJs.movies s, MovieJs.page s, MovieJs.searchInput s, MovieJs.query s,
        v, MovieJs.loading s, MovieJs.error s)
     /\ MovieJs.inflight s' = MovieJs.inflight s
     /\ MovieJs.next_rid s' = MovieJs.next_rid s
     /\ MovieJs.grid Date_parse s'
        = match MovieJs.movies s with
          | JArr l => Some (map MovieJs.card (MovieJs.sortedMovies Date_parse l v))
          | _ => None
          end)
  /\ (forall API_KEY s v,
        Part000.reachable API_KEY s ->
        let s' := Part000.dispatch API_KEY s (Part000.SelectSort v) in
        (Part000.movies s' = Part000.movies s /\ Part000.page s' = Part000.page s
         /\ Part000.totalPages s' = Part000.totalPages s
         /\ Part000.searchInput s' = Part000.searchInput s
         /\ Part000.query s' = Part000.query s /\ Part000.sort s' = v)
        /\ (v = Part000.sort s ->
            Part000.loading s' = Part000.loading s
            /\ Part000.error s' = Part000.error s
            /\ Part000.inflight s' = Part000.inflight s
            /\ Part000.next_rid s' = Part000.next_rid s)
        /\ (v <> Part000.sort s ->
            (forall key, API_KEY = Some key -> truthy key = true ->
             Part000.next_rid s' = S (Part000.next_rid s)
             /\ (forall r, In r (Part000.inflight s') ->
                   rid r <> Part000.next_rid s -> cancelled r = true)
             /\ match Part000.url key (Part000.query s) (Part000.page s) v with
                | Ok u =>
                  Part000.loading s' = true /\ Part000.error s' = []
                  /\ In {| rid := Part000.next_rid s; cancelled := false;
                           stage := AwaitFetch; resource := u |}
                        (Part000.inflight s')
                  /\ (trim (Part000.query s) = [] -> truthy v = true ->
                      includes (lit "&sort_by=" ++ v) u = true)
                | Throw m =>
                  isWellFormed (Part000.query s) = false
                  /\ Part000.loading s' = false
                  /\ Part000.error s' = URIError_message
                  /\ (forall r, In r (Part000.inflight s') -> cancelled r = true)
                end)
            /\ (truthy_opt API_KEY = false ->
                Part000.loading s' = Part000.loading s
                /\ Part000.inflight s' = Part000.inflight s
                /\ Part000.next_rid s' = Part000.next_rid s
                /\ Part000.error s' = missing_key_message))).
Proof.
  split.
  - apply sort_change_MovieJs.
  - apply sort_change_Part000.
Qed.

Lemma sort_change_fetch_witness :
  Part000.movies
    (Part000.dispatch sample_key loaded_Part000
       (Part000.SelectSort (lit "vote_average.desc")))
  = Part000.movies loaded_Part000
  /\ Part000.loading
       (Part000.dispatch sample_key loaded_Part000
          (Part000.SelectSort (lit "vote_average.desc"))) = true
  /\ Part000.loading
       (Part000.dispatch sample_key loaded_Part000 (Part000.SelectSort []))
     = Part000.loading loaded_Part000
  /\ (Part000.loading
        (Part000.dispatch sample_key malformed_query_Part000
           (Part000.SelectSort (lit "vote_average.desc"))) = false
      /\ Part000.error
           (Part000.dispatch sample_key malformed_query_Part000
              (Part000.SelectSort (lit "vote_average.desc"))) = URIError_message)
  /\ Part000.error
       (Part000.dispatch None (Part000.mounted None)
          (Part000.SelectSort (lit "vote_average.desc"))) = missing_key_message.
Proof.
  pose proof (proj2 sort_change_fetch sample_key loaded_Part000
                (lit "vote_average.desc") (Part000Facts.run_reachable_v2 _ _)) as H.
  pose proof (proj2 sort_change_fetch sample_key loaded_Part000
                [] (Part000Facts.run_reachable_v2 _ _)) as H0.
  pose proof (proj2 sort_change_fetch sample_key malformed_query_Part000
                (lit "vote_average.desc") (Part000Facts.run_reachable_v2 _ _)) as H1.
  pose proof (proj2 sort_change_fetch None (Part000.mounted None)
                (lit "vote_average.desc") (Part000.reachable_mounted None)) as H2.
  split; [|split; [|split; [|split]]].
  - exact (proj1 (proj1 H)).
  - assert (Hne : lit "vote_average.desc" <> Part000.sort loaded_Part000)
      by (vm_compute; discriminate).
    exact (proj1 (proj2 (proj2 (proj1 (proj2 (proj2 H) Hne) (lit "k") eq_refl
                                  eq_refl)))).
  - exact (proj1 (proj1 (proj2 H0) eq_refl)).
  - assert (Hne : lit "vote_average.desc" <> Part000.sort malformed_query_Part000)
      by (vm_compute; discriminate).
    pose proof (proj2 (proj2 (proj1 (proj2 (proj2 H1) Hne) (lit "k") eq_refl
                                eq_refl))) as HT.
    split; [exact (proj1 (proj2 HT))|exact (proj1 (proj2 (proj2 HT)))].
  - assert (Hne : lit "vote_average.desc" <> Part000.sort (Part000.mounted None))
      by (vm_compute; discriminate).
    exact (proj2 (proj2 (proj2 (proj2 (proj2 (proj2 H2) Hne) eq_refl)))).
Defined.

(** ** The order of the grid *)

Section DateTies.
Variable Date_parse : jsstring -> option Z.

Lemma same_date_asc (r x y : MovieRecord) :
  same_date Date_parse r x = true -> same_date Date_parse r y = true ->
  release_asc Date_parse x y <> Gt.
Proof.
  unfold same_date, release_asc. rewrite !Z.eqb_eq, sign_Z_sub_gt. lia.
Qed.

Lemma same_date_desc (r x y : MovieRecord) :
  same_date Date_parse r x = true -> same_date Date_parse r y = true ->
  release_desc Date_parse x y <> Gt.
Proof.
  unfold same_date, release_desc. rewrite !Z.eqb_eq, sign_Z_sub_gt. lia.
Qed.

End DateTies.

Lemma same_rating_asc (r x y : MovieRecord) :
  same_rating r x = true -> same_rating r y = true -> rating_asc x y <> Gt.
Proof.
  unfold same_rating, rating_asc. rewrite !Qeq_bool_iff, sign_Q_sub_gt.
  intros H1 H2 H3. lra.
Qed.

Lemma same_rating_desc (r x y : MovieRecord) :
  same_rating r x = true -> same_rating r y = true -> rating_desc x y <> Gt.
Proof.
  unfold same_rating, rating_desc. rewrite !Qeq_bool_iff, sign_Q_sub_gt.
  intros H1 H2 H3. lra.
Qed.

(** The four orders are determined by the contract of the sort. *)
Lemma release_asc_determined Date_parse (l out : list MovieRecord) :
  Permutation out l ->
  StronglySorted (fun a b => dateVal Date_parse a <= dateVal Date_parse b) out ->
  (forall r, filter (same_date Date_parse r) out = filter (same_date Date_parse r) l) ->
  out = Array_sort (release_asc Date_parse) l.
Proof.
  apply (Array_sort_determined (release_asc Date_parse)
           (fun a b => dateVal Date_parse a <= dateVal Date_parse b)
           (same_date Date_parse)).
  - intros x. lia.
  - intros x y z. lia.
  - intros x y H. apply sign_Z_sub_gt in H. lia.
  - intros x y H. unfold release_asc in H. rewrite sign_Z_sub_gt in H. lia.
  - intros x y H1 H2. apply Z.eqb_eq. lia.
  - apply same_date_asc.
Qed.

Lemma release_desc_determined Date_parse (l out : list MovieRecord) :
  Permutation out l ->
  StronglySorted (fun a b => dateVal Date_parse b <= dateVal Date_parse a) out ->
  (forall r, filter (same_date Date_parse r) out = filter (same_date Date_parse r) l) ->
  out = Array_sort (release_desc Date_parse) l.
Proof.
  apply (Array_sort_determined (release_desc Date_parse)
           (fun a b => dateVal Date_parse b <= dateVal Date_parse a)
           (same_date Date_parse)).
  - intros x. lia.
  - intros x y z. lia.
  - intros x y H. apply sign_Z_sub_gt in H. lia.
  - intros x y H. unfold release_desc in H. rewrite sign_Z_sub_gt in H. lia.
  - intros x y H1 H2. apply Z.eqb_eq. lia.
  - apply same_date_desc.
Qed.

Lemma rating_asc_determined (l out : list MovieRecord) :
  Permutation out l ->
  StronglySorted (fun a b => (ratingVal a <= ratingVal b)%Q) out ->
  (forall r, filter (same_rating r) out = filter (same_rating r) l) ->
  out = Array_sort rating_asc l.
Proof.
  apply (Array_sort_determined rating_asc
           (fun a b => (ratingVal a <= ratingVal b)%Q) same_rating).
  - intros x. apply Qle_refl.
  - intros x y z. apply Qle_trans.
  - intros x y H. apply sign_Q_sub_gt in H. lra.
  - intros x y H. unfold rating_asc in H. rewrite sign_Q_sub_gt in H. lra.
  - intros x y H1 H2. apply Qeq_bool_iff. lra.
  - apply same_rating_asc.
Qed.

Lemma rating_desc_determined (l out : list MovieRecord) :
  Permutation out l ->
  StronglySorted (fun a b => (ratingVal b <= ratingVal a)%Q) out ->
  (forall r, filter (same_rating r) out = filter (same_rating r) l) ->
  out = Array_sort rating_desc l.
Proof.
  apply (Array_sort_determined rating_desc
           (fun a b => (ratingVal b <= ratingVal a)%Q) same_rating).
  - intros x. apply Qle_refl.
  - intros x y z H1 H2. eapply Qle_trans; eauto.
  - intros x y H. apply sign_Q_sub_gt in H. lra.
  - intros x y H. unfold rating_desc in H. rewrite sign_Q_sub_gt in H. lra.
  - intros x y H1 H2. apply Qeq_bool_iff. lra.
  - apply same_rating_desc.
Qed.

Lemma filter_head {A} (P : A -> bool) (l : list A) (a : A) (rest : list A) :
  filter P l = a :: rest ->
  exists l1 l2, l = l1 ++ a :: l2 /\ filter P l2 = rest.
Proof.
  induction l as [|x l IH]; simpl; [discriminate|].
  destruct (P x) eqn:E.
  - intros [= -> <-]. exists [], l. now split.
  - intros H. destruct (IH H) as [l1 [l2 [-> H2]]].
    exists (x :: l1), l2. now split.
Qed.

Lemma filter_middle {A} (P : A -> bool) (pre : list A) :
  forall (l : list A) (a : A) (rest : list A),
  filter P l = pre ++ a :: rest ->
  exists l1 l2, l = l1 ++ a :: l2 /\ filter P l2 = rest.
Proof.
  induction pre as [|p pre IH]; intros l a rest H.
  - now apply filter_head.
  - simpl in H. destruct (filter_head P l p _ H) as [l1 [l2 [-> H2]]].
    destruct (IH l2 a rest H2) as [k1 [k2 [-> H3]]].
    exists (l1 ++ p :: k1), k2. split; [|exact H3].
    now rewrite <- app_assoc.
Qed.

(** A class whose order is kept keeps every two of its members in order. *)
Lemma filter_in_order {A} (P : A -> bool) (l out : list A) (a b : A) :
  filter P out = filter P l -> P a = true -> P b = true ->
  in_order a b l -> in_order a b out.
Proof.
  intros H Pa Pb [l1 [l2 [l3 ->]]].
  rewrite filter_app in H. simpl in H. rewrite Pa in H.
  rewrite filter_app in H. simpl in H. rewrite Pb in H.
  destruct (filter_middle P _ out a _ H) as [o1 [o' [-> H2]]].
  destruct (filter_middle P _ o' b _ H2) as [o2 [o3 [-> _]]].
  now exists o1, o2, o3.
Qed.

Lemma same_key_MovieJs_refl Date_parse sort (a : MovieRecord) :
  same_key_MovieJs Date_parse sort a a = true.
Proof.
  unfold same_key_MovieJs, same_date, same_rating.
  destruct (_ || _); [apply Z.eqb_refl|].
  destruct (_ || _); [|reflexivity]. apply Qeq_bool_iff. reflexivity.
Qed.

Lemma same_key_Part000_refl Date_parse sort (a : MovieRecord) :
  same_key_Part000 Date_parse sort a a = true.
Proof.
  unfold same_key_Part000, same_date, same_rating.
  destruct (_ || _); [apply Z.eqb_refl|].
  destruct (_ || _); [|reflexivity]. apply Qeq_bool_iff. reflexivity.
Qed.

Lemma sortedMovies_stable_MovieJs Date_parse (sort : jsstring)
    (movies : list MovieRecord) (r : MovieRecord) :
  filter (same_key_MovieJs Date_parse sort r) (MovieJs.sortedMovies Date_parse movies sort)
  = filter (same_key_MovieJs Date_parse sort r) movies.
Proof.
  unfold MovieJs.sortedMovies, same_key_MovieJs.
  destruct (str_eqb sort (lit "release_asc")) eqn:E1.
  { simpl. apply Array_sort_stable. apply same_date_asc. }
  destruct (str_eqb sort (lit "release_desc")) eqn:E2.
  { simpl. apply Array_sort_stable. apply same_date_desc. }
  destruct (str_eqb sort (lit "rating_asc")) eqn:E3.
  { simpl. apply Array_sort_stable. apply same_rating_asc. }
  destruct (str_eqb sort (lit "rating_desc")) eqn:E4.
  { simpl. apply Array_sort_stable. apply same_rating_desc. }
  reflexivity.
Qed.

Lemma sortedMovies_stable_Part000 Date_parse (sort query : jsstring)
    (movies : list MovieRecord) (r : MovieRecord) :
  filter (same_key_Part000 Date_parse sort r)
    (Part000.sortedMovies Date_parse movies sort query)
  = filter (same_key_Part000 Date_parse sort r) movies.
Proof.
  unfold Part000.sortedMovies, same_key_Part000.
  destruct (negb (truthy query) || negb (truthy sort)); [reflexivity|].
  destruct (str_eqb sort (lit "release_date.asc")) eqn:E1.
  { simpl. apply Array_sort_stable. apply same_date_asc. }
  destruct (str_eqb sort (lit "release_date.desc")) eqn:E2.
  { simpl. apply Array_sort_stable. apply same_date_desc. }
  destruct (str_eqb sort (lit "vote_average.asc")) eqn:E3.
  { simpl. apply Array_sort_stable. apply same_rating_asc. }
  destruct (str_eqb sort (lit "vote_average.desc")) eqn:E4.
  { simpl. apply Array_sort_stable. apply same_rating_desc. }
  reflexivity.
Qed.

Lemma sortedMovies_perm_MovieJs Date_parse (sort : jsstring) (movies : list MovieRecord) :
  Permutation (MovieJs.sortedMovies Date_parse movies sort) movies.
Proof.
  unfold MovieJs.sortedMovies.
  repeat (destruct (str_eqb _ _); [apply Array_sort_perm|]).
  apply Permutation_refl.
Qed.

Lemma sortedMovies_perm_Part000 Date_parse (sort query : jsstring)
    (movies : list MovieRecord) :
  Permutation (Part000.sortedMovies Date_parse movies sort query) movies.
Proof.
  unfold Part000.sortedMovies.
  destruct (_ || _); [apply Permutation_refl|].
  repeat (destruct (str_eqb _ _); [apply Array_sort_perm|]).
  apply Permutation_refl.
Qed.

(** C4 -- In both versions, under every sort key, [sortedMovies] is a
    permutation of the stored movies in which the records that have the same
    comparison key as any given record (the same [dateVal] under the two date
    keys, the same [ratingVal] under the two rating keys) stand in the order
    they have in the stored movies; so when [a] stands before [b] in the
    stored movies and the two have the same comparison key, [a] stands before
    [b] in the grid. *)
Theorem sort_is_stable :
  (forall Date_parse sort movies,
     Permutation (MovieJs.sortedMovies Date_parse movies sort) movies
     /\ (forall r,
           filter (same_key_MovieJs Date_parse sort r)
             (MovieJs.sortedMovies Date_parse movies sort)
           = filter (same_key_MovieJs Date_parse sort r) movies)
     /\ (forall a b,
           same_key_MovieJs Date_parse sort a b = true ->
           in_order a b movies ->
           in_order a b (MovieJs.sortedMovies Date_parse movies sort)))
  /\ (forall Date_parse sort query movies,
        Permutation (Part000.sortedMovies Date_parse movies sort query) movies
        /\ (forall r,
              filter (same_key_Part000 Date_parse sort r)
                (Part000.sortedMovies Date_parse movies sort query)
              = filter (same_key_Part000 Date_parse sort r) movies)
        /\ (forall a b,
              same_key_Part000 Date_parse sort a b = true ->
              in_order a b movies ->
              in_order a b (Part000.sortedMovies Date_parse movies sort query))).
Proof.
  split.
  - intros D sort movies. split; [apply sortedMovies_perm_MovieJs|]. split.
    + apply sortedMovies_stable_MovieJs.
    + intros a b Hab Hin.
      apply (filter_in_order (same_key_MovieJs D sort a) movies); auto.
      * apply sortedMovies_stable_MovieJs.
      * apply same_key_MovieJs_refl.
  - intros D sort query movies. split; [apply sortedMovies_perm_Part000|]. split.
    + apply sortedMovies_stable_Part000.
    + intros a b Hab Hin.
      apply (filter_in_order (same_key_Part000 D sort a) movies); auto.
      * apply sortedMovies_stable_Part000.
      * apply same_key_Part000_refl.
Qed.

Lemma sort_is_stable_witness :
  in_order undated_1 undated_2
    (MovieJs.sortedMovies Date_parse_iso [undated_1; film_A; undated_2]
       (lit "release_desc"))
  /\ in_order undated_1 undated_2
       (Part000.sortedMovies Date_parse_iso [undated_1; film_A; undated_2]
          (lit "release_date.asc") (lit "dune")).
Proof.
  assert (Hin : in_order undated_1 undated_2 [undated_1; film_A; undated_2])
    by (exists [], [film_A], []; reflexivity).
  split.
  - exact (proj2 (proj2 (proj1 sort_is_stable Date_parse_iso (lit "release_desc")
                           [undated_1; film_A; undated_2]))
             undated_1 undated_2 eq_refl Hin).
  - exact (proj2 (proj2 (proj2 sort_is_stable Date_parse_iso (lit "release_date.asc")
                           (lit "dune") [undated_1; film_A; undated_2]))
             undated_1 undated_2 eq_refl Hin).
Defined.

Example stable_example :
  map id (MovieJs.sortedMovies Date_parse_iso [undated_1; film_A; undated_2]
            (lit "release_desc")) = [1; 11; 12]
  /\ map id (MovieJs.sortedMovies Date_parse_iso [undated_2; film_A; undated_1]
               (lit "release_desc")) = [1; 12; 11].
Proof. split; reflexivity. Qed.

(** The scenario of the specification. *)
Example scenario_rating_desc :
  MovieJs.sortedMovies Date_parse_iso [film_A; film_B] (lit "rating_desc")
  = [film_B; film_A].
Proof. reflexivity. Qed.

Example scenario_date_asc :
  MovieJs.sortedMovies Date_parse_iso [film_A; film_B] (lit "release_asc")
  = [film_B; film_A].
Proof. reflexivity. Qed.

(** ** Records without a release date *)

Section DateClassFacts.
Variable Date_parse : jsstring -> option Z.

Lemma undated_dateVal (m : MovieRecord) :
  undated Date_parse m = true -> dateVal Date_parse m = 0.
Proof.
  unfold undated. rewrite negb_true_iff. apply dateVal_missing.
Qed.

Lemma release_asc_classes (movies : list MovieRecord) :
  all_before (undated Date_parse) (dated_after_epoch Date_parse)
    (Array_sort (release_asc Date_parse) movies)
  /\ all_before (dated_before_epoch Date_parse) (undated Date_parse)
       (Array_sort (release_asc Date_parse) movies).
Proof.
  split.
  - apply (sorted_all_before _ _ _ _ (release_asc_sorted Date_parse movies)).
    + intros x. lia.
    + intros x y Hx Hy. apply undated_dateVal in Hx.
      unfold dated_after_epoch in Hy. apply andb_true_iff in Hy.
      destruct Hy as [_ Hy]. apply Z.ltb_lt in Hy. lia.
  - apply (sorted_all_before _ _ _ _ (release_asc_sorted Date_parse movies)).
    + intros x. lia.
    + intros x y Hx Hy. apply undated_dateVal in Hy.
      unfold dated_before_epoch in Hx. apply andb_true_iff in Hx.
      destruct Hx as [_ Hx]. apply Z.ltb_lt in Hx. lia.
Qed.

Lemma release_desc_classes (movies : list MovieRecord) :
  all_before (dated_after_epoch Date_parse) (undated Date_parse)
    (Array_sort (release_desc Date_parse) movies)
  /\ all_before (undated Date_parse) (dated_before_epoch Date_parse)
       (Array_sort (release_desc Date_parse) movies).
Proof.
  split.
  - apply (sorted_all_before _ _ _ _ (release_desc_sorted Date_parse movies)).
    + intros x. lia.
    + intros x y Hx Hy. apply undated_dateVal in Hy.
      unfold dated_after_epoch in Hx. apply andb_true_iff in Hx.
      destruct Hx as [_ Hx]. apply Z.ltb_lt in Hx. lia.
  - apply (sorted_all_before _ _ _ _ (release_desc_sorted Date_parse movies)).
    + intros x. lia.
    + intros x y Hx Hy. apply undated_dateVal in Hx.
      unfold dated_before_epoch in Hy. apply andb_true_iff in Hy.
      destruct Hy as [_ Hy]. apply Z.ltb_lt in Hy. lia.
Qed.

End DateClassFacts.

(** A film of 1960 has a valid date and a negative time value: under the
    ascending date key it comes before the record without a date, and under
    the descending date key after it. *)
Lemma undated_after_old_film :
  has_valid_date Date_parse_iso undated_2 = false
  /\ has_valid_date Date_parse_iso film_1960 = true
  /\ MovieJs.sortedMovies Date_parse_iso [undated_2; film_1960] (lit "release_asc")
     = [film_1960; undated_2]
  /\ ~ all_before (undated Date_parse_iso) (has_valid_date Date_parse_iso)
         (MovieJs.sortedMovies Date_parse_iso [undated_2; film_1960]
            (lit "release_asc"))
  /\ MovieJs.sortedMovies Date_parse_iso [film_1960; undated_2] (lit "release_desc")
     = [undated_2; film_1960]
  /\ ~ all_before (has_valid_date Date_parse_iso) (undated Date_parse_iso)
         (MovieJs.sortedMovies Date_parse_iso [film_1960; undated_2]
            (lit "release_desc"))
  /\ Part000.sortedMovies Date_parse_iso [undated_2; film_1960]
       (lit "release_date.asc") (lit "psycho")
     = [film_1960; undated_2]
  /\ Part000.sortedMovies Date_parse_iso [film_A; undated_2]
       (lit "release_date.asc") []
     = [film_A; undated_2].
Proof.
  split; [reflexivity|]. split; [reflexivity|]. split; [reflexivity|]. split.
  { intros H. specialize (H 1%nat 0%nat undated_2 film_1960 eq_refl eq_refl eq_refl eq_refl).
    lia. }
  split; [reflexivity|]. split.
  { intros H. specialize (H 1%nat 0%nat film_1960 undated_2 eq_refl eq_refl eq_refl eq_refl).
    lia. }
  split; reflexivity.
Qed.

(** C5 (as amended) -- A record whose release date is absent, empty or
    unparsable takes the comparison key 0, the time value of 1970-01-01, which
    is not the earliest value: a valid date before 1970 has a negative one.
    In both versions, under the ascending date key such a record stands
    before every record with a valid date after the epoch and after every
    record with a valid date before it; under the descending date key it is
    the other way round.  In the second version this holds when a query is
    submitted; with an empty query [sortedMovies] is the stored list as it
    is. *)
Theorem undated_records_order :
  (forall Date_parse movies,
     (forall m, undated Date_parse m = true -> dateVal Date_parse m = 0)
     /\ all_before (undated Date_parse) (dated_after_epoch Date_parse)
          (MovieJs.sortedMovies Date_parse movies (lit "release_asc"))
     /\ all_before (dated_before_epoch Date_parse) (undated Date_parse)
          (MovieJs.sortedMovies Date_parse movies (lit "release_asc"))
     /\ all_before (dated_after_epoch Date_parse) (undated Date_parse)
          (MovieJs.sortedMovies Date_parse movies (lit "release_desc"))
     /\ all_before (undated Date_parse) (dated_before_epoch Date_parse)
          (MovieJs.sortedMovies Date_parse movies (lit "release_desc")))
  /\ (forall Date_parse movies query,
        (truthy query = true ->
         all_before (undated Date_parse) (dated_after_epoch Date_parse)
           (Part000.sortedMovies Date_parse movies (lit "release_date.asc") query)
         /\ all_before (dated_before_epoch Date_parse) (undated Date_parse)
              (Part000.sortedMovies Date_parse movies (lit "release_date.asc") query)
         /\ all_before (dated_after_epoch Date_parse) (undated Date_parse)
              (Part000.sortedMovies Date_parse movies (lit "release_date.desc") query)
         /\ all_before (undated Date_parse) (dated_before_epoch Date_parse)
              (Part000.sortedMovies Date_parse movies (lit "release_date.desc") query))
        /\ (truthy query = false ->
            forall sort, Part000.sortedMovies Date_parse movies sort query = movies)).
Proof.
  split.
  - intros D movies. split; [apply undated_dateVal|].
    destruct (release_asc_classes D movies) as [A1 A2].
    destruct (release_desc_classes D movies) as [D1 D2].
    repeat split; assumption.
  - intros D movies query. split.
    + intros Hq. unfold Part000.sortedMovies. rewrite Hq.
      destruct (release_asc_classes D movies) as [A1 A2].
      destruct (release_desc_classes D movies) as [D1 D2].
      repeat split; assumption.
    + intros Hq sort. unfold Part000.sortedMovies. now rewrite Hq.
Qed.

Lemma undated_records_order_witness :
  all_before (undated Date_parse_iso) (dated_after_epoch Date_parse_iso)
    (Part000.sortedMovies Date_parse_iso [film_A; undated_2; film_1960; undated_1]
       (lit "release_date.asc") (lit "psycho"))
  /\ Part000.sortedMovies Date_parse_iso [film_A; undated_2] (lit "release_date.asc") []
     = [film_A; undated_2].
Proof.
  split.
  - exact (proj1 (proj1 (proj2 undated_records_order Date_parse_iso
                           [film_A; undated_2; film_1960; undated_1] (lit "psycho"))
                    eq_refl)).
  - exact (proj2 (proj2 undated_records_order Date_parse_iso
                    [film_A; undated_2] []) eq_refl (lit "release_date.asc")).
Defined.

Example undated_order_example :
  map id (MovieJs.sortedMovies Date_parse_iso
            [film_A; undated_2; film_1960; undated_1] (lit "release_asc"))
  = [13; 12; 11; 1]
  /\ map id (MovieJs.sortedMovies Date_parse_iso
               [film_A; undated_2; film_1960; undated_1] (lit "release_desc"))
     = [1; 12; 11; 13].
Proof. split; reflexivity. Qed.

(** ** The cards *)

(** In [Movie.js] a record without a poster gets the empty image reference,
    not the placeholder. *)
Lemma empty_src_MovieJs :
  poster_path film_B = None
  /\ src (MovieJs.card film_B) = []
  /\ src (MovieJs.card film_B) <> placeholder.
Proof. repeat split. discriminate. Qed.

(** C9 (as amended) -- For every record, in both versions the card shows
    "Untitled" when the title is missing or empty and the title otherwise,
    and "Unknown" when the release date is missing or empty and the date
    otherwise; with a poster path the image reference is the image base
    followed by the path.  Without one, the second version uses the
    placeholder as the image reference, while [Movie.js] uses the empty
    string and puts the placeholder in place only in the [onError] handler of
    the image.  The grid is the list of the cards of [sortedMovies]. *)
Theorem card_fallbacks :
  (forall m,
     (truthy_opt (poster_path m) = false ->
      src (MovieJs.card m) = [] /\ onError_src (MovieJs.card m) = placeholder
      /\ src (Part000.card m) = placeholder)
     /\ (forall p, poster_path m = Some p -> truthy p = true ->
           src (MovieJs.card m) = MovieJs.IMG_BASE ++ p
           /\ src (Part000.card m) = Part000.IMG_BASE ++ p)
     /\ (truthy_opt (title m) = false ->
         title_text (MovieJs.card m) = lit "Untitled"
         /\ title_text (Part000.card m) = lit "Untitled")
     /\ (forall t, title m = Some t -> truthy t = true ->
           title_text (MovieJs.card m) = t /\ title_text (Part000.card m) = t)
     /\ (truthy_opt (release_date m) = false ->
         date_text (MovieJs.card m) = lit "Unknown"
         /\ date_text (Part000.card m) = lit "Unknown")
     /\ (forall d, release_date m = Some d -> truthy d = true ->
           date_text (MovieJs.card m) = d /\ date_text (Part000.card m) = d))
  /\ (forall Date_parse s l,
        MovieJs.movies s = JArr l ->
        MovieJs.grid Date_parse s
        = Some (map MovieJs.card (MovieJs.sortedMovies Date_parse l (MovieJs.sort s))))
  /\ (forall Date_parse s l,
        Part000.movies s = JArr l -> Part000.pagination_rendered s = true ->
        Part000.grid Date_parse s
        = Some (map Part000.card
                  (Part000.sortedMovies Date_parse l (Part000.sort s) (Part000.query s)))).
Proof.
  split; [|split].
  - intros m. unfold MovieJs.card, Part000.card. simpl.
    split; [|split; [|split; [|split; [|split]]]].
    + intros Hp. destruct (poster_path m) as [p|]; [|now repeat split].
      simpl in Hp. rewrite Hp. now repeat split.
    + intros p -> Hp. rewrite Hp. now split.
    + intros Ht. destruct (title m) as [t|]; [|now split].
      simpl in Ht. unfold or_else_opt, or_else. rewrite Ht. now split.
    + intros t -> Ht. unfold or_else_opt, or_else. rewrite Ht. now split.
    + intros Hd. destruct (release_date m) as [d|]; [|now split].
      simpl in Hd. unfold or_else_opt, or_else. rewrite Hd. now split.
    + intros d -> Hd. unfold or_else_opt, or_else. rewrite Hd. now split.
  - intros D s l H. unfold MovieJs.grid. now rewrite H.
  - intros D s l H Hr. unfold Part000.grid. now rewrite H, Hr.
Qed.

Lemma card_fallbacks_witness :
  (src (MovieJs.card undated_2) = [] /\ onError_src (MovieJs.card undated_2) = placeholder
   /\ src (Part000.card undated_2) = placeholder)
  /\ (title_text (MovieJs.card undated_2) = lit "Untitled"
      /\ title_text (Part000.card undated_2) = lit "Untitled")
  /\ (date_text (MovieJs.card undated_1) = lit "Unknown"
      /\ date_text (Part000.card undated_1) = lit "Unknown")
  /\ (src (MovieJs.card film_A) = lit "https://image.tmdb.org/t/p/w342/a.jpg"
      /\ src (Part000.card film_A) = lit "https://image.tmdb.org/t/p/w342/a.jpg").
Proof.
  destruct card_fallbacks as [C _].
  split; [|split; [|split]].
  - exact (proj1 (C undated_2) eq_refl).
  - exact (proj1 (proj2 (proj2 (C undated_2))) eq_refl).
  - exact (proj1 (proj2 (proj2 (proj2 (proj2 (C undated_1))))) eq_refl).
  - exact (proj1 (proj2 (C film_A)) (lit "/a.jpg") eq_refl eq_refl).
Defined.

(** * Further properties *)

(** ** Trimming *)

Lemma trim_start_snoc (l : jsstring) (c : N) :
  is_white_space c = false -> trim_start (l ++ [c]) = trim_start l ++ [c].
Proof.
  intros Hc. induction l as [|a l IH]; simpl.
  - now rewrite Hc.
  - destruct (is_white_space a); [exact IH | reflexivity].
Qed.

Lemma trim_idem (s : jsstring) : trim (trim s) = trim s.
Proof.
  unfold trim.
  pose proof (trim_start_nil_or_black s) as Hb.
  destruct (trim_start s) as [|c t]; [reflexivity|].
  change (rev (c :: t)) with (rev t ++ [c]).
  rewrite (trim_start_snoc (rev t) c Hb).
  set (x := trim_start (rev t)).
  assert (Hx : trim_start x = x) by apply trim_start_idem.
  rewrite rev_app_distr.
  change (rev [c] ++ rev x) with (c :: rev x).
  assert (H1 : trim_start (c :: rev x) = c :: rev x) by (simpl; now rewrite Hb).
  rewrite H1.
  change (rev (c :: rev x)) with (rev (rev x) ++ [c]).
  rewrite rev_involutive, (trim_start_snoc x c Hb), Hx.
  rewrite rev_app_distr. reflexivity.
Qed.

Lemma trim_truthy (s : jsstring) :
  trim s = s -> (0 <? List.length (trim s))%nat = truthy s.
Proof. intros ->. now destruct s. Qed.

Lemma rid_injective (l : list Request) (a b : Request) :
  NoDup (map rid l) -> In a l -> In b l -> rid a = rid b -> a = b.
Proof.
  induction l as [|x l IH]; [easy|].
  simpl. intros Hn Ha Hb Heq. inversion Hn as [|y ys Hx Hl]; subst.
  destruct Ha as [->|Ha], Hb as [->|Hb]; auto.
  - exfalso. apply Hx. rewrite Heq. now apply in_map.
  - exfalso. apply Hx. rewrite <- Heq. now apply in_map.
Qed.

(** ** [Movie.js]: frames, launches and further invariants *)

Module MovieJsMore.
Import MovieJs.

Section More.
Variable API_KEY : option jsstring.

(** A user event touches neither the result cells nor the requests. *)
Lemma handle_user_frame (s : State) (e : Event) :
  event_request e = None ->
  movies (handle e s) = movies s /\ loading (handle e s) = loading s
  /\ error (handle e s) = error s /\ inflight (handle e s) = inflight s
  /\ cleanup (handle e s) = cleanup s /\ next_rid (handle e s) = next_rid s.
Proof.
  destruct e; try discriminate; intros _; simpl; unfold handleSubmit, handleClear;
    repeat match goal with
           | |- context [if ?b then _ else _] => destruct b
           end;
    simpl; repeat split.
Qed.

(** A network event touches no cell a user sets, launches nothing, and
    leaves in flight only calls that were in flight, with their flags and
    resources. *)
Lemma handle_network_frame (s : State) (e : Event) (k : nat) :
  event_request e = Some k ->
  (page (handle e s) = page s /\ searchInput (handle e s) = searchInput s
   /\ query (handle e s) = query s /\ sort (handle e s) = sort s)
  /\ cleanup (handle e s) = cleanup s /\ next_rid (handle e s) = next_rid s
  /\ (forall r', In r' (inflight (handle e s)) ->
        exists r, In r (inflight s) /\ rid r = rid r'
                  /\ cancelled r = cancelled r' /\ resource r = resource r').
Proof.
  intros He.
  assert (Hadv : forall r', In r' (map (advance k) (inflight s)) ->
            exists r, In r (inflight s) /\ rid r = rid r'
                      /\ cancelled r = cancelled r' /\ resource r = resource r').
  { intros r' Hr'. apply in_map_iff in Hr'. destruct Hr' as [r [<- Hr]].
    exists r. rewrite rid_advance, cancelled_advance. repeat split; auto.
    unfold advance. now destruct (Nat.eqb (rid r) k). }
  assert (Hdrop : forall r', In r' (drop_request k (inflight s)) ->
            exists r, In r (inflight s) /\ rid r = rid r'
                      /\ cancelled r = cancelled r' /\ resource r = resource r').
  { intros r' Hr'. apply In_drop_request in Hr'. exists r'. tauto. }
  assert (Hid : forall r', In r' (inflight s) ->
            exists r, In r (inflight s) /\ rid r = rid r'
                      /\ cancelled r = cancelled r' /\ resource r = resource r').
  { intros r' Hr'. exists r'. tauto. }
  destruct e; try discriminate; injection He as ->; simpl;
    apply (MovieJsFacts.resume_cases k _ _
             (fun t =>
                (page t = page s /\ searchInput t = searchInput s
                 /\ query t = query s /\ sort t = sort s)
                /\ cleanup t = cleanup s /\ next_rid t = next_rid s
                /\ (forall r', In r' (inflight t) ->
                      exists r, In r (inflight s) /\ rid r = rid r'
                                /\ cancelled r = cancelled r'
                                /\ resource r = resource r')));
    auto; intros r Hr Hk; subst k.
  - unfold after_fetch. destruct ok; simpl; [auto|].
    destruct (cancelled r); simpl; auto.
  - unfold after_reject. destruct (cancelled r); simpl; auto.
  - unfold after_json. destruct (cancelled r); simpl; [auto|].
    destruct data; simpl; auto.
  - unfold after_reject. destruct (cancelled r); simpl; auto.
Qed.

(** The effect, run after the cleanup of the run before. *)
Lemma relaunch (c : N) (rest : jsstring) (t : State) :
  API_KEY = Some (c :: rest) ->
  tracked (inflight t) (cleanup t) (next_rid t) ->
  let s' := effect API_KEY (run_cleanup t) in
  next_rid s' = S (next_rid t) /\ cleanup s' = Some (next_rid t)
  /\ (forall r, In r (inflight s') -> rid r <> next_rid t ->
        cancelled r = true
        /\ exists r0, In r0 (inflight t) /\ rid r0 = rid r
                      /\ resource r0 = resource r)
  /\ match base (c :: rest) (query t) (page t) with
     | Ok u =>
       loading s' = true /\ error s' = []
       /\ In {| rid := next_rid t; cancelled := false; stage := AwaitFetch;
                resource := u |} (inflight s')
       /\ (forall r, In r (inflight s') -> rid r = next_rid t ->
             r = {| rid := next_rid t; cancelled := false; stage := AwaitFetch;
                    resource := u |})
     | Throw m =>
       loading s' = false /\ error s' = or_else m fallback_message
       /\ (forall r, In r (inflight s') -> rid r <> next_rid t)
     end.
Proof.
  intros HK T s'. subst s'.
  pose proof (MovieJsFacts.run_cleanup_cancelled _ T) as Hc.
  destruct (MovieJsFacts.run_cleanup_fresh _ T) as [Hf _].
  pose proof (MovieJsFacts.run_cleanup_next t) as Hn.
  pose proof (MovieJsFacts.run_cleanup_cells t) as Hcells.
  unfold cells in Hcells. injection Hcells as Em Ep Ei Eq Es El Ee.
  assert (Hold : forall r, In r (inflight (run_cleanup t)) ->
            exists r0, In r0 (inflight t) /\ rid r0 = rid r
                       /\ resource r0 = resource r).
  { unfold run_cleanup. destruct (cleanup t) as [k|]; simpl.
    - intros r Hr. apply in_map_iff in Hr. destruct Hr as [r0 [<- Hr0]].
      exists r0. rewrite rid_cancel. repeat split; auto.
      unfold cancel. now destruct (Nat.eqb (rid r0) k).
    - intros r Hr. exists r. tauto. }
  unfold effect. rewrite HK. cbn -[base run_cleanup].
  rewrite Hn, Eq, Ep.
  destruct (base (c :: rest) (query t) (page t)) as [u|m]; simpl.
  - split; [reflexivity|]. split; [reflexivity|]. split.
    + intros r [<-|Hr] Hne; [now elim Hne|].
      split; [now apply Hc | now apply Hold].
    + split; [reflexivity|]. split; [reflexivity|]. split; [now left|].
      intros r [<-|Hr] Hrid; [reflexivity|]. specialize (Hf r Hr). lia.
  - split; [reflexivity|]. split; [reflexivity|]. split.
    + intros r Hr Hne. split; [now apply Hc | now apply Hold].
    + split; [reflexivity|]. split; [reflexivity|].
      intros r Hr Hrid. specialize (Hf r Hr). lia.
Qed.

Lemma reachable_ind_invariant (P : State -> Prop) :
  P (mounted API_KEY) ->
  (forall s e, reachable API_KEY s -> invariant API_KEY s -> P s ->
               P (dispatch API_KEY s e)) ->
  forall s, reachable API_KEY s -> P s.
Proof.
  intros H0 Hstep s Hs. induction Hs as [|s e Hs IH]; [exact H0|].
  apply Hstep; auto. now apply MovieJsFacts.reachable_invariant.
Qed.

Lemma deps_eqb_eq (a b : Z * jsstring) : deps_eqb a b = true -> a = b.
Proof.
  unfold deps_eqb. rewrite andb_true_iff, Z.eqb_eq, str_eqb_eq.
  destruct a, b; simpl. intros [-> ->]. reflexivity.
Qed.

(** Every call in flight after a handler was in flight before it. *)
Lemma handle_inflight_origin (s : State) (e : Event) (r' : Request) :
  In r' (inflight (handle e s)) ->
  exists r, In r (inflight s) /\ rid r = rid r'
            /\ cancelled r = cancelled r' /\ resource r = resource r'.
Proof.
  destruct (event_request e) as [k|] eqn:E.
  - apply (handle_network_frame s e k E).
  - destruct (handle_user_frame s e E) as [_ [_ [_ [-> _]]]].
    intros H. exists r'. tauto.
Qed.

(** Without a key the component stays as it mounted. *)
Lemma missing_key_state (s : State) :
  truthy_opt API_KEY = false -> reachable API_KEY s ->
  inflight s = [] /\ loading s = false /\ error s = missing_key_message
  /\ movies s = JArr [] /\ next_rid s = 0%nat /\ cleanup s = None.
Proof.
  intros HK Hs. pattern s. revert s Hs. apply reachable_ind_invariant.
  - unfold mounted, effect.
    destruct API_KEY as [[|c k]|]; try discriminate; simpl; repeat split.
  - intros s0 e _ _ [Hi [Hl [He [Hm [Hn Hc]]]]].
    assert (Ht : inflight (handle e s0) = [] /\ loading (handle e s0) = false
                 /\ error (handle e s0) = missing_key_message
                 /\ movies (handle e s0) = JArr []
                 /\ next_rid (handle e s0) = 0%nat
                 /\ cleanup (handle e s0) = None).
    { destruct (event_request e) as [k|] eqn:E.
      - assert (Hs : handle e s0 = s0).
        { destruct e; try discriminate; simpl; unfold resume;
            now rewrite Hi. }
        rewrite Hs. tauto.
      - destruct (handle_user_frame s0 e E) as [-> [-> [-> [-> [-> ->]]]]].
        tauto. }
    unfold dispatch, rerender. destruct (deps_eqb _ _); [exact Ht|].
    destruct Ht as [Hi' [Hl' [He' [Hm' [Hn' Hc']]]]].
    unfold run_cleanup. rewrite Hc'. unfold effect.
    destruct API_KEY as [[|c k]|]; try discriminate; simpl; repeat split;
      assumption.
Qed.

(** The submitted query is trimmed. *)
Lemma query_trimmed (s : State) :
  reachable API_KEY s -> trim (query s) = query s.
Proof.
  intros Hs. pattern s. revert s Hs. apply reachable_ind_invariant.
  - unfold mounted. destruct (MovieJsFacts.effect_keeps API_KEY initial) as [_ [_ [-> _]]].
    reflexivity.
  - intros s0 e _ _ IH. unfold dispatch.
    destruct (MovieJsFacts.rerender_keeps API_KEY s0 (handle e s0)) as [_ [_ [-> _]]].
    destruct (event_request e) as [k|] eqn:E.
    + destruct (handle_network_frame s0 e k E) as [[_ [_ [-> _]]] _]. exact IH.
    + destruct e; try discriminate; simpl; auto.
      * apply trim_idem.
      * now destruct (previous_disabled s0).
      * now destruct (next_disabled s0).
Qed.

Lemma relaunch_resources (c : N) (rest : jsstring) (t : State) :
  API_KEY = Some (c :: rest) ->
  tracked (inflight t) (cleanup t) (next_rid t) ->
  (forall r, In r (inflight t) ->
     exists q p, base (c :: rest) q p = Ok (resource r)) ->
  resources_ok_MovieJs (c :: rest) (effect API_KEY (run_cleanup t)).
Proof.
  intros HK T Hwf r Hr.
  destruct (relaunch c rest t HK T) as [_ [_ [Hold Hnew]]].
  pose proof (MovieJsFacts.effect_keeps API_KEY (run_cleanup t)) as Hk.
  pose proof (MovieJsFacts.run_cleanup_cells t) as Hcells.
  unfold cells in Hcells. injection Hcells as Em Ep Ei Eq Es El Ee.
  destruct Hk as [_ [Hp [Hq _]]].
  rewrite Hp, Hq, Ep, Eq.
  destruct (Nat.eq_dec (rid r) (next_rid t)) as [Heq|Hne].
  - destruct (base (c :: rest) (query t) (page t)) as [u|m] eqn:EB.
    + destruct Hnew as [_ [_ [_ Hu]]]. rewrite (Hu r Hr Heq). simpl.
      split; [|auto]. exists (query t), (page t). exact EB.
    + destruct Hnew as [_ [_ Hno]]. elim (Hno r Hr Heq).
  - destruct (Hold r Hr Hne) as [Hc [r0 [Hr0 [_ Hres]]]].
    split.
    + rewrite <- Hres. now apply Hwf.
    + rewrite Hc. discriminate.
Qed.

Lemma reachable_resources (c : N) (rest : jsstring) (s : State) :
  API_KEY = Some (c :: rest) -> reachable API_KEY s ->
  resources_ok_MovieJs (c :: rest) s.
Proof.
  intros HK Hs. pattern s. revert s Hs. apply reachable_ind_invariant.
  - unfold mounted.
    change (effect API_KEY initial) with (effect API_KEY (run_cleanup initial)).
    apply relaunch_resources; auto.
    + apply tracked_nil.
    + intros r [].
  - intros s0 e _ I IH.
    pose proof (MovieJsFacts.handle_invariant API_KEY s0 e I) as It.
    assert (Hwf : forall r, In r (inflight (handle e s0)) ->
              exists q p, base (c :: rest) q p = Ok (resource r)).
    { intros r Hr. destruct (handle_inflight_origin s0 e r Hr) as [r0 [Hr0 [_ [_ <-]]]].
      apply IH, Hr0. }
    unfold dispatch, rerender.
    destruct (deps_eqb (deps s0) (deps (handle e s0))) eqn:Ed.
    + apply deps_eqb_eq in Ed. unfold deps in Ed. injection Ed as Ep Eq.
      intros r Hr. split; [now apply Hwf|].
      destruct (handle_inflight_origin s0 e r Hr) as [r0 [Hr0 [_ [Hc <-]]]].
      rewrite <- Hc, <- Ep, <- Eq. apply IH, Hr0.
    + apply relaunch_resources; auto. apply (inv_tracked _ _ It).
Qed.

(** At most one call has its flag down. *)
Lemma one_live (s : State) (a b : Request) :
  reachable API_KEY s -> In a (inflight s) -> In b (inflight s) ->
  cancelled a = false -> cancelled b = false -> a = b.
Proof.
  intros Hs Ha Hb Ca Cb.
  pose proof (inv_tracked _ _ (MovieJsFacts.reachable_invariant API_KEY s Hs)) as T.
  apply (rid_injective (inflight s)); auto.
  - apply (tracked_nodup _ _ _ T).
  - pose proof (tracked_live _ _ _ T a Ha Ca) as H1.
    pose proof (tracked_live _ _ _ T b Hb Cb) as H2. congruence.
Qed.

(** What a user event launches. *)
Lemma user_event_launch (c : N) (rest : jsstring) (s : State) (e : Event) :
  API_KEY = Some (c :: rest) -> reachable API_KEY s ->
  event_request e = None ->
  let s' := dispatch API_KEY s e in
  (deps s' = deps s ->
   movies s' = movies s /\ loading s' = loading s /\ error s' = error s
   /\ inflight s' = inflight s /\ next_rid s' = next_rid s)
  /\ (deps s' <> deps s ->
      movies s' = movies s /\ next_rid s' = S (next_rid s)
      /\ (forall r, In r (inflight s') -> rid r <> next_rid s ->
            cancelled r = true)
      /\ match base (c :: rest) (query s') (page s') with
         | Ok u =>
           loading s' = true /\ error s' = []
           /\ In {| rid := next_rid s; cancelled := false; stage := AwaitFetch;
                    resource := u |} (inflight s')
         | Throw m =>
           loading s' = false /\ error s' = or_else m fallback_message
         end).
Proof.
  intros HK Hs He s'.
  pose proof (MovieJsFacts.reachable_invariant API_KEY s Hs) as I.
  destruct (handle_user_frame s e He) as [Fm [Fl [Fe [Fi [Fc Fn]]]]].
  assert (T : tracked (inflight (handle e s)) (cleanup (handle e s))
                (next_rid (handle e s)))
    by (rewrite Fi, Fc, Fn; apply (inv_tracked _ _ I)).
  assert (Hdeps : deps s' = deps (handle e s)).
  { subst s'. unfold dispatch, deps.
    destruct (MovieJsFacts.rerender_keeps API_KEY s (handle e s)) as [_ [-> [-> _]]].
    reflexivity. }
  subst s'. unfold dispatch, rerender in *.
  destruct (deps_eqb (deps s) (deps (handle e s))) eqn:Ed.
  - split; [intros _; auto|].
    intros Hne. apply deps_eqb_eq in Ed. congruence.
  - split.
    + intros Heq. rewrite Hdeps in Heq. rewrite Heq, MovieJsFacts.deps_eqb_refl in Ed.
      discriminate.
    + intros _.
      destruct (relaunch c rest (handle e s) HK T)
        as [Hn [_ [Hold Hnew]]].
      pose proof (MovieJsFacts.effect_keeps API_KEY (run_cleanup (handle e s))) as Hk.
      pose proof (MovieJsFacts.run_cleanup_cells (handle e s)) as Hcells.
      unfold cells in Hcells. injection Hcells as Em Ep Ei Eq Es El Ee.
      destruct Hk as [Hm [Hp [Hq _]]].
      rewrite Fn in Hold, Hnew.
      rewrite Hm, Hp, Hq, Em, Ep, Eq, Hn, Fm, Fn.
      split; [reflexivity|]. split; [reflexivity|]. split.
      * intros r Hr Hne. apply (Hold r Hr Hne).
      * destruct (base (c :: rest) (query (handle e s)) (page (handle e s)))
          as [u|m].
        -- destruct Hnew as [H1 [H2 [H3 _]]]. auto.
        -- destruct Hnew as [H1 [H2 _]]. auto.
Qed.

End More.
End MovieJsMore.

(** ** The second version: frames, launches and further invariants *)

Module Part000More.
Import Part000.

Section More.
Variable API_KEY : option jsstring.

(** A user event touches neither the result cells nor the requests. *)
Lemma handle_user_frame_v2 (s : State) (e : Event) :
  event_request e = None ->
  movies (handle e s) = movies s /\ loading (handle e s) = loading s
  /\ error (handle e s) = error s /\ inflight (handle e s) = inflight s
  /\ cleanup (handle e s) = cleanup s /\ next_rid (handle e s) = next_rid s.
Proof.
  destruct e; try discriminate; intros _; simpl; unfold handleSearchInputChange, handleKeyPress;
    repeat match goal with
           | |- context [if ?b then _ else _] => destruct b
           end;
    simpl; repeat split.
Qed.

(** A network event touches no cell a user sets, launches nothing, and
    leaves in flight only calls that were in flight, with their flags and
    resources. *)
Lemma handle_network_frame_v2 (s : State) (e : Event) (k : nat) :
  event_request e = Some k ->
  (page (handle e s) = page s /\ searchInput (handle e s) = searchInput s
   /\ query (handle e s) = query s /\ sort (handle e s) = sort s)
  /\ cleanup (handle e s) = cleanup s /\ next_rid (handle e s) = next_rid s
  /\ (forall r', In r' (inflight (handle e s)) ->
        exists r, In r (inflight s) /\ rid r = rid r'
                  /\ cancelled r = cancelled r' /\ resource r = resource r').
Proof.
  intros He.
  assert (Hadv : forall r', In r' (map (advance k) (inflight s)) ->
            exists r, In r (inflight s) /\ rid r = rid r'
                      /\ cancelled r = cancelled r' /\ resource r = resource r').
  { intros r' Hr'. apply in_map_iff in Hr'. destruct Hr' as [r [<- Hr]].
    exists r. rewrite rid_advance, cancelled_advance. repeat split; auto.
    unfold advance. now destruct (Nat.eqb (rid r) k). }
  assert (Hdrop : forall r', In r' (drop_request k (inflight s)) ->
            exists r, In r (inflight s) /\ rid r = rid r'
                      /\ cancelled r = cancelled r' /\ resource r = resource r').
  { intros r' Hr'. apply In_drop_request in Hr'. exists r'. tauto. }
  assert (Hid : forall r', In r' (inflight s) ->
            exists r, In r (inflight s) /\ rid r = rid r'
                      /\ cancelled r = cancelled r' /\ resource r = resource r').
  { intros r' Hr'. exists r'. tauto. }
  destruct e; try discriminate; injection He as ->; simpl;
    apply (Part000Facts.resume_cases_v2 k _ _
             (fun t =>
                (page t = page s /\ searchInput t = searchInput s
                 /\ query t = query s /\ sort t = sort s)
                /\ cleanup t = cleanup s /\ next_rid t = next_rid s
                /\ (forall r', In r' (inflight t) ->
                      exists r, In r (inflight s) /\ rid r = rid r'
                                /\ cancelled r = cancelled r'
                                /\ resource r = resource r')));
    auto; intros r Hr Hk; subst k.
  - unfold after_fetch. destruct ok; simpl; [auto|].
    destruct (cancelled r); simpl; auto.
  - unfold after_reject. destruct (cancelled r); simpl; auto.
  - unfold after_json. destruct (cancelled r); simpl; [auto|].
    destruct data; simpl; auto.
  - unfold after_reject. destruct (cancelled r); simpl; auto.
Qed.

(** The effect, run after the cleanup of the run before. *)
Lemma relaunch_v2 (c : N) (rest : jsstring) (t : State) :
  API_KEY = Some (c :: rest) ->
  tracked (inflight t) (cleanup t) (next_rid t) ->
  let s' := effect API_KEY (run_cleanup t) in
  next_rid s' = S (next_rid t) /\ cleanup s' = Some (next_rid t)
  /\ (forall r, In r (inflight s') -> rid r <> next_rid t ->
        cancelled r = true
        /\ exists r0, In r0 (inflight t) /\ rid r0 = rid r
                      /\ resource r0 = resource r)
  /\ match url (c :: rest) (query t) (page t) (sort t) with
     | Ok u =>
       loading s' = true /\ error s' = []
       /\ In {| rid := next_rid t; cancelled := false; stage := AwaitFetch;
                resource := u |} (inflight s')
       /\ (forall r, In r (inflight s') -> rid r = next_rid t ->
             r = {| rid := next_rid t; cancelled := false; stage := AwaitFetch;
                    resource := u |})
     | Throw m =>
       loading s' = false /\ error s' = or_else m fallback_message
       /\ (forall r, In r (inflight s') -> rid r <> next_rid t)
     end.
Proof.
  intros HK T s'. subst s'.
  pose proof (Part000Facts.run_cleanup_cancelled_v2 _ T) as Hc.
  destruct (Part000Facts.run_cleanup_fresh_v2 _ T) as [Hf _].
  pose proof (Part000Facts.run_cleanup_next_v2 t) as Hn.
  pose proof (Part000Facts.run_cleanup_cells_v2 t) as Hcells.
  unfold cells in Hcells. injection Hcells as Em Ep Etp Ei Eq Es El Ee.
  assert (Hold : forall r, In r (inflight (run_cleanup t)) ->
            exists r0, In r0 (inflight t) /\ rid r0 = rid r
                       /\ resource r0 = resource r).
  { unfold run_cleanup. destruct (cleanup t) as [k|]; simpl.
    - intros r Hr. apply in_map_iff in Hr. destruct Hr as [r0 [<- Hr0]].
      exists r0. rewrite rid_cancel. repeat split; auto.
      unfold cancel. now destruct (Nat.eqb (rid r0) k).
    - intros r Hr. exists r. tauto. }
  unfold effect. rewrite HK. cbn -[url run_cleanup].
  rewrite Hn, Eq, Ep, Es.
  destruct (url (c :: rest) (query t) (page t) (sort t)) as [u|m]; simpl.
  - split; [reflexivity|]. split; [reflexivity|]. split.
    + intros r [<-|Hr] Hne; [now elim Hne|].
      split; [now apply Hc | now apply Hold].
    + split; [reflexivity|]. split; [reflexivity|]. split; [now left|].
      intros r [<-|Hr] Hrid; [reflexivity|]. specialize (Hf r Hr). lia.
  - split; [reflexivity|]. split; [reflexivity|]. split.
    + intros r Hr Hne. split; [now apply Hc | now apply Hold].
    + split; [reflexivity|]. split; [reflexivity|].
      intros r Hr Hrid. specialize (Hf r Hr). lia.
Qed.

Lemma reachable_ind_invariant_v2 (P : State -> Prop) :
  P (mounted API_KEY) ->
  (forall s e, reachable API_KEY s -> invariant API_KEY s -> P s ->
               P (dispatch API_KEY s e)) ->
  forall s, reachable API_KEY s -> P s.
Proof.
  intros H0 Hstep s Hs. induction Hs as [|s e Hs IH]; [exact H0|].
  apply Hstep; auto. now apply Part000Facts.reachable_invariant_v2.
Qed.

Lemma deps_eqb_eq_v2 (a b : Z * jsstring * jsstring) : deps_eqb a b = true -> a = b.
Proof.
  unfold deps_eqb. rewrite !andb_true_iff, Z.eqb_eq, !str_eqb_eq.
  destruct a as [[a1 a2] a3], b as [[b1 b2] b3]; simpl.
  intros [[-> ->] ->]. reflexivity.
Qed.

(** Every call in flight after a handler was in flight before it. *)
Lemma handle_inflight_origin_v2 (s : State) (e : Event) (r' : Request) :
  In r' (inflight (handle e s)) ->
  exists r, In r (inflight s) /\ rid r = rid r'
            /\ cancelled r = cancelled r' /\ resource r = resource r'.
Proof.
  destruct (event_request e) as [k|] eqn:E.
  - apply (handle_network_frame_v2 s e k E).
  - destruct (handle_user_frame_v2 s e E) as [_ [_ [_ [-> _]]]].
    intros H. exists r'. tauto.
Qed.

(** Without a key the component stays as it mounted. *)
Lemma missing_key_state_v2 (s : State) :
  truthy_opt API_KEY = false -> reachable API_KEY s ->
  inflight s = [] /\ loading s = false /\ error s = missing_key_message
  /\ movies s = JArr [] /\ next_rid s = 0%nat /\ cleanup s = None.
Proof.
  intros HK Hs. pattern s. revert s Hs. apply reachable_ind_invariant_v2.
  - unfold mounted, effect.
    destruct API_KEY as [[|c k]|]; try discriminate; simpl; repeat split.
  - intros s0 e _ _ [Hi [Hl [He [Hm [Hn Hc]]]]].
    assert (Ht : inflight (handle e s0) = [] /\ loading (handle e s0) = false
                 /\ error (handle e s0) = missing_key_message
                 /\ movies (handle e s0) = JArr []
                 /\ next_rid (handle e s0) = 0%nat
                 /\ cleanup (handle e s0) = None).
    { destruct (event_request e) as [k|] eqn:E.
      - assert (Hs : handle e s0 = s0).
        { destruct e; try discriminate; simpl; unfold resume;
            now rewrite Hi. }
        rewrite Hs. tauto.
      - destruct (handle_user_frame_v2 s0 e E) as [-> [-> [-> [-> [-> ->]]]]].
        tauto. }
    unfold dispatch, rerender. destruct (deps_eqb _ _); [exact Ht|].
    destruct Ht as [Hi' [Hl' [He' [Hm' [Hn' Hc']]]]].
    unfold run_cleanup. rewrite Hc'. unfold effect.
    destruct API_KEY as [[|c k]|]; try discriminate; simpl; repeat split;
      assumption.
Qed.

(** The submitted query is trimmed. *)
Lemma query_trimmed_v2 (s : State) :
  reachable API_KEY s -> trim (query s) = query s.
Proof.
  intros Hs. pattern s. revert s Hs. apply reachable_ind_invariant_v2.
  - unfold mounted. destruct (Part000Facts.effect_keeps_v2 API_KEY initial) as [_ [_ [-> _]]].
    reflexivity.
  - intros s0 e _ _ IH. unfold dispatch.
    destruct (Part000Facts.rerender_keeps_v2 API_KEY s0 (handle e s0)) as [_ [_ [-> _]]].
    destruct (event_request e) as [k|] eqn:E.
    + destruct (handle_network_frame_v2 s0 e k E) as [[_ [_ [-> _]]] _]. exact IH.
    + destruct e as [value|pressed|value| | |k ok status|k m|k data|k m];
        try discriminate; simpl; auto.
      * unfold handleSearchInputChange.
        now destruct (str_eqb (trim value) []).
      * unfold handleKeyPress.
        destruct (str_eqb pressed (lit "Enter")); simpl; [apply trim_idem|exact IH].
      * now destruct (pagination_rendered s0 && negb (previous_disabled s0)).
      * now destruct (pagination_rendered s0 && negb (next_disabled s0)).
Qed.

Lemma relaunch_resources_v2 (c : N) (rest : jsstring) (t : State) :
  API_KEY = Some (c :: rest) ->
  tracked (inflight t) (cleanup t) (next_rid t) ->
  (forall r, In r (inflight t) ->
     exists q p o, url (c :: rest) q p o = Ok (resource r)) ->
  resources_ok_Part000 (c :: rest) (effect API_KEY (run_cleanup t)).
Proof.
  intros HK T Hwf r Hr.
  destruct (relaunch_v2 c rest t HK T) as [_ [_ [Hold Hnew]]].
  pose proof (Part000Facts.effect_keeps_v2 API_KEY (run_cleanup t)) as Hk.
  pose proof (Part000Facts.run_cleanup_cells_v2 t) as Hcells.
  unfold cells in Hcells. injection Hcells as Em Ep Etp Ei Eq Es El Ee.
  destruct Hk as [_ [Hp [Hq [Hso _]]]].
  rewrite Hp, Hq, Ep, Eq, Hso, Es.
  destruct (Nat.eq_dec (rid r) (next_rid t)) as [Heq|Hne].
  - destruct (url (c :: rest) (query t) (page t) (sort t)) as [u|m] eqn:EB.
    + destruct Hnew as [_ [_ [_ Hu]]]. rewrite (Hu r Hr Heq). simpl.
      split; [|auto]. exists (query t), (page t), (sort t). exact EB.
    + destruct Hnew as [_ [_ Hno]]. elim (Hno r Hr Heq).
  - destruct (Hold r Hr Hne) as [Hc [r0 [Hr0 [_ Hres]]]].
    split.
    + rewrite <- Hres. now apply Hwf.
    + rewrite Hc. discriminate.
Qed.

Lemma reachable_resources_v2 (c : N) (rest : jsstring) (s : State) :
  API_KEY = Some (c :: rest) -> reachable API_KEY s ->
  resources_ok_Part000 (c :: rest) s.
Proof.
  intros HK Hs. pattern s. revert s Hs. apply reachable_ind_invariant_v2.
  - unfold mounted.
    change (effect API_KEY initial) with (effect API_KEY (run_cleanup initial)).
    apply relaunch_resources_v2; auto.
    + apply tracked_nil.
    + intros r [].
  - intros s0 e _ I IH.
    pose proof (Part000Facts.handle_invariant_v2 API_KEY s0 e I) as It.
    assert (Hwf : forall r, In r (inflight (handle e s0)) ->
              exists q p o, url (c :: rest) q p o = Ok (resource r)).
    { intros r Hr. destruct (handle_inflight_origin_v2 s0 e r Hr) as [r0 [Hr0 [_ [_ <-]]]].
      apply IH, Hr0. }
    unfold dispatch, rerender.
    destruct (deps_eqb (deps s0) (deps (handle e s0))) eqn:Ed.
    + apply deps_eqb_eq_v2 in Ed. unfold deps in Ed. injection Ed as Ep Eq Es.
      intros r Hr. split; [now apply Hwf|].
      destruct (handle_inflight_origin_v2 s0 e r Hr) as [r0 [Hr0 [_ [Hc <-]]]].
      rewrite <- Hc, <- Ep, <- Eq, <- Es. apply IH, Hr0.
    + apply relaunch_resources_v2; auto. apply (inv_tracked _ _ It).
Qed.

(** At most one call has its flag down. *)
Lemma one_live_v2 (s : State) (a b : Request) :
  reachable API_KEY s -> In a (inflight s) -> In b (inflight s) ->
  cancelled a = false -> cancelled b = false -> a = b.
Proof.
  intros Hs Ha Hb Ca Cb.
  pose proof (inv_tracked _ _ (Part000Facts.reachable_invariant_v2 API_KEY s Hs)) as T.
  apply (rid_injective (inflight s)); auto.
  - apply (tracked_nodup _ _ _ T).
  - pose proof (tracked_live _ _ _ T a Ha Ca) as H1.
    pose proof (tracked_live _ _ _ T b Hb Cb) as H2. congruence.
Qed.

(** What a user event launches. *)
Lemma user_event_launch_v2 (c : N) (rest : jsstring) (s : State) (e : Event) :
  API_KEY = Some (c :: rest) -> reachable API_KEY s ->
  event_request e = None ->
  let s' := dispatch API_KEY s e in
  (deps s' = deps s ->
   movies s' = movies s /\ loading s' = loading s /\ error s' = error s
   /\ inflight s' = inflight s /\ next_rid s' = next_rid s)
  /\ (deps s' <> deps s ->
      movies s' = movies s /\ next_rid s' = S (next_rid s)
      /\ (forall r, In r (inflight s') -> rid r <> next_rid s ->
            cancelled r = true)
      /\ match url (c :: rest) (query s') (page s') (sort s') with
         | Ok u =>
           loading s' = true /\ error s' = []
           /\ In {| rid := next_rid s; cancelled := false; stage := AwaitFetch;
                    resource := u |} (inflight s')
         | Throw m =>
           loading s' = false /\ error s' = or_else m fallback_message
         end).
Proof.
  intros HK Hs He s'.
  pose proof (Part000Facts.reachable_invariant_v2 API_KEY s Hs) as I.
  destruct (handle_user_frame_v2 s e He) as [Fm [Fl [Fe [Fi [Fc Fn]]]]].
  assert (T : tracked (inflight (handle e s)) (cleanup (handle e s))
                (next_rid (handle e s)))
    by (rewrite Fi, Fc, Fn; apply (inv_tracked _ _ I)).
  assert (Hdeps : deps s' = deps (handle e s)).
  { subst s'. unfold dispatch, deps.
    destruct (Part000Facts.rerender_keeps_v2 API_KEY s (handle e s)) as [_ [-> [-> [-> _]]]].
    reflexivity. }
  subst s'. unfold dispatch, rerender in *.
  destruct (deps_eqb (deps s) (deps (handle e s))) eqn:Ed.
  - split; [intros _; auto|].
    intros Hne. apply deps_eqb_eq_v2 in Ed. congruence.
  - split.
    + intros Heq. rewrite Hdeps in Heq. rewrite Heq, Part000Facts.deps_eqb_refl_v2 in Ed.
      discriminate.
    + intros _.
      destruct (relaunch_v2 c rest (handle e s) HK T)
        as [Hn [_ [Hold Hnew]]].
      pose proof (Part000Facts.effect_keeps_v2 API_KEY (run_cleanup (handle e s))) as Hk.
      pose proof (Part000Facts.run_cleanup_cells_v2 (handle e s)) as Hcells.
      unfold cells in Hcells. injection Hcells as Em Ep Etp Ei Eq Es El Ee.
      destruct Hk as [Hm [Hp [Hq [Hso _]]]].
      rewrite Fn in Hold, Hnew.
      rewrite Hm, Hp, Hq, Em, Ep, Eq, Hn, Fm, Fn, Hso, Es.
      split; [reflexivity|]. split; [reflexivity|]. split.
      * intros r Hr Hne. apply (Hold r Hr Hne).
      * destruct (url (c :: rest) (query (handle e s)) (page (handle e s)) (sort (handle e s)))
          as [u|m].
        -- destruct Hnew as [H1 [H2 [H3 _]]]. auto.
        -- destruct Hnew as [H1 [H2 _]]. auto.
Qed.

End More.
End Part000More.

(** ** The sorted view *)

Lemma Array_sort_idem {A} (comparefn : A -> A -> comparison)
    (le : A -> A -> Prop) (same : A -> A -> bool) :
  (forall x, le x x) ->
  (forall x y z, le x y -> le y z -> le x z) ->
  (forall x y, comparefn x y = Gt -> le y x) ->
  (forall x y, comparefn x y <> Gt -> le x y) ->
  (forall x y, le x y -> le y x -> same x y = true) ->
  (forall r x y, same r x = true -> same r y = true -> comparefn x y <> Gt) ->
  forall l, Array_sort comparefn (Array_sort comparefn l) = Array_sort comparefn l.
Proof.
  intros Hrefl Htrans Hgt Hle Hsame Htie l. symmetry.
  apply (Array_sort_determined comparefn le same); auto.
  now apply Array_sort_sorted.
Qed.

Lemma StronglySorted_snoc {A} (R : A -> A -> Prop) (l : list A) (x : A) :
  StronglySorted R l -> Forall (fun y => R y x) l -> StronglySorted R (l ++ [x]).
Proof.
  induction 1 as [|a l Hl IH Ha]; intros Hx; simpl.
  - constructor; constructor.
  - inversion Hx as [|? ? Hax Hlx]; subst. constructor.
    + now apply IH.
    + apply Forall_app. split; [exact Ha|]. constructor; [exact Hax|constructor].
Qed.

Lemma StronglySorted_rev {A} (R : A -> A -> Prop) (l : list A) :
  StronglySorted R l -> StronglySorted (fun a b => R b a) (rev l).
Proof.
  induction 1 as [|a l Hl IH Ha]; simpl.
  - constructor.
  - apply StronglySorted_snoc; [exact IH|].
    apply Forall_rev. exact Ha.
Qed.

Lemma rev_short {A} (l : list A) : (List.length l <= 1)%nat -> rev l = l.
Proof.
  destruct l as [|a [|b l]]; simpl; try reflexivity. lia.
Qed.

Lemma filter_rev_eq {A} (f : A -> bool) (l : list A) :
  filter f (rev l) = rev (filter f l).
Proof.
  induction l as [|a l IH]; simpl; [reflexivity|].
  rewrite filter_app, IH. simpl.
  destruct (f a); simpl; [reflexivity|apply app_nil_r].
Qed.

(** With no two keys equal, the descending order is the ascending one read
    backwards. *)
Lemma release_desc_rev Date_parse (l : list MovieRecord) :
  distinct_keys (same_date Date_parse) l ->
  Array_sort (release_desc Date_parse) l
  = rev (Array_sort (release_asc Date_parse) l).
Proof.
  intros Hd. symmetry. apply release_desc_determined.
  - eapply perm_trans; [apply Permutation_sym, Permutation_rev|].
    apply Array_sort_perm.
  - apply (StronglySorted_rev
             (fun a b => dateVal Date_parse a <= dateVal Date_parse b)).
    apply release_asc_sorted.
  - intros r. rewrite filter_rev_eq.
    rewrite (Array_sort_stable _ _ (same_date_asc Date_parse r)).
    apply rev_short, Hd.
Qed.

Lemma rating_desc_rev (l : list MovieRecord) :
  distinct_keys same_rating l ->
  Array_sort rating_desc l = rev (Array_sort rating_asc l).
Proof.
  intros Hd. symmetry. apply rating_desc_determined.
  - eapply perm_trans; [apply Permutation_sym, Permutation_rev|].
    apply Array_sort_perm.
  - apply (StronglySorted_rev (fun a b => (ratingVal a <= ratingVal b)%Q)).
    apply rating_asc_sorted.
  - intros r. rewrite filter_rev_eq.
    rewrite (Array_sort_stable _ _ (same_rating_asc r)).
    apply rev_short, Hd.
Qed.

Lemma release_asc_idem Date_parse (l : list MovieRecord) :
  Array_sort (release_asc Date_parse) (Array_sort (release_asc Date_parse) l)
  = Array_sort (release_asc Date_parse) l.
Proof.
  symmetry. apply release_asc_determined; auto. apply release_asc_sorted.
Qed.

Lemma release_desc_idem Date_parse (l : list MovieRecord) :
  Array_sort (release_desc Date_parse) (Array_sort (release_desc Date_parse) l)
  = Array_sort (release_desc Date_parse) l.
Proof.
  symmetry. apply release_desc_determined; auto. apply release_desc_sorted.
Qed.

Lemma rating_asc_idem (l : list MovieRecord) :
  Array_sort rating_asc (Array_sort rating_asc l) = Array_sort rating_asc l.
Proof.
  symmetry. apply rating_asc_determined; auto. apply rating_asc_sorted.
Qed.

Lemma rating_desc_idem (l : list MovieRecord) :
  Array_sort rating_desc (Array_sort rating_desc l) = Array_sort rating_desc l.
Proof.
  symmetry. apply rating_desc_determined; auto. apply rating_desc_sorted.
Qed.

(** X1 -- In both versions, under each of the four sort keys [sortedMovies]
    is in order: [dateVal] does not decrease under the ascending date key and
    does not increase under the descending one, and likewise [ratingVal]
    under the two rating keys; in the second version this is so when a query
    is submitted.  Under any other key the stored list is returned as it
    is. *)
Theorem sortedMovies_ordered :
  (forall Date_parse l,
     StronglySorted (fun a b => dateVal Date_parse a <= dateVal Date_parse b)
       (MovieJs.sortedMovies Date_parse l (lit "release_asc"))
     /\ StronglySorted (fun a b => dateVal Date_parse b <= dateVal Date_parse a)
          (MovieJs.sortedMovies Date_parse l (lit "release_desc"))
     /\ StronglySorted (fun a b => (ratingVal a <= ratingVal b)%Q)
          (MovieJs.sortedMovies Date_parse l (lit "rating_asc"))
     /\ StronglySorted (fun a b => (ratingVal b <= ratingVal a)%Q)
          (MovieJs.sortedMovies Date_parse l (lit "rating_desc")))
  /\ (forall Date_parse l sort,
        sort <> lit "release_asc" -> sort <> lit "release_desc" ->
        sort <> lit "rating_asc" -> sort <> lit "rating_desc" ->
        MovieJs.sortedMovies Date_parse l sort = l)
  /\ (forall Date_parse l query,
        truthy query = true ->
        StronglySorted (fun a b => dateVal Date_parse a <= dateVal Date_parse b)
          (Part000.sortedMovies Date_parse l (lit "release_date.asc") query)
        /\ StronglySorted (fun a b => dateVal Date_parse b <= dateVal Date_parse a)
             (Part000.sortedMovies Date_parse l (lit "release_date.desc") query)
        /\ StronglySorted (fun a b => (ratingVal a <= ratingVal b)%Q)
             (Part000.sortedMovies Date_parse l (lit "vote_average.asc") query)
        /\ StronglySorted (fun a b => (ratingVal b <= ratingVal a)%Q)
             (Part000.sortedMovies Date_parse l (lit "vote_average.desc") query))
  /\ (forall Date_parse l sort query,
        sort <> lit "release_date.asc" -> sort <> lit "release_date.desc" ->
        sort <> lit "vote_average.asc" -> sort <> lit "vote_average.desc" ->
        Part000.sortedMovies Date_parse l sort query = l).
Proof.
  split; [|split; [|split]].
  - intros D l. split; [apply release_asc_sorted|].
    split; [apply release_desc_sorted|].
    split; [apply rating_asc_sorted|apply rating_desc_sorted].
  - intros D l sort H1 H2 H3 H4. unfold MovieJs.sortedMovies.
    destruct (str_eqb sort (lit "release_asc")) eqn:E1;
      [apply str_eqb_eq in E1; contradiction|].
    destruct (str_eqb sort (lit "release_desc")) eqn:E2;
      [apply str_eqb_eq in E2; contradiction|].
    destruct (str_eqb sort (lit "rating_asc")) eqn:E3;
      [apply str_eqb_eq in E3; contradiction|].
    destruct (str_eqb sort (lit "rating_desc")) eqn:E4;
      [apply str_eqb_eq in E4; contradiction|].
    reflexivity.
  - intros D l query Hq. unfold Part000.sortedMovies. rewrite Hq.
    split; [apply release_asc_sorted|].
    split; [apply release_desc_sorted|].
    split; [apply rating_asc_sorted|apply rating_desc_sorted].
  - intros D l sort query H1 H2 H3 H4. unfold Part000.sortedMovies.
    destruct (negb (truthy query) || negb (truthy sort)); [reflexivity|].
    destruct (str_eqb sort (lit "release_date.asc")) eqn:E1;
      [apply str_eqb_eq in E1; contradiction|].
    destruct (str_eqb sort (lit "release_date.desc")) eqn:E2;
      [apply str_eqb_eq in E2; contradiction|].
    destruct (str_eqb sort (lit "vote_average.asc")) eqn:E3;
      [apply str_eqb_eq in E3; contradiction|].
    destruct (str_eqb sort (lit "vote_average.desc")) eqn:E4;
      [apply str_eqb_eq in E4; contradiction|].
    reflexivity.
Qed.

Lemma sortedMovies_ordered_witness :
  StronglySorted (fun a b => (ratingVal b <= ratingVal a)%Q)
    (Part000.sortedMovies Date_parse_iso [film_A; undated_2; film_1960; film_B]
       (lit "vote_average.desc") (lit "psycho"))
  /\ MovieJs.sortedMovies Date_parse_iso [film_A; film_B] (lit "popularity.desc")
     = [film_A; film_B].
Proof.
  split.
  - exact (proj2 (proj2 (proj2 (proj1 (proj2 (proj2 sortedMovies_ordered))
                                  Date_parse_iso
                                  [film_A; undated_2; film_1960; film_B]
                                  (lit "psycho") eq_refl)))).
  - refine (proj1 (proj2 sortedMovies_ordered) Date_parse_iso [film_A; film_B]
              (lit "popularity.desc") _ _ _ _); vm_compute; discriminate.
Defined.

(** X2 -- In both versions, sorting the sorted view again under the same key
    changes nothing. *)
Theorem sortedMovies_idempotent :
  (forall Date_parse l sort,
     MovieJs.sortedMovies Date_parse (MovieJs.sortedMovies Date_parse l sort) sort
     = MovieJs.sortedMovies Date_parse l sort)
  /\ (forall Date_parse l sort query,
        Part000.sortedMovies Date_parse
          (Part000.sortedMovies Date_parse l sort query) sort query
        = Part000.sortedMovies Date_parse l sort query).
Proof.
  split.
  - intros D l sort. unfold MovieJs.sortedMovies.
    destruct (str_eqb sort (lit "release_asc")); [apply release_asc_idem|].
    destruct (str_eqb sort (lit "release_desc")); [apply release_desc_idem|].
    destruct (str_eqb sort (lit "rating_asc")); [apply rating_asc_idem|].
    destruct (str_eqb sort (lit "rating_desc")); [apply rating_desc_idem|].
    reflexivity.
  - intros D l sort query. unfold Part000.sortedMovies.
    destruct (negb (truthy query) || negb (truthy sort)); [reflexivity|].
    destruct (str_eqb sort (lit "release_date.asc")); [apply release_asc_idem|].
    destruct (str_eqb sort (lit "release_date.desc")); [apply release_desc_idem|].
    destruct (str_eqb sort (lit "vote_average.asc")); [apply rating_asc_idem|].
    destruct (str_eqb sort (lit "vote_average.desc")); [apply rating_desc_idem|].
    reflexivity.
Qed.

(** A list without repetition that reads the same backwards has at most one
    element. *)
Lemma rev_fixed_short {A} (f : list A) :
  NoDup f -> rev f = f -> (List.length f <= 1)%nat.
Proof.
  destruct f as [|a [|b f]]; simpl; intros Hn Hr; try lia.
  exfalso. inversion Hn as [|? ? Hna _]; subst. apply Hna.
  assert (Hin : In a (rev f ++ [b])).
  { destruct (rev f ++ [b]) as [|c g] eqn:E.
    - destruct (rev f); discriminate.
    - simpl in Hr. injection Hr as -> _. now left. }
  apply in_app_or in Hin. destruct Hin as [Hin|[<-|[]]].
  - right. now apply in_rev.
  - now left.
Qed.

(** Two different records with the same key keep their order under both
    comparators, so the one view is not the other read backwards. *)
Lemma tie_not_reverse {A} (asc desc : A -> A -> comparison)
    (same : A -> A -> bool) (l : list A) (a b : A) :
  (forall r x y, same r x = true -> same r y = true -> asc x y <> Gt) ->
  (forall r x y, same r x = true -> same r y = true -> desc x y <> Gt) ->
  same a a = true -> same a b = true ->
  NoDup l -> In a l -> In b l -> a <> b ->
  Array_sort desc l <> rev (Array_sort asc l).
Proof.
  intros Ha Hd Haa Hab Hn Hia Hib Hne E.
  assert (F : filter (same a) (Array_sort desc l)
              = filter (same a) (rev (Array_sort asc l))) by now rewrite E.
  rewrite filter_rev_eq in F.
  rewrite (Array_sort_stable _ _ (Hd a)) in F.
  rewrite (Array_sort_stable _ _ (Ha a)) in F.
  assert (L : (List.length (filter (same a) l) <= 1)%nat).
  { apply rev_fixed_short; [now apply NoDup_filter|now symmetry]. }
  assert (Ia : In a (filter (same a) l)) by (apply filter_In; auto).
  assert (Ib : In b (filter (same a) l)) by (apply filter_In; auto).
  destruct (filter (same a) l) as [|x [|y f]]; simpl in L.
  - destruct Ia.
  - destruct Ia as [<-|[]]. destruct Ib as [<-|[]]. now apply Hne.
  - lia.
Qed.

Lemma release_tie_not_reverse Date_parse (l : list MovieRecord) (a b : MovieRecord) :
  NoDup l -> In a l -> In b l -> a <> b -> same_date Date_parse a b = true ->
  Array_sort (release_desc Date_parse) l
  <> rev (Array_sort (release_asc Date_parse) l).
Proof.
  intros Hn Hia Hib Hne Hab.
  apply (tie_not_reverse _ _ (same_date Date_parse) l a b); auto.
  - apply same_date_asc.
  - apply same_date_desc.
  - unfold same_date. apply Z.eqb_refl.
Qed.

Lemma rating_tie_not_reverse (l : list MovieRecord) (a b : MovieRecord) :
  NoDup l -> In a l -> In b l -> a <> b -> same_rating a b = true ->
  Array_sort rating_desc l <> rev (Array_sort rating_asc l).
Proof.
  intros Hn Hia Hib Hne Hab.
  apply (tie_not_reverse _ _ same_rating l a b); auto.
  - apply same_rating_asc.
  - apply same_rating_desc.
  - unfold same_rating. apply Qeq_bool_iff. reflexivity.
Qed.

(** Without a submitted query the second version shows the stored list as it
    is, under every sort key. *)
Lemma sortedMovies_unsorted_Part000 Date_parse (l : list MovieRecord)
    (sort query : jsstring) :
  truthy query = false -> Part000.sortedMovies Date_parse l sort query = l.
Proof.
  intros Hq. unfold Part000.sortedMovies. now rewrite Hq.
Qed.

(** X3 -- In both versions, when no two stored records have the same
    comparison key, the view under a descending key is the view under the
    ascending key of the same kind read backwards.  When the stored records
    are pairwise different and two of them have the same comparison key, it
    is not.  In the second version both hold when a query is submitted;
    without a submitted query every key shows the stored list as it is. *)
Theorem descending_is_reverse :
  (forall Date_parse l,
     (distinct_keys (same_date Date_parse) l ->
      MovieJs.sortedMovies Date_parse l (lit "release_desc")
      = rev (MovieJs.sortedMovies Date_parse l (lit "release_asc")))
     /\ (distinct_keys same_rating l ->
         MovieJs.sortedMovies Date_parse l (lit "rating_desc")
         = rev (MovieJs.sortedMovies Date_parse l (lit "rating_asc")))
     /\ (forall a b,
           NoDup l -> In a l -> In b l -> a <> b ->
           same_date Date_parse a b = true ->
           MovieJs.sortedMovies Date_parse l (lit "release_desc")
           <> rev (MovieJs.sortedMovies Date_parse l (lit "release_asc")))
     /\ (forall a b,
           NoDup l -> In a l -> In b l -> a <> b ->
           same_rating a b = true ->
           MovieJs.sortedMovies Date_parse l (lit "rating_desc")
           <> rev (MovieJs.sortedMovies Date_parse l (lit "rating_asc"))))
  /\ (forall Date_parse l query,
        truthy query = true ->
        (distinct_keys (same_date Date_parse) l ->
         Part000.sortedMovies Date_parse l (lit "release_date.desc") query
         = rev (Part000.sortedMovies Date_parse l (lit "release_date.asc") query))
        /\ (distinct_keys same_rating l ->
            Part000.sortedMovies Date_parse l (lit "vote_average.desc") query
            = rev (Part000.sortedMovies Date_parse l (lit "vote_average.asc") query))
        /\ (forall a b,
              NoDup l -> In a l -> In b l -> a <> b ->
              same_date Date_parse a b = true ->
              Part000.sortedMovies Date_parse l (lit "release_date.desc") query
              <> rev (Part000.sortedMovies Date_parse l (lit "release_date.asc")
                        query))
        /\ (forall a b,
              NoDup l -> In a l -> In b l -> a <> b ->
              same_rating a b = true ->
              Part000.sortedMovies Date_parse l (lit "vote_average.desc") query
              <> rev (Part000.sortedMovies Date_parse l (lit "vote_average.asc")
                        query)))
  /\ (forall Date_parse l sort query,
        truthy query = false ->
        Part000.sortedMovies Date_parse l sort query = l).
Proof.
  split; [|split].
  - intros D l. split; [|split; [|split]].
    + intros Hd. now apply release_desc_rev.
    + intros Hd. now apply rating_desc_rev.
    + intros a b. apply release_tie_not_reverse.
    + intros a b. apply rating_tie_not_reverse.
  - intros D l query Hq. unfold Part000.sortedMovies. rewrite Hq.
    split; [|split; [|split]].
    + intros Hd. now apply release_desc_rev.
    + intros Hd. now apply rating_desc_rev.
    + intros a b. apply release_tie_not_reverse.
    + intros a b. apply rating_tie_not_reverse.
  - apply sortedMovies_unsorted_Part000.
Qed.

Lemma descending_is_reverse_witness :
  MovieJs.sortedMovies Date_parse_iso [film_A; film_1960; film_B] (lit "release_desc")
  = rev (MovieJs.sortedMovies Date_parse_iso [film_A; film_1960; film_B]
           (lit "release_asc"))
  /\ Part000.sortedMovies Date_parse_iso [film_A; film_1960; film_B]
       (lit "vote_average.desc") (lit "a")
     = rev (Part000.sortedMovies Date_parse_iso [film_A; film_1960; film_B]
              (lit "vote_average.asc") (lit "a"))
  /\ MovieJs.sortedMovies Date_parse_iso [undated_1; film_A; undated_2]
       (lit "release_desc")
     <> rev (MovieJs.sortedMovies Date_parse_iso [undated_1; film_A; undated_2]
               (lit "release_asc"))
  /\ Part000.sortedMovies Date_parse_iso [undated_1; film_A; undated_2]
       (lit "release_date.desc") []
     = [undated_1; film_A; undated_2].
Proof.
  split; [|split; [|split]].
  - refine (proj1 (proj1 descending_is_reverse Date_parse_iso
                     [film_A; film_1960; film_B]) _).
    intros r. unfold same_date. simpl.
    change (dateVal Date_parse_iso film_A) with 1577836800000.
    change (dateVal Date_parse_iso film_1960) with (-303868800000).
    change (dateVal Date_parse_iso film_B) with 915148800000.
    destruct (Z.eqb_spec (dateVal Date_parse_iso r) 1577836800000);
      destruct (Z.eqb_spec (dateVal Date_parse_iso r) (-303868800000));
      destruct (Z.eqb_spec (dateVal Date_parse_iso r) 915148800000);
      simpl; lia.
  - refine (proj1 (proj2 (proj1 (proj2 descending_is_reverse) Date_parse_iso
                            [film_A; film_1960; film_B] (lit "a") eq_refl)) _).
    intros r. unfold same_rating. simpl.
    change (ratingVal film_A) with (5 # 1)%Q.
    change (ratingVal film_1960) with (84 # 10)%Q.
    change (ratingVal film_B) with (8 # 1)%Q.
    destruct (Qeq_bool (ratingVal r) (5 # 1)) eqn:E1;
      destruct (Qeq_bool (ratingVal r) (84 # 10)) eqn:E2;
      destruct (Qeq_bool (ratingVal r) (8 # 1)) eqn:E3;
      simpl; try lia;
      rewrite ?Qeq_bool_iff in *; exfalso.
    + assert (H : (5 # 1 == 84 # 10)%Q) by (rewrite <- E1; exact E2).
      discriminate H.
    + assert (H : (5 # 1 == 84 # 10)%Q) by (rewrite <- E1; exact E2).
      discriminate H.
    + assert (H : (5 # 1 == 8 # 1)%Q) by (rewrite <- E1; exact E3).
      discriminate H.
    + assert (H : (84 # 10 == 8 # 1)%Q) by (rewrite <- E2; exact E3).
      discriminate H.
  - refine (proj1 (proj2 (proj2 (proj1 descending_is_reverse Date_parse_iso
                                   [undated_1; film_A; undated_2])))
              undated_1 undated_2 _ _ _ _ eq_refl).
    + apply (NoDup_map_inv id). simpl.
      repeat constructor; simpl; intuition discriminate.
    + now left.
    + right. right. now left.
    + discriminate.
  - exact (proj2 (proj2 descending_is_reverse) Date_parse_iso
             [undated_1; film_A; undated_2] (lit "release_date.desc") [] eq_refl).
Defined.

(** With a tie the two views are not each other's reverse: the records
    without a date keep their order in both. *)
Example descending_with_ties :
  map id (MovieJs.sortedMovies Date_parse_iso [undated_1; film_A; undated_2]
            (lit "release_asc")) = [11; 12; 1]
  /\ map id (MovieJs.sortedMovies Date_parse_iso [undated_1; film_A; undated_2]
               (lit "release_desc")) = [1; 11; 12].
Proof. split; reflexivity. Qed.

(** ** Records without a rating *)

Lemma unrated_ratingVal (m : MovieRecord) :
  unrated m = true -> (ratingVal m == 0)%Q.
Proof.
  unfold unrated, ratingVal. destruct (vote_average m); [discriminate|].
  reflexivity.
Qed.

Lemma rated_above_zero_lt (m : MovieRecord) :
  rated_above_zero m = true -> (0 < ratingVal m)%Q.
Proof.
  unfold rated_above_zero, ratingVal. destruct (vote_average m) as [v|];
    [|discriminate].
  rewrite negb_true_iff. intros H. apply Qnot_le_lt. intros Hle.
  apply Qle_bool_iff in Hle. congruence.
Qed.

Lemma rated_below_zero_lt (m : MovieRecord) :
  rated_below_zero m = true -> (ratingVal m < 0)%Q.
Proof.
  unfold rated_below_zero, ratingVal. destruct (vote_average m) as [v|];
    [|discriminate].
  rewrite negb_true_iff. intros H. apply Qnot_le_lt. intros Hle.
  apply Qle_bool_iff in Hle. congruence.
Qed.

Lemma rating_asc_classes (movies : list MovieRecord) :
  all_before unrated rated_above_zero (Array_sort rating_asc movies)
  /\ all_before rated_below_zero unrated (Array_sort rating_asc movies).
Proof.
  split.
  - apply (sorted_all_before _ _ _ _ (rating_asc_sorted movies)).
    + intros x. apply Qle_refl.
    + intros x y Hx Hy. apply unrated_ratingVal in Hx.
      apply rated_above_zero_lt in Hy. lra.
  - apply (sorted_all_before _ _ _ _ (rating_asc_sorted movies)).
    + intros x. apply Qle_refl.
    + intros x y Hx Hy. apply unrated_ratingVal in Hy.
      apply rated_below_zero_lt in Hx. lra.
Qed.

Lemma rating_desc_classes (movies : list MovieRecord) :
  all_before rated_above_zero unrated (Array_sort rating_desc movies)
  /\ all_before unrated rated_below_zero (Array_sort rating_desc movies).
Proof.
  split.
  - apply (sorted_all_before _ _ _ _ (rating_desc_sorted movies)).
    + intros x. apply Qle_refl.
    + intros x y Hx Hy. apply unrated_ratingVal in Hy.
      apply rated_above_zero_lt in Hx. lra.
  - apply (sorted_all_before _ _ _ _ (rating_desc_sorted movies)).
    + intros x. apply Qle_refl.
    + intros x y Hx Hy. apply unrated_ratingVal in Hx.
      apply rated_below_zero_lt in Hy. lra.
Qed.

(** X4 -- A record whose [vote_average] is not a number takes the rating 0.
    In [Movie.js], and in the second version when a query is submitted, under
    the ascending rating key it stands before every record rated above zero
    and after every record rated below zero, and under the descending rating
    key the other way round; it ties with the records rated exactly zero.
    Without a submitted query the second version does not order the records
    at all: the stored list is shown as it is. *)
Theorem records_without_rating_order :
  (forall m, unrated m = true -> (ratingVal m == 0)%Q)
  /\ (forall Date_parse movies,
        all_before unrated rated_above_zero
          (MovieJs.sortedMovies Date_parse movies (lit "rating_asc"))
        /\ all_before rated_below_zero unrated
             (MovieJs.sortedMovies Date_parse movies (lit "rating_asc"))
        /\ all_before rated_above_zero unrated
             (MovieJs.sortedMovies Date_parse movies (lit "rating_desc"))
        /\ all_before unrated rated_below_zero
             (MovieJs.sortedMovies Date_parse movies (lit "rating_desc")))
  /\ (forall Date_parse movies query,
        truthy query = true ->
        all_before unrated rated_above_zero
          (Part000.sortedMovies Date_parse movies (lit "vote_average.asc") query)
        /\ all_before rated_below_zero unrated
             (Part000.sortedMovies Date_parse movies (lit "vote_average.asc") query)
        /\ all_before rated_above_zero unrated
             (Part000.sortedMovies Date_parse movies (lit "vote_average.desc") query)
        /\ all_before unrated rated_below_zero
             (Part000.sortedMovies Date_parse movies (lit "vote_average.desc") query))
  /\ (forall Date_parse a b,
        unrated a = true -> vote_average b = Some (0 # 1) ->
        same_key_MovieJs Date_parse (lit "rating_asc") a b = true
        /\ same_key_Part000 Date_parse (lit "vote_average.asc") a b = true)
  /\ (forall Date_parse movies sort query,
        truthy query = false ->
        Part000.sortedMovies Date_parse movies sort query = movies).
Proof.
  split; [apply unrated_ratingVal|]. split; [|split; [|split]].
  - intros D movies.
    destruct (rating_asc_classes movies) as [A1 A2].
    destruct (rating_desc_classes movies) as [D1 D2].
    repeat split; assumption.
  - intros D movies query Hq. unfold Part000.sortedMovies. rewrite Hq.
    destruct (rating_asc_classes movies) as [A1 A2].
    destruct (rating_desc_classes movies) as [D1 D2].
    repeat split; assumption.
  - intros D a b Ha Hb.
    assert (H : same_rating a b = true).
    { unfold same_rating. apply Qeq_bool_iff.
      rewrite (unrated_ratingVal a Ha). unfold ratingVal. rewrite Hb.
      reflexivity. }
    split; exact H.
  - apply sortedMovies_unsorted_Part000.
Qed.

Lemma records_without_rating_order_witness :
  all_before unrated rated_above_zero
    (Part000.sortedMovies Date_parse_iso [film_A; undated_2; film_B]
       (lit "vote_average.asc") (lit "a"))
  /\ (ratingVal undated_2 == 0)%Q
  /\ same_key_MovieJs Date_parse_iso (lit "rating_asc") undated_2 undated_1 = true
  /\ Part000.sortedMovies Date_parse_iso [film_A; undated_2; film_B]
       (lit "vote_average.asc") []
     = [film_A; undated_2; film_B].
Proof.
  split; [|split; [|split]].
  - exact (proj1 (proj1 (proj2 (proj2 records_without_rating_order)) Date_parse_iso
                    [film_A; undated_2; film_B] (lit "a") eq_refl)).
  - exact (proj1 records_without_rating_order undated_2 eq_refl).
  - exact (proj1 (proj1 (proj2 (proj2 (proj2 records_without_rating_order)))
                    Date_parse_iso undated_2 undated_1 eq_refl eq_refl)).
  - exact (proj2 (proj2 (proj2 (proj2 records_without_rating_order)))
             Date_parse_iso [film_A; undated_2; film_B] (lit "vote_average.asc")
             [] eq_refl).
Defined.

(** ** The missing key *)

Lemma sortedMovies_nil_MovieJs Date_parse (sort : jsstring) :
  MovieJs.sortedMovies Date_parse [] sort = [].
Proof.
  unfold MovieJs.sortedMovies. now repeat destruct (str_eqb _ _).
Qed.

Lemma sortedMovies_nil_Part000 Date_parse (sort query : jsstring) :
  Part000.sortedMovies Date_parse [] sort query = [].
Proof.
  unfold Part000.sortedMovies. destruct (_ || _); [reflexivity|].
  now repeat destruct (str_eqb _ _).
Qed.

(** X5 -- When [REACT_APP_TMDB_API_KEY] is missing or empty, in every
    reachable state of both versions no request has been launched, nothing is
    loading, the stored movies are the empty array and the error message is
    the one that asks for the key, whatever the user does; [Movie.js] shows
    that message above an empty grid, and the second version shows it
    without grid or pager. *)
Theorem missing_key_is_terminal :
  (forall API_KEY Date_parse s,
     truthy_opt API_KEY = false -> MovieJs.reachable API_KEY s ->
     MovieJs.inflight s = [] /\ MovieJs.next_rid s = 0%nat
     /\ MovieJs.loading s = false /\ MovieJs.movies s = JArr []
     /\ MovieJs.error s = missing_key_message
     /\ exists screen,
          render_MovieJs Date_parse s = Some screen
          /\ loading_line screen = false
          /\ error_line screen = Some missing_key_message
          /\ grid_region screen = Some (Cards []))
  /\ (forall API_KEY Date_parse s,
        truthy_opt API_KEY = false -> Part000.reachable API_KEY s ->
        Part000.inflight s = [] /\ Part000.next_rid s = 0%nat
        /\ Part000.loading s = false /\ Part000.movies s = JArr []
        /\ Part000.error s = missing_key_message
        /\ exists screen,
             render_Part000 Date_parse s = Some screen
             /\ loading_line screen = false
             /\ error_line screen = Some missing_key_message
             /\ grid_region screen = None /\ pager_region screen = None).
Proof.
  split.
  - intros K D s HK Hs.
    destruct (MovieJsMore.missing_key_state K s HK Hs)
      as [Hi [Hl [He [Hm [Hn _]]]]].
    repeat (split; [assumption|]).
    unfold render_MovieJs. rewrite Hm, Hl, He. eexists. split; [reflexivity|].
    simpl. rewrite sortedMovies_nil_MovieJs. repeat split.
  - intros K D s HK Hs.
    destruct (Part000More.missing_key_state_v2 K s HK Hs)
      as [Hi [Hl [He [Hm [Hn _]]]]].
    repeat (split; [assumption|]).
    unfold render_Part000. rewrite Hm, Hl, He. eexists. split; [reflexivity|].
    simpl. repeat split.
Qed.

Lemma missing_key_is_terminal_witness :
  MovieJs.error
    (MovieJs.run None
       [MovieJs.Change (lit "dune"); MovieJs.Submit; MovieJs.ClickNext])
  = missing_key_message
  /\ Part000.inflight
       (Part000.run (Some [])
          [Part000.Change (lit "dune"); Part000.KeyPress (lit "Enter");
           Part000.SelectSort (lit "vote_average.desc")])
     = [].
Proof.
  split.
  - exact (proj1 (proj2 (proj2 (proj2 (proj2
             (proj1 missing_key_is_terminal None Date_parse_iso _ eq_refl
                (MovieJsFacts.run_reachable _ _))))))).
  - exact (proj1 (proj2 missing_key_is_terminal (Some []) Date_parse_iso _ eq_refl
                    (Part000Facts.run_reachable_v2 _ _))).
Defined.

(** ** One current request *)

(** X6 -- In every reachable state of both versions at most one request in
    flight has its [cancelled] flag down: two such requests are the same
    one. *)
Theorem at_most_one_live_request :
  (forall API_KEY s a b,
     MovieJs.reachable API_KEY s ->
     In a (MovieJs.inflight s) -> In b (MovieJs.inflight s) ->
     cancelled a = false -> cancelled b = false -> a = b)
  /\ (forall API_KEY s a b,
        Part000.reachable API_KEY s ->
        In a (Part000.inflight s) -> In b (Part000.inflight s) ->
        cancelled a = false -> cancelled b = false -> a = b).
Proof.
  split.
  - intros K s a b. apply MovieJsMore.one_live.
  - intros K s a b. apply Part000More.one_live_v2.
Qed.

Example two_in_flight_one_live :
  map (fun r => (rid r, cancelled r)) (MovieJs.inflight overlapping_MovieJs)
  = [(1%nat, false); (0%nat, true)].
Proof. reflexivity. Qed.

Lemma at_most_one_live_request_witness :
  hd first_request (MovieJs.inflight overlapping_MovieJs)
  = nth 0 (MovieJs.inflight overlapping_MovieJs) first_request
  /\ hd first_request (Part000.inflight overlapping_Part000)
     = nth 0 (Part000.inflight overlapping_Part000) first_request.
Proof.
  split.
  - refine (proj1 at_most_one_live_request sample_key overlapping_MovieJs
              (hd first_request (MovieJs.inflight overlapping_MovieJs))
              (nth 0 (MovieJs.inflight overlapping_MovieJs) first_request)
              (MovieJsFacts.run_reachable _ _) _ _ eq_refl eq_refl);
      vm_compute; left; reflexivity.
  - refine (proj2 at_most_one_live_request sample_key overlapping_Part000
              (hd first_request (Part000.inflight overlapping_Part000))
              (nth 0 (Part000.inflight overlapping_Part000) first_request)
              (Part000Facts.run_reachable_v2 _ _) _ _ eq_refl eq_refl);
      vm_compute; left; reflexivity.
Defined.

(** ** What launches a request *)

(** X7 -- With a configured key, in both versions a user event runs the
    effect exactly when it changes a dependency (the page or the query, and
    the sort key in the second version).  When none changes, the stored
    movies, the loading flag, the error message and the requests in flight
    are as before: submitting again the query on display launches nothing.
    When one changes, the stored movies are kept, every request that was in
    flight is cancelled, and the URL for the new state is built: if that
    succeeds the loading flag is raised, the error message cleared and the
    request for that URL launched, and if it throws the message of the
    exception is stored and nothing is loading. *)
Theorem user_event_launches :
  (forall c rest s e,
     MovieJs.reachable (Some (c :: rest)) s -> MovieJs.event_request e = None ->
     let s' := MovieJs.dispatch (Some (c :: rest)) s e in
     (MovieJs.deps s' = MovieJs.deps s ->
      MovieJs.movies s' = MovieJs.movies s
      /\ MovieJs.loading s' = MovieJs.loading s
      /\ MovieJs.error s' = MovieJs.error s
      /\ MovieJs.inflight s' = MovieJs.inflight s
      /\ MovieJs.next_rid s' = MovieJs.next_rid s)
     /\ (MovieJs.deps s' <> MovieJs.deps s ->
         MovieJs.movies s' = MovieJs.movies s
         /\ MovieJs.next_rid s' = S (MovieJs.next_rid s)
         /\ (forall r, In r (MovieJs.inflight s') ->
               rid r <> MovieJs.next_rid s -> cancelled r = true)
         /\ match MovieJs.base (c :: rest) (MovieJs.query s') (MovieJs.page s') with
            | Ok u =>
              MovieJs.loading s' = true /\ MovieJs.error s' = []
              /\ In {| rid := MovieJs.next_rid s; cancelled := false;
                       stage := AwaitFetch; resource := u |}
                    (MovieJs.inflight s')
            | Throw m =>
              MovieJs.loading s' = false
              /\ MovieJs.error s' = or_else m fallback_message
            end))
  /\ (forall c rest s e,
        Part000.reachable (Some (c :: rest)) s -> Part000.event_request e = None ->
        let s' := Part000.dispatch (Some (c :: rest)) s e in
        (Part000.deps s' = Part000.deps s ->
         Part000.movies s' = Part000.movies s
         /\ Part000.loading s' = Part000.loading s
         /\ Part000.error s' = Part000.error s
         /\ Part000.inflight s' = Part000.inflight s
         /\ Part000.next_rid s' = Part000.next_rid s)
        /\ (Part000.deps s' <> Part000.deps s ->
            Part000.movies s' = Part000.movies s
            /\ Part000.next_rid s' = S (Part000.next_rid s)
            /\ (forall r, In r (Part000.inflight s') ->
                  rid r <> Part000.next_rid s -> cancelled r = true)
            /\ match Part000.url (c :: rest) (Part000.query s') (Part000.page s')
                       (Part000.sort s') with
               | Ok u =>
                 Part000.loading s' = true /\ Part000.error s' = []
                 /\ In {| rid := Part000.next_rid s; cancelled := false;
                          stage := AwaitFetch; resource := u |}
                       (Part000.inflight s')
               | Throw m =>
                 Part000.loading s' = false
                 /\ Part000.error s' = or_else m fallback_message
               end)).
Proof.
  split.
  - intros c rest s e Hs He.
    exact (MovieJsMore.user_event_launch (Some (c :: rest)) c rest s e eq_refl Hs He).
  - intros c rest s e Hs He.
    exact (Part000More.user_event_launch_v2 (Some (c :: rest)) c rest s e eq_refl Hs He).
Qed.

Lemma user_event_launches_witness :
  (MovieJs.error (MovieJs.dispatch sample_key failed_MovieJs MovieJs.Submit)
   = MovieJs.error failed_MovieJs
   /\ MovieJs.inflight (MovieJs.dispatch sample_key failed_MovieJs MovieJs.Submit)
      = MovieJs.inflight failed_MovieJs)
  /\ Part000.next_rid
       (Part000.dispatch sample_key loaded_Part000
          (Part000.SelectSort (lit "vote_average.desc")))
     = S (Part000.next_rid loaded_Part000).
Proof.
  split.
  - pose proof (proj1 (proj1 user_event_launches 107%N [] failed_MovieJs MovieJs.Submit
                         (MovieJsFacts.run_reachable _ _) eq_refl) eq_refl) as H.
    split; [exact (proj1 (proj2 (proj2 H))) | exact (proj1 (proj2 (proj2 (proj2 H))))].
  - refine (proj1 (proj2 (proj2 (proj2 user_event_launches 107%N [] loaded_Part000
                     (Part000.SelectSort (lit "vote_average.desc"))
                     (Part000Facts.run_reachable_v2 _ _) eq_refl) _))).
    vm_compute. discriminate.
Defined.

Example resubmitting_keeps_the_error :
  MovieJs.error (MovieJs.dispatch sample_key failed_MovieJs MovieJs.Submit)
  = lit "TMDB request failed (503)"
  /\ MovieJs.loading (MovieJs.dispatch sample_key failed_MovieJs MovieJs.Submit)
     = false.
Proof. split; reflexivity. Qed.

(** ** What a response leaves alone *)

(** X8 -- In both versions the resolution of a fetch or of a body, of
    whatever request, leaves the page number, the text of the input, the
    submitted query and the sort key as they are, launches nothing, and
    leaves in flight only requests that were in flight before it, each with
    its flag and its resource. *)
Theorem response_frame :
  (forall API_KEY s e k,
     MovieJs.event_request e = Some k ->
     let s' := MovieJs.dispatch API_KEY s e in
     MovieJs.page s' = MovieJs.page s
     /\ MovieJs.searchInput s' = MovieJs.searchInput s
     /\ MovieJs.query s' = MovieJs.query s /\ MovieJs.sort s' = MovieJs.sort s
     /\ MovieJs.next_rid s' = MovieJs.next_rid s
     /\ (forall r', In r' (MovieJs.inflight s') ->
           exists r, In r (MovieJs.inflight s) /\ rid r = rid r'
                     /\ cancelled r = cancelled r' /\ resource r = resource r'))
  /\ (forall API_KEY s e k,
        Part000.event_request e = Some k ->
        let s' := Part000.dispatch API_KEY s e in
        Part000.page s' = Part000.page s
        /\ Part000.searchInput s' = Part000.searchInput s
        /\ Part000.query s' = Part000.query s /\ Part000.sort s' = Part000.sort s
        /\ Part000.next_rid s' = Part000.next_rid s
        /\ (forall r', In r' (Part000.inflight s') ->
              exists r, In r (Part000.inflight s) /\ rid r = rid r'
                        /\ cancelled r = cancelled r' /\ resource r = resource r')).
Proof.
  split.
  - intros K s e k He s'. subst s'.
    rewrite (MovieJsFacts.dispatch_network K s e k He).
    destruct (MovieJsMore.handle_network_frame s e k He)
      as [[H1 [H2 [H3 H4]]] [_ [H5 H6]]].
    repeat split; assumption.
  - intros K s e k He s'. subst s'.
    rewrite (Part000Facts.dispatch_network_v2 K s e k He).
    destruct (Part000More.handle_network_frame_v2 s e k He)
      as [[H1 [H2 [H3 H4]]] [_ [H5 H6]]].
    repeat split; assumption.
Qed.

Lemma response_frame_witness :
  MovieJs.searchInput
    (MovieJs.dispatch sample_key second_page_MovieJs
       (MovieJs.JsonResolved 1 sample_body))
  = lit "dune"
  /\ Part000.page
       (Part000.dispatch sample_key overlapping_Part000
          (Part000.FetchResolved 1 false 500))
     = 1.
Proof.
  split.
  - exact (proj1 (proj2 (proj1 response_frame sample_key second_page_MovieJs
                           (MovieJs.JsonResolved 1 sample_body) 1%nat eq_refl))).
  - exact (proj1 (proj2 response_frame sample_key overlapping_Part000
                    (Part000.FetchResolved 1 false 500) 1%nat eq_refl)).
Defined.

(** ** The submitted query and the requests for it *)

(** X9 -- In every reachable state of both versions the submitted query is
    trimmed, so it is non-empty exactly when it is non-empty after trimming:
    the mode tag of [Movie.js] names a search exactly when [load] targets the
    search endpoint, and the second version sorts on the client only then. *)
Theorem query_is_trimmed :
  (forall API_KEY Date_parse s,
     MovieJs.reachable API_KEY s ->
     trim (MovieJs.query s) = MovieJs.query s
     /\ (0 <? List.length (trim (MovieJs.query s)))%nat = truthy (MovieJs.query s)
     /\ exists screen,
          render_MovieJs Date_parse s = Some screen
          /\ mode_tag screen
             = Some (if (0 <? List.length (trim (MovieJs.query s)))%nat
                     then SearchResultsFor (MovieJs.query s)
                     else DiscoverMovies))
  /\ (forall API_KEY Date_parse s,
        Part000.reachable API_KEY s ->
        trim (Part000.query s) = Part000.query s
        /\ (0 <? List.length (trim (Part000.query s)))%nat
           = truthy (Part000.query s)
        /\ ((0 <? List.length (trim (Part000.query s)))%nat = false ->
            forall l,
              Part000.sortedMovies Date_parse l (Part000.sort s) (Part000.query s)
              = l)).
Proof.
  split.
  - intros K D s Hs.
    pose proof (MovieJsMore.query_trimmed K s Hs) as Ht.
    pose proof (trim_truthy _ Ht) as Hq.
    split; [exact Ht|]. split; [exact Hq|].
    destruct (isArray_JArr _ (MovieJs.inv_movies _ _
                (MovieJsFacts.reachable_invariant K s Hs))) as [l Hl].
    unfold render_MovieJs. rewrite Hl, Hq. eexists. split; reflexivity.
  - intros K D s Hs.
    pose proof (Part000More.query_trimmed_v2 K s Hs) as Ht.
    pose proof (trim_truthy _ Ht) as Hq.
    split; [exact Ht|]. split; [exact Hq|].
    intros Hf l. rewrite Hq in Hf. unfold Part000.sortedMovies. now rewrite Hf.
Qed.

Lemma query_is_trimmed_witness :
  trim (MovieJs.query
          (MovieJs.run sample_key [MovieJs.Change (lit "  dune  "); MovieJs.Submit]))
  = MovieJs.query
      (MovieJs.run sample_key [MovieJs.Change (lit "  dune  "); MovieJs.Submit])
  /\ Part000.sortedMovies Date_parse_iso [film_A; film_B]
       (Part000.sort
          (Part000.run sample_key [Part000.SelectSort (lit "vote_average.desc")]))
       (Part000.query
          (Part000.run sample_key [Part000.SelectSort (lit "vote_average.desc")]))
     = [film_A; film_B].
Proof.
  split.
  - exact (proj1 (proj1 query_is_trimmed sample_key Date_parse_iso
                    (MovieJs.run sample_key
                       [MovieJs.Change (lit "  dune  "); MovieJs.Submit])
                    (MovieJsFacts.run_reachable _ _))).
  - exact (proj2 (proj2 (proj2 query_is_trimmed sample_key Date_parse_iso
                           (Part000.run sample_key
                              [Part000.SelectSort (lit "vote_average.desc")])
                           (Part000Facts.run_reachable_v2 _ _)))
             eq_refl [film_A; film_B]).
Defined.

Lemma startsWith_same (p a b : jsstring) :
  startsWith (p ++ a) (p ++ b) = startsWith a b.
Proof.
  induction p as [|c p IH]; simpl; [reflexivity|].
  now rewrite N.eqb_refl, IH.
Qed.

Lemma Ok_injective {A} (a b : A) : Ok a = Ok b -> a = b.
Proof. intros H. now injection H. Qed.

Lemma base_shape (fetch_key q : jsstring) (p : Z) (u : jsstring) :
  MovieJs.base fetch_key q p = Ok u ->
  (startsWith (search_endpoint ++ lit "api_key=" ++ fetch_key ++ lit "&query=") u = true
   \/ startsWith (discover_endpoint ++ lit "api_key=" ++ fetch_key ++ lit "&page=") u = true)
  /\ includes (lit "&include_adult=false") u = true.
Proof.
  unfold MovieJs.base. destruct (0 <? _)%nat.
  - destruct (encodeURIComponent q) as [e|]; [|discriminate].
    cbn [bind]. intros H. apply Ok_injective in H. subst u. split.
    + left.
      change (lit "https://api.themoviedb.org/3/search/movie?api_key=")
        with (search_endpoint ++ lit "api_key=").
      rewrite <- !app_assoc.
      rewrite (startsWith_same search_endpoint), (startsWith_same (lit "api_key=")),
        (startsWith_same fetch_key).
      apply startsWith_app.
    + replace (lit "https://api.themoviedb.org/3/search/movie?api_key=" ++ fetch_key
               ++ lit "&query=" ++ e ++ lit "&page=" ++ Number_toString p
               ++ lit "&include_adult=false")
        with ((lit "https://api.themoviedb.org/3/search/movie?api_key=" ++ fetch_key
               ++ lit "&query=" ++ e ++ lit "&page=" ++ Number_toString p)
              ++ lit "&include_adult=false" ++ [])
        by (rewrite app_nil_r, <- !app_assoc; reflexivity).
      apply includes_app.
  - intros H. apply Ok_injective in H. subst u. split.
    + right.
      change (lit "https://api.themoviedb.org/3/discover/movie?api_key=")
        with (discover_endpoint ++ lit "api_key=").
      rewrite <- !app_assoc.
      rewrite (startsWith_same discover_endpoint), (startsWith_same (lit "api_key=")),
        (startsWith_same fetch_key).
      apply startsWith_app.
    + replace (lit "https://api.themoviedb.org/3/discover/movie?api_key=" ++ fetch_key
               ++ lit "&page=" ++ Number_toString p ++ lit "&include_adult=false")
        with ((lit "https://api.themoviedb.org/3/discover/movie?api_key=" ++ fetch_key
               ++ lit "&page=" ++ Number_toString p)
              ++ lit "&include_adult=false" ++ [])
        by (rewrite app_nil_r, <- !app_assoc; reflexivity).
      apply includes_app.
Qed.

Lemma url_shape (fetch_key q : jsstring) (p : Z) (o u : jsstring) :
  Part000.url fetch_key q p o = Ok u ->
  (startsWith (search_endpoint ++ lit "api_key=" ++ fetch_key ++ lit "&query=") u = true
   \/ startsWith (discover_endpoint ++ lit "api_key=" ++ fetch_key ++ lit "&page=") u = true)
  /\ includes (lit "&include_adult=false") u = true.
Proof.
  unfold Part000.url. destruct (0 <? List.length (trim q))%nat eqn:E.
  - intros H. apply (base_shape fetch_key q p u).
    unfold MovieJs.base. rewrite E. exact H.
  - cbv zeta. destruct (truthy o).
    + intros H. apply Ok_injective in H. subst u. split.
      * right.
        change (lit "https://api.themoviedb.org/3/discover/movie?api_key=")
          with (discover_endpoint ++ lit "api_key=").
        rewrite <- !app_assoc.
        rewrite (startsWith_same discover_endpoint),
          (startsWith_same (lit "api_key=")), (startsWith_same fetch_key).
        apply startsWith_app.
      * replace ((lit "https://api.themoviedb.org/3/discover/movie?api_key="
                  ++ fetch_key ++ lit "&page=" ++ Number_toString p
                  ++ lit "&include_adult=false") ++ lit "&sort_by=" ++ o)
          with ((lit "https://api.themoviedb.org/3/discover/movie?api_key="
                 ++ fetch_key ++ lit "&page=" ++ Number_toString p)
                ++ lit "&include_adult=false" ++ lit "&sort_by=" ++ o)
          by (rewrite <- !app_assoc; reflexivity).
        apply includes_app.
    + intros H. apply (base_shape fetch_key q p u).
      unfold MovieJs.base. rewrite E. exact H.
Qed.

Lemma base_page (fetch_key q : jsstring) (p : Z) (u : jsstring) :
  MovieJs.base fetch_key q p = Ok u -> includes (page_parameter p) u = true.
Proof.
  intros H. destruct (jsstring_eq_dec (trim q) []) as [E|E].
  - destruct (base_discover fetch_key q p E) as [u' [H' [_ [_ Hp]]]].
    congruence.
  - destruct (base_search fetch_key q p E) as [Hw Ht].
    destruct (isWellFormed q) eqn:W.
    + destruct (Hw eq_refl) as [u' [e [H' [_ [_ [_ [_ [_ Hp]]]]]]]]. congruence.
    + rewrite (Ht eq_refl) in H. discriminate.
Qed.

Lemma url_page (fetch_key q : jsstring) (p : Z) (o u : jsstring) :
  Part000.url fetch_key q p o = Ok u -> includes (page_parameter p) u = true.
Proof.
  intros H. destruct (jsstring_eq_dec (trim q) []) as [E|E].
  - destruct (url_discover fetch_key q p o E) as [u' [H' [_ [_ [Hp _]]]]].
    congruence.
  - destruct (url_search fetch_key q p o E) as [Hw Ht].
    destruct (isWellFormed q) eqn:W.
    + destruct (Hw eq_refl) as [u' [e [H' [_ [_ [_ [_ [_ Hp]]]]]]]]. congruence.
    + rewrite (Ht eq_refl) in H. discriminate.
Qed.

(** X10 -- With a configured key, in every reachable state of both versions
    every request in flight, current or superseded, fetches a URL that starts
    with the search endpoint or with the discovery endpoint followed by the
    key, and that carries [include_adult=false]. *)
Theorem inflight_resources :
  (forall c rest s r,
     MovieJs.reachable (Some (c :: rest)) s -> In r (MovieJs.inflight s) ->
     (startsWith (search_endpoint ++ lit "api_key=" ++ (c :: rest) ++ lit "&query=")
        (resource r) = true
      \/ startsWith (discover_endpoint ++ lit "api_key=" ++ (c :: rest) ++ lit "&page=")
           (resource r) = true)
     /\ includes (lit "&include_adult=false") (resource r) = true)
  /\ (forall c rest s r,
        Part000.reachable (Some (c :: rest)) s -> In r (Part000.inflight s) ->
        (startsWith (search_endpoint ++ lit "api_key=" ++ (c :: rest) ++ lit "&query=")
           (resource r) = true
         \/ startsWith (discover_endpoint ++ lit "api_key=" ++ (c :: rest) ++ lit "&page=")
              (resource r) = true)
        /\ includes (lit "&include_adult=false") (resource r) = true).
Proof.
  split.
  - intros c rest s r Hs Hr.
    destruct (MovieJsMore.reachable_resources (Some (c :: rest)) c rest s eq_refl Hs r Hr)
      as [[q [p H]] _].
    exact (base_shape _ _ _ _ H).
  - intros c rest s r Hs Hr.
    destruct (Part000More.reachable_resources_v2 (Some (c :: rest)) c rest s eq_refl Hs r Hr)
      as [[q [p [o H]]] _].
    exact (url_shape _ _ _ _ _ H).
Qed.

Lemma inflight_resources_witness :
  includes (lit "&include_adult=false") (resource first_request) = true
  /\ includes (lit "&include_adult=false")
       (resource (hd first_request (Part000.inflight overlapping_Part000))) = true.
Proof.
  split.
  - refine (proj2 (proj1 inflight_resources 107%N [] overlapping_MovieJs first_request
                     (MovieJsFacts.run_reachable _ _) _)).
    vm_compute. right. left. reflexivity.
  - refine (proj2 (proj2 inflight_resources 107%N [] overlapping_Part000
                     (hd first_request (Part000.inflight overlapping_Part000))
                     (Part000Facts.run_reachable_v2 _ _) _)).
    vm_compute. left. reflexivity.
Defined.

(** X11 -- With a configured key, in every reachable state of both versions
    the request whose [cancelled] flag is down fetches the URL that [load]
    builds for the page and the query of that state (and its sort key, in the
    second version): the response that will be stored is the one for what the
    state asks, and it carries the page number on display. *)
Theorem live_request_is_current :
  (forall c rest s r,
     MovieJs.reachable (Some (c :: rest)) s -> In r (MovieJs.inflight s) ->
     cancelled r = false ->
     MovieJs.base (c :: rest) (MovieJs.query s) (MovieJs.page s) = Ok (resource r)
     /\ includes (page_parameter (MovieJs.page s)) (resource r) = true)
  /\ (forall c rest s r,
        Part000.reachable (Some (c :: rest)) s -> In r (Part000.inflight s) ->
        cancelled r = false ->
        Part000.url (c :: rest) (Part000.query s) (Part000.page s) (Part000.sort s)
        = Ok (resource r)
        /\ includes (page_parameter (Part000.page s)) (resource r) = true).
Proof.
  split.
  - intros c rest s r Hs Hr Hc.
    destruct (MovieJsMore.reachable_resources (Some (c :: rest)) c rest s eq_refl Hs r Hr)
      as [_ H].
    split; [now apply H|]. apply (base_page (c :: rest) (MovieJs.query s)).
    now apply H.
  - intros c rest s r Hs Hr Hc.
    destruct (Part000More.reachable_resources_v2 (Some (c :: rest)) c rest s eq_refl Hs r Hr)
      as [_ H].
    split; [now apply H|].
    apply (url_page (c :: rest) (Part000.query s) _ (Part000.sort s)).
    now apply H.
Qed.

Lemma live_request_is_current_witness :
  MovieJs.base (lit "k") (MovieJs.query retrying_MovieJs) (MovieJs.page retrying_MovieJs)
  = Ok (resource retry_request)
  /\ Part000.url (lit "k") (Part000.query overlapping_Part000)
       (Part000.page overlapping_Part000) (Part000.sort overlapping_Part000)
     = Ok (resource (hd first_request (Part000.inflight overlapping_Part000))).
Proof.
  split.
  - refine (proj1 (proj1 live_request_is_current 107%N [] retrying_MovieJs retry_request
                     (MovieJsFacts.run_reachable _ _) _ eq_refl)).
    vm_compute. left. reflexivity.
  - refine (proj1 (proj2 live_request_is_current 107%N [] overlapping_Part000
                     (hd first_request (Part000.inflight overlapping_Part000))
                     (Part000Facts.run_reachable_v2 _ _) _ eq_refl)).
    vm_compute. left. reflexivity.
Defined.

Example live_request_after_submit :
  resource (hd first_request (Part000.inflight overlapping_Part000))
  = lit "https://api.themoviedb.org/3/search/movie?api_key=k&query=dune&page=1&include_adult=false".
Proof. reflexivity. Qed.

(** ** The regions of the page *)

Lemma length_zero_iff_nil {A} (l : list A) :
  Nat.eqb (List.length l) 0 = true <-> l = [].
Proof. destruct l; simpl; split; congruence. Qed.

Lemma sortedMovies_empty_MovieJs Date_parse (l : list MovieRecord) (sort : jsstring) :
  Nat.eqb (List.length (MovieJs.sortedMovies Date_parse l sort)) 0 = true <-> l = [].
Proof.
  rewrite (Permutation_length (sortedMovies_perm_MovieJs Date_parse sort l)).
  apply length_zero_iff_nil.
Qed.

Lemma sortedMovies_empty_Part000 Date_parse (l : list MovieRecord)
    (sort query : jsstring) :
  Nat.eqb (List.length (Part000.sortedMovies Date_parse l sort query)) 0 = true
  <-> l = [].
Proof.
  rewrite (Permutation_length (sortedMovies_perm_Part000 Date_parse sort query l)).
  apply length_zero_iff_nil.
Qed.

(** X12 -- In every reachable state of both versions the page renders, and
    the loading line and the error line are never shown together.  In
    [Movie.js] the grid is always rendered: it says that no movies were found
    exactly when nothing is loading, no error is stored and the stored array
    is empty, and otherwise it shows the cards of the stored movies, also
    while a request is loading or after one failed.  In the second version
    exactly one of three is shown: the loading line, the error line, or the
    grid with the pager; the grid says that no movies were found exactly
    when the stored array is empty. *)
Theorem screen_regions :
  (forall API_KEY Date_parse s,
     MovieJs.reachable API_KEY s ->
     exists screen l,
       render_MovieJs Date_parse s = Some screen /\ MovieJs.movies s = JArr l
       /\ (loading_line screen = true -> error_line screen = None)
       /\ (grid_region screen = Some NoMoviesFound
           <-> MovieJs.loading s = false /\ MovieJs.error s = [] /\ l = [])
       /\ (grid_region screen <> Some NoMoviesFound ->
           grid_region screen
           = Some (Cards (map MovieJs.card
                            (MovieJs.sortedMovies Date_parse l (MovieJs.sort s)))))
       /\ pager_region screen <> None)
  /\ (forall API_KEY Date_parse s,
        Part000.reachable API_KEY s ->
        exists screen l,
          render_Part000 Date_parse s = Some screen /\ Part000.movies s = JArr l
          /\ ((loading_line screen = true /\ error_line screen = None
               /\ grid_region screen = None /\ pager_region screen = None)
              \/ (loading_line screen = false
                  /\ error_line screen = Some (Part000.error s)
                  /\ Part000.error s <> []
                  /\ grid_region screen = None /\ pager_region screen = None)
              \/ (loading_line screen = false /\ error_line screen = None
                  /\ pager_region screen <> None
                  /\ exists g,
                       grid_region screen = Some g
                       /\ (g = NoMoviesFound <-> l = [])
                       /\ (g <> NoMoviesFound ->
                           g = Cards (map Part000.card
                                        (Part000.sortedMovies Date_parse l
                                           (Part000.sort s) (Part000.query s))))))).
Proof.
  split.
  - intros K D s Hs.
    pose proof (MovieJsFacts.reachable_invariant K s Hs) as I.
    destruct (isArray_JArr _ (MovieJs.inv_movies _ _ I)) as [l Hl].
    pose proof (MovieJs.inv_error _ _ I) as He.
    pose proof (sortedMovies_empty_MovieJs D l (MovieJs.sort s)) as Hz.
    unfold render_MovieJs. rewrite Hl. eexists. exists l.
    split; [reflexivity|]. split; [reflexivity|]. simpl.
    destruct (MovieJs.loading s) eqn:El.
    + rewrite (He eq_refl). simpl. split; [reflexivity|]. split.
      * split; [discriminate|]. intros [H _]. discriminate.
      * split; [reflexivity|discriminate].
    + split; [discriminate|]. simpl.
      destruct (MovieJs.error s) as [|c e] eqn:Ee; simpl.
      * destruct (Nat.eqb _ 0) eqn:Ez.
        -- split; [|split; [congruence|discriminate]].
           split; [|reflexivity]. intros _. repeat split. now apply Hz.
        -- split; [|split; [reflexivity|discriminate]].
           split; [discriminate|]. intros [_ [_ H]]. apply Hz in H. congruence.
      * split; [|split; [reflexivity|discriminate]].
        split; [discriminate|]. intros [_ [H _]]. discriminate.
  - intros K D s Hs.
    pose proof (Part000Facts.reachable_invariant_v2 K s Hs) as I.
    destruct (isArray_JArr _ (Part000.inv_movies _ _ I)) as [l Hl].
    pose proof (Part000.inv_error _ _ I) as He.
    pose proof (sortedMovies_empty_Part000 D l (Part000.sort s) (Part000.query s))
      as Hz.
    unfold render_Part000. rewrite Hl. eexists. exists l.
    split; [reflexivity|]. split; [reflexivity|]. simpl.
    destruct (Part000.loading s) eqn:El.
    + rewrite (He eq_refl). simpl. left. repeat split.
    + destruct (Part000.error s) as [|c e] eqn:Ee; simpl.
      * right. right. split; [reflexivity|]. split; [reflexivity|].
        split; [discriminate|].
        destruct (Nat.eqb _ 0) eqn:Ez.
        -- exists NoMoviesFound. split; [reflexivity|]. split.
           ++ split; [|reflexivity]. intros _. now apply Hz.
           ++ intros H. now elim H.
        -- eexists. split; [reflexivity|]. split.
           ++ split; [discriminate|]. intros H. apply Hz in H. congruence.
           ++ reflexivity.
      * right. left. repeat split. discriminate.
Qed.

Lemma screen_regions_witness :
  (exists screen l,
     render_MovieJs Date_parse_iso second_page_MovieJs = Some screen
     /\ MovieJs.movies second_page_MovieJs = JArr l
     /\ (loading_line screen = true -> error_line screen = None)
     /\ (grid_region screen = Some NoMoviesFound
         <-> MovieJs.loading second_page_MovieJs = false
             /\ MovieJs.error second_page_MovieJs = [] /\ l = [])
     /\ (grid_region screen <> Some NoMoviesFound ->
         grid_region screen
         = Some (Cards (map MovieJs.card
                          (MovieJs.sortedMovies Date_parse_iso l
                             (MovieJs.sort second_page_MovieJs)))))
     /\ pager_region screen <> None)
  /\ (exists screen l,
        render_Part000 Date_parse_iso last_page_Part000 = Some screen
        /\ Part000.movies last_page_Part000 = JArr l
        /\ ((loading_line screen = true /\ error_line screen = None
             /\ grid_region screen = None /\ pager_region screen = None)
            \/ (loading_line screen = false
                /\ error_line screen = Some (Part000.error last_page_Part000)
                /\ Part000.error last_page_Part000 <> []
                /\ grid_region screen = None /\ pager_region screen = None)
            \/ (loading_line screen = false /\ error_line screen = None
                /\ pager_region screen <> None
                /\ exists g,
                     grid_region screen = Some g
                     /\ (g = NoMoviesFound <-> l = [])
                     /\ (g <> NoMoviesFound ->
                         g = Cards (map Part000.card
                                      (Part000.sortedMovies Date_parse_iso l
                                         (Part000.sort last_page_Part000)
                                         (Part000.query last_page_Part000))))))).
Proof.
  split.
  - exact (proj1 screen_regions sample_key Date_parse_iso second_page_MovieJs
             (MovieJsFacts.run_reachable _ _)).
  - exact (proj2 screen_regions sample_key Date_parse_iso last_page_Part000
             (Part000Facts.run_reachable_v2 _ _)).
Defined.

Example stale_cards_while_loading :
  MovieJs.loading (MovieJs.dispatch sample_key second_page_MovieJs MovieJs.ClickNext)
  = true
  /\ option_map grid_region
       (render_MovieJs Date_parse_iso
          (MovieJs.dispatch sample_key second_page_MovieJs MovieJs.ClickNext))
     = Some (Some (Cards [MovieJs.card film_A; MovieJs.card film_B]))
  /\ option_map grid_region
       (render_Part000 Date_parse_iso
          (Part000.dispatch sample_key second_page_Part000 Part000.ClickNext))
     = Some None.
Proof. repeat split. Qed.

(** X13 -- In both versions, when the body of the current request resolves
    with an empty [results] array, or with [results] that is not an array,
    the page shows that no movies were found: no loading line, no error line
    and no card. *)
Theorem empty_results_screen :
  (forall API_KEY Date_parse s r d,
     MovieJs.reachable API_KEY s -> In r (MovieJs.inflight s) ->
     cancelled r = false -> stage r = AwaitJson ->
     results d = JArr [] \/ Array_isArray (results d) = false ->
     exists screen,
       render_MovieJs Date_parse
         (MovieJs.dispatch API_KEY s (MovieJs.JsonResolved (rid r) (JsonValue d)))
       = Some screen
       /\ loading_line screen = false /\ error_line screen = None
       /\ grid_region screen = Some NoMoviesFound)
  /\ (forall API_KEY Date_parse s r d,
        Part000.reachable API_KEY s -> In r (Part000.inflight s) ->
        cancelled r = false -> stage r = AwaitJson ->
        results d = JArr [] \/ Array_isArray (results d) = false ->
        exists screen,
          render_Part000 Date_parse
            (Part000.dispatch API_KEY s (Part000.JsonResolved (rid r) (JsonValue d)))
          = Some screen
          /\ loading_line screen = false /\ error_line screen = None
          /\ grid_region screen = Some NoMoviesFound
          /\ pager_region screen <> None).
Proof.
  split.
  - intros K D s r d Hs Hr Hc Hst Hd.
    destruct (body_outcomes_MovieJs K s r Hs Hr Hc Hst) as [H _].
    destruct (H d) as [Hl [He Hm]].
    assert (Hm' : MovieJs.movies
                    (MovieJs.dispatch K s (MovieJs.JsonResolved (rid r) (JsonValue d)))
                  = JArr []).
    { rewrite Hm. destruct Hd as [->| ->]; reflexivity. }
    unfold render_MovieJs. rewrite Hm', Hl, He. eexists. split; [reflexivity|].
    simpl. rewrite sortedMovies_nil_MovieJs. repeat split.
  - intros K D s r d Hs Hr Hc Hst Hd.
    destruct (body_outcomes_Part000 K s r Hs Hr Hc Hst) as [H _].
    destruct (H d) as [Hl [He [Hm _]]].
    assert (Hm' : Part000.movies
                    (Part000.dispatch K s (Part000.JsonResolved (rid r) (JsonValue d)))
                  = JArr []).
    { rewrite Hm. destruct Hd as [->| ->]; reflexivity. }
    unfold render_Part000. rewrite Hm', Hl, He. eexists. split; [reflexivity|].
    simpl. rewrite sortedMovies_nil_Part000. repeat split. discriminate.
Qed.

Lemma empty_results_screen_witness :
  (exists screen,
     render_MovieJs Date_parse_iso
       (MovieJs.dispatch sample_key
          (MovieJs.run sample_key [MovieJs.FetchResolved 0 true 200])
          (MovieJs.JsonResolved 0
             (JsonValue {| results := JArr []; total_pages := Some 0 |})))
     = Some screen
     /\ loading_line screen = false /\ error_line screen = None
     /\ grid_region screen = Some NoMoviesFound)
  /\ (exists screen,
        render_Part000 Date_parse_iso
          (Part000.dispatch sample_key
             (Part000.run sample_key [Part000.FetchResolved 0 true 200])
             (Part000.JsonResolved 0 (JsonValue malformed_body)))
        = Some screen
        /\ loading_line screen = false /\ error_line screen = None
        /\ grid_region screen = Some NoMoviesFound
        /\ pager_region screen <> None).
Proof.
  split.
  - refine (proj1 empty_results_screen sample_key Date_parse_iso
              (MovieJs.run sample_key [MovieJs.FetchResolved 0 true 200])
              awaiting_body {| results := JArr []; total_pages := Some 0 |}
              (MovieJsFacts.run_reachable _ _) _ eq_refl eq_refl (or_introl eq_refl)).
    vm_compute. left. reflexivity.
  - refine (proj2 empty_results_screen sample_key Date_parse_iso
              (Part000.run sample_key [Part000.FetchResolved 0 true 200])
              awaiting_body malformed_body
              (Part000Facts.run_reachable_v2 _ _) _ eq_refl eq_refl (or_intror eq_refl)).
    vm_compute. left. reflexivity.
Defined.

(** ** Paging *)

Lemma network_run_MovieJs API_KEY (events : list MovieJs.Event) :
  forallb network_MovieJs events = true ->
  forall s,
    MovieJs.page (fold_left (MovieJs.dispatch API_KEY) events s) = MovieJs.page s
    /\ MovieJs.query (fold_left (MovieJs.dispatch API_KEY) events s) = MovieJs.query s
    /\ MovieJs.searchInput (fold_left (MovieJs.dispatch API_KEY) events s)
       = MovieJs.searchInput s.
Proof.
  induction events as [|e es IH]; simpl; intros Hn s; [auto|].
  apply andb_true_iff in Hn. destruct Hn as [He Hes].
  unfold network_MovieJs in He.
  destruct (MovieJs.event_request e) as [k|] eqn:E; [|discriminate].
  destruct (IH Hes (MovieJs.dispatch API_KEY s e)) as [-> [-> ->]].
  rewrite (MovieJsFacts.dispatch_network API_KEY s e k E).
  destruct (MovieJsMore.handle_network_frame s e k E) as [[H1 [H2 [H3 _]]] _].
  auto.
Qed.

Lemma network_run_Part000 API_KEY (events : list Part000.Event) :
  forallb network_Part000 events = true ->
  forall s,
    Part000.page (fold_left (Part000.dispatch API_KEY) events s) = Part000.page s
    /\ Part000.query (fold_left (Part000.dispatch API_KEY) events s) = Part000.query s
    /\ Part000.searchInput (fold_left (Part000.dispatch API_KEY) events s)
       = Part000.searchInput s.
Proof.
  induction events as [|e es IH]; simpl; intros Hn s; [auto|].
  apply andb_true_iff in Hn. destruct Hn as [He Hes].
  unfold network_Part000 in He.
  destruct (Part000.event_request e) as [k|] eqn:E; [|discriminate].
  destruct (IH Hes (Part000.dispatch API_KEY s e)) as [-> [-> ->]].
  rewrite (Part000Facts.dispatch_network_v2 API_KEY s e k E).
  destruct (Part000More.handle_network_frame_v2 s e k E) as [[H1 [H2 [H3 _]]] _].
  auto.
Qed.

(** X14 -- In both versions, from a page number of at least 1: a click on
    Next that is enabled, then whatever responses arrive, then a click on
    Previous that is enabled, leaves the page number and the query where
    they were before the click on Next. *)
Theorem previous_undoes_next :
  (forall API_KEY s events,
     1 <= MovieJs.page s -> MovieJs.next_disabled s = false ->
     forallb network_MovieJs events = true ->
     let s1 :=
       fold_left (MovieJs.dispatch API_KEY) events
         (MovieJs.dispatch API_KEY s MovieJs.ClickNext) in
     MovieJs.previous_disabled s1 = false ->
     MovieJs.page s1 = MovieJs.page s + 1
     /\ MovieJs.page (MovieJs.dispatch API_KEY s1 MovieJs.ClickPrevious)
        = MovieJs.page s
     /\ MovieJs.query (MovieJs.dispatch API_KEY s1 MovieJs.ClickPrevious)
        = MovieJs.query s)
  /\ (forall API_KEY s events,
        1 <= Part000.page s ->
        Part000.pagination_rendered s = true -> Part000.next_disabled s = false ->
        forallb network_Part000 events = true ->
        let s1 :=
          fold_left (Part000.dispatch API_KEY) events
            (Part000.dispatch API_KEY s Part000.ClickNext) in
        Part000.pagination_rendered s1 = true ->
        Part000.previous_disabled s1 = false ->
        Part000.page s1 = Part000.page s + 1
        /\ Part000.page (Part000.dispatch API_KEY s1 Part000.ClickPrevious)
           = Part000.page s
        /\ Part000.query (Part000.dispatch API_KEY s1 Part000.ClickPrevious)
           = Part000.query s).
Proof.
  split.
  - intros K s events Hp Hn Hev s1 Hprev.
    destruct (network_run_MovieJs K events Hev (MovieJs.dispatch K s MovieJs.ClickNext))
      as [Hpage [Hquery _]].
    fold s1 in Hpage, Hquery.
    assert (Hnext : MovieJs.page (MovieJs.dispatch K s MovieJs.ClickNext)
                    = MovieJs.page s + 1
                    /\ MovieJs.query (MovieJs.dispatch K s MovieJs.ClickNext)
                       = MovieJs.query s).
    { unfold MovieJs.dispatch.
      destruct (MovieJsFacts.rerender_keeps K s (MovieJs.handle MovieJs.ClickNext s))
        as [_ [-> [-> _]]].
      simpl. rewrite Hn. simpl. auto. }
    destruct Hnext as [Hn1 Hn2]. rewrite Hn1 in Hpage. rewrite Hn2 in Hquery.
    split; [exact Hpage|].
    unfold MovieJs.dispatch.
    destruct (MovieJsFacts.rerender_keeps K s1 (MovieJs.handle MovieJs.ClickPrevious s1))
      as [_ [-> [-> _]]].
    simpl. rewrite Hprev. simpl. rewrite Hpage, Hquery. split; [lia|reflexivity].
  - intros K s events Hp Hr Hn Hev s1 Hr1 Hprev.
    destruct (network_run_Part000 K events Hev (Part000.dispatch K s Part000.ClickNext))
      as [Hpage [Hquery _]].
    fold s1 in Hpage, Hquery.
    assert (Hnext : Part000.page (Part000.dispatch K s Part000.ClickNext)
                    = Part000.page s + 1
                    /\ Part000.query (Part000.dispatch K s Part000.ClickNext)
                       = Part000.query s).
    { unfold Part000.dispatch.
      destruct (Part000Facts.rerender_keeps_v2 K s (Part000.handle Part000.ClickNext s))
        as [_ [-> [-> _]]].
      simpl. rewrite Hr, Hn. simpl. auto. }
    destruct Hnext as [Hn1 Hn2]. rewrite Hn1 in Hpage. rewrite Hn2 in Hquery.
    split; [exact Hpage|].
    unfold Part000.dispatch.
    destruct (Part000Facts.rerender_keeps_v2 K s1
                (Part000.handle Part000.ClickPrevious s1)) as [_ [-> [-> _]]].
    simpl. rewrite Hr1, Hprev. simpl. rewrite Hpage, Hquery. split; [lia|reflexivity].
Qed.

Lemma previous_undoes_next_witness :
  MovieJs.page
    (MovieJs.dispatch sample_key
       (fold_left (MovieJs.dispatch sample_key)
          [MovieJs.FetchResolved 2 true 200; MovieJs.JsonResolved 2 sample_body]
          (MovieJs.dispatch sample_key second_page_MovieJs MovieJs.ClickNext))
       MovieJs.ClickPrevious)
  = MovieJs.page second_page_MovieJs
  /\ Part000.page
       (Part000.dispatch sample_key
          (fold_left (Part000.dispatch sample_key)
             [Part000.FetchResolved 2 true 200; Part000.JsonResolved 2 sample_body]
             (Part000.dispatch sample_key second_page_Part000 Part000.ClickNext))
          Part000.ClickPrevious)
     = Part000.page second_page_Part000.
Proof.
  split.
  - refine (proj1 (proj2 (proj1 previous_undoes_next sample_key second_page_MovieJs
                            [MovieJs.FetchResolved 2 true 200;
                             MovieJs.JsonResolved 2 sample_body]
                            _ eq_refl eq_refl eq_refl))).
    vm_compute. discriminate.
  - refine (proj1 (proj2 (proj2 previous_undoes_next sample_key second_page_Part000
                            [Part000.FetchResolved 2 true 200;
                             Part000.JsonResolved 2 sample_body]
                            _ eq_refl eq_refl eq_refl eq_refl eq_refl))).
    vm_compute. discriminate.
Defined.

(** X15 -- In the second version, while a page count is known and the page
    number is within it, every event other than the arrival of a parsed body
    keeps the page count and keeps the page number within it: Next does not
    go past the last page, and a new search starts at page 1. *)
Theorem page_within_total :
  forall API_KEY s e,
    (forall k d, e <> Part000.JsonResolved k (JsonValue d)) ->
    0 < Part000.totalPages s -> Part000.page s <= Part000.totalPages s ->
    Part000.totalPages (Part000.dispatch API_KEY s e) = Part000.totalPages s
    /\ Part000.page (Part000.dispatch API_KEY s e) <= Part000.totalPages s.
Proof.
  intros K s e Hne Ht Hp. unfold Part000.dispatch.
  rewrite rerender_totalPages.
  destruct (Part000Facts.rerender_keeps_v2 K s (Part000.handle e s)) as [_ [-> _]].
  destruct e as [value|pressed|value| | |k ok status|k m|k data|k m]; simpl.
  - unfold Part000.handleSearchInputChange.
    destruct (str_eqb (trim value) []); simpl; split; auto; lia.
  - unfold Part000.handleKeyPress.
    destruct (str_eqb pressed (lit "Enter")); simpl; split; auto; lia.
  - split; auto.
  - destruct (Part000.pagination_rendered s && negb (Part000.previous_disabled s));
      simpl; split; auto; lia.
  - unfold Part000.next_disabled.
    destruct (Part000.pagination_rendered s); simpl; [|split; auto].
    destruct (Part000.loading s); simpl; [split; auto|].
    destruct (0 <? Part000.totalPages s) eqn:E1; simpl.
    + destruct (Part000.totalPages s <=? Part000.page s) eqn:E2; simpl;
        [split; auto|].
      apply Z.leb_gt in E2. split; [reflexivity|lia].
    + apply Z.ltb_ge in E1. lia.
  - apply (Part000Facts.resume_cases_v2 k _ _
             (fun t => Part000.totalPages t = Part000.totalPages s
                       /\ Part000.page t <= Part000.totalPages s)); auto.
    intros r _ _. unfold Part000.after_fetch.
    destruct ok; simpl; auto. destruct (cancelled r); simpl; auto.
  - apply (Part000Facts.resume_cases_v2 k _ _
             (fun t => Part000.totalPages t = Part000.totalPages s
                       /\ Part000.page t <= Part000.totalPages s)); auto.
    intros r _ _. unfold Part000.after_reject.
    destruct (cancelled r); simpl; auto.
  - apply (Part000Facts.resume_cases_v2 k _ _
             (fun t => Part000.totalPages t = Part000.totalPages s
                       /\ Part000.page t <= Part000.totalPages s)); auto.
    intros r _ _. unfold Part000.after_json.
    destruct (cancelled r); simpl; auto.
    destruct data as [|d]; simpl; auto. elim (Hne k d). reflexivity.
  - apply (Part000Facts.resume_cases_v2 k _ _
             (fun t => Part000.totalPages t = Part000.totalPages s
                       /\ Part000.page t <= Part000.totalPages s)); auto.
    intros r _ _. unfold Part000.after_reject.
    destruct (cancelled r); simpl; auto.
Qed.

Lemma page_within_total_witness :
  Part000.totalPages (Part000.dispatch sample_key last_page_Part000 Part000.ClickNext)
  = 3
  /\ Part000.page (Part000.dispatch sample_key last_page_Part000 Part000.ClickNext)
     <= 3.
Proof.
  refine (page_within_total sample_key last_page_Part000 Part000.ClickNext _ _ _).
  - intros k d. discriminate.
  - vm_compute. reflexivity.
  - vm_compute. discriminate.
Defined.

(** A body that reports fewer pages can leave the page number beyond the
    count: the bound is not an invariant of the responses. *)
Example page_beyond_total :
  Part000.page
    (Part000.dispatch sample_key
       (Part000.run sample_key
          [Part000.FetchResolved 0 true 200; Part000.JsonResolved 0 sample_body;
           Part000.ClickNext; Part000.FetchResolved 1 true 200])
       (Part000.JsonResolved 1
          (JsonValue {| results := JArr [film_A]; total_pages := Some 1 |})))
  = 2
  /\ Part000.totalPages
       (Part000.dispatch sample_key
          (Part000.run sample_key
             [Part000.FetchResolved 0 true 200; Part000.JsonResolved 0 sample_body;
              Part000.ClickNext; Part000.FetchResolved 1 true 200])
          (Part000.JsonResolved 1
             (JsonValue {| results := JArr [film_A]; total_pages := Some 1 |})))
     = 1.
Proof. split; reflexivity. Qed.

(** ** Submitting and clearing a search *)

(** X16 -- With a configured key, in every reachable state: submitting the
    form in [Movie.js], or pressing Enter in the second version, keeps the
    text of the input, sets the query to that text trimmed and the page
    number to 1; the request whose flag is down afterwards, if there is
    one, fetches the URL [load] builds for that query on page 1; and when
    the query or the page number changed and that URL can be built, that
    request is in flight and the loading flag is up. *)
Theorem submit_searches_input :
  (forall c rest s,
     MovieJs.reachable (Some (c :: rest)) s ->
     let s' := MovieJs.dispatch (Some (c :: rest)) s MovieJs.Submit in
     MovieJs.searchInput s' = MovieJs.searchInput s
     /\ MovieJs.query s' = trim (MovieJs.searchInput s)
     /\ MovieJs.page s' = 1
     /\ (forall r, In r (MovieJs.inflight s') -> cancelled r = false ->
           MovieJs.base (c :: rest) (trim (MovieJs.searchInput s)) 1
           = Ok (resource r))
     /\ (MovieJs.deps s' <> MovieJs.deps s ->
         forall u,
           MovieJs.base (c :: rest) (trim (MovieJs.searchInput s)) 1 = Ok u ->
           MovieJs.loading s' = true
           /\ exists r, In r (MovieJs.inflight s') /\ cancelled r = false
                        /\ resource r = u))
  /\ (forall c rest s,
        Part000.reachable (Some (c :: rest)) s ->
        let s' := Part000.dispatch (Some (c :: rest)) s
                    (Part000.KeyPress (lit "Enter")) in
        Part000.searchInput s' = Part000.searchInput s
        /\ Part000.query s' = trim (Part000.searchInput s)
        /\ Part000.page s' = 1
        /\ (forall r, In r (Part000.inflight s') -> cancelled r = false ->
              Part000.url (c :: rest) (trim (Part000.searchInput s)) 1
                (Part000.sort s)
              = Ok (resource r))
        /\ (Part000.deps s' <> Part000.deps s ->
            forall u,
              Part000.url (c :: rest) (trim (Part000.searchInput s)) 1
                (Part000.sort s) = Ok u ->
              Part000.loading s' = true
              /\ exists r, In r (Part000.inflight s') /\ cancelled r = false
                           /\ resource r = u)).
Proof.
  split.
  - intros c rest s Hs s'.
    assert (Hs' : MovieJs.reachable (Some (c :: rest)) s') by now constructor.
    assert (Hk : MovieJs.searchInput s' = MovieJs.searchInput s
                 /\ MovieJs.query s' = trim (MovieJs.searchInput s)
                 /\ MovieJs.page s' = 1).
    { subst s'. unfold MovieJs.dispatch.
      destruct (MovieJsFacts.rerender_keeps (Some (c :: rest)) s
                  (MovieJs.handle MovieJs.Submit s)) as [_ [-> [-> [_ ->]]]].
      simpl. auto. }
    destruct Hk as [Hi [Hq Hp]].
    split; [exact Hi|]. split; [exact Hq|]. split; [exact Hp|]. split.
    + intros r Hr Hc.
      pose proof (proj2 (MovieJsMore.reachable_resources (Some (c :: rest)) c rest s'
                           eq_refl Hs' r Hr) Hc) as H.
      now rewrite Hq, Hp in H.
    + intros Hd u Hu.
      pose proof (proj2 (MovieJsMore.user_event_launch (Some (c :: rest)) c rest s
                           MovieJs.Submit eq_refl Hs eq_refl) Hd) as H.
      fold s' in H. rewrite Hq, Hp, Hu in H.
      destruct H as [_ [_ [_ [Hl [_ Hin]]]]].
      split; [exact Hl|]. eexists. split; [exact Hin|]. split; reflexivity.
  - intros c rest s Hs s'.
    assert (Hs' : Part000.reachable (Some (c :: rest)) s') by now constructor.
    assert (Hk : Part000.searchInput s' = Part000.searchInput s
                 /\ Part000.query s' = trim (Part000.searchInput s)
                 /\ Part000.page s' = 1 /\ Part000.sort s' = Part000.sort s).
    { subst s'. unfold Part000.dispatch.
      destruct (Part000Facts.rerender_keeps_v2 (Some (c :: rest)) s
                  (Part000.handle (Part000.KeyPress (lit "Enter")) s))
        as [_ [-> [-> [-> ->]]]].
      simpl. auto. }
    destruct Hk as [Hi [Hq [Hp Hso]]].
    split; [exact Hi|]. split; [exact Hq|]. split; [exact Hp|]. split.
    + intros r Hr Hc.
      pose proof (proj2 (Part000More.reachable_resources_v2 (Some (c :: rest)) c rest s'
                           eq_refl Hs' r Hr) Hc) as H.
      now rewrite Hq, Hp, Hso in H.
    + intros Hd u Hu.
      pose proof (proj2 (Part000More.user_event_launch_v2 (Some (c :: rest)) c rest s
                           (Part000.KeyPress (lit "Enter")) eq_refl Hs eq_refl) Hd)
        as H.
      fold s' in H. rewrite Hq, Hp, Hso, Hu in H.
      destruct H as [_ [_ [_ [Hl [_ Hin]]]]].
      split; [exact Hl|]. eexists. split; [exact Hin|]. split; reflexivity.
Qed.

Lemma submit_searches_input_witness :
  MovieJs.loading (MovieJs.dispatch sample_key second_page_MovieJs MovieJs.Submit)
  = true
  /\ MovieJs.query (MovieJs.dispatch sample_key second_page_MovieJs MovieJs.Submit)
     = lit "dune"
  /\ Part000.page
       (Part000.dispatch sample_key second_page_Part000
          (Part000.KeyPress (lit "Enter"))) = 1.
Proof.
  split; [|split].
  - refine (proj1 (proj2 (proj2 (proj2 (proj2
              (proj1 submit_searches_input 107%N [] second_page_MovieJs
                 (MovieJsFacts.run_reachable _ _))))) _ _ eq_refl)).
    vm_compute. discriminate.
  - exact (proj1 (proj2 (proj1 submit_searches_input 107%N [] second_page_MovieJs
                           (MovieJsFacts.run_reachable _ _)))).
  - exact (proj1 (proj2 (proj2 (proj2 submit_searches_input 107%N []
                                  second_page_Part000
                                  (Part000Facts.run_reachable_v2 _ _))))).
Defined.

(** X17 -- With a configured key, in every reachable state: Clear in
    [Movie.js] empties the input and the query and sets the page number to 1,
    and in the second version an input that trims to the empty string
    empties the query and sets the page number to 1 while an input that does
    not leaves them and launches nothing.  After either, the request whose
    flag is down, if there is one, fetches the first page of the discovery
    endpoint. *)
Theorem clear_returns_to_discovery :
  (forall c rest s,
     MovieJs.reachable (Some (c :: rest)) s ->
     let s' := MovieJs.dispatch (Some (c :: rest)) s MovieJs.Clear in
     MovieJs.searchInput s' = [] /\ MovieJs.query s' = [] /\ MovieJs.page s' = 1
     /\ (forall r, In r (MovieJs.inflight s') -> cancelled r = false ->
           resource r
           = lit "https://api.themoviedb.org/3/discover/movie?api_key=" ++ (c :: rest)
             ++ lit "&page=1&include_adult=false"))
  /\ (forall c rest s value,
        Part000.reachable (Some (c :: rest)) s ->
        let s' := Part000.dispatch (Some (c :: rest)) s (Part000.Change value) in
        Part000.searchInput s' = value
        /\ (trim value = [] ->
            Part000.query s' = [] /\ Part000.page s' = 1
            /\ (forall r, In r (Part000.inflight s') -> cancelled r = false ->
                  startsWith
                    (lit "https://api.themoviedb.org/3/discover/movie?api_key="
                     ++ (c :: rest) ++ lit "&page=1&include_adult=false")
                    (resource r) = true))
        /\ (trim value <> [] ->
            Part000.query s' = Part000.query s /\ Part000.page s' = Part000.page s
            /\ Part000.inflight s' = Part000.inflight s
            /\ Part000.loading s' = Part000.loading s)).
Proof.
  split.
  - intros c rest s Hs s'.
    assert (Hs' : MovieJs.reachable (Some (c :: rest)) s') by now constructor.
    assert (Hk : MovieJs.searchInput s' = [] /\ MovieJs.query s' = []
                 /\ MovieJs.page s' = 1).
    { subst s'. unfold MovieJs.dispatch.
      destruct (MovieJsFacts.rerender_keeps (Some (c :: rest)) s
                  (MovieJs.handle MovieJs.Clear s)) as [_ [-> [-> [_ ->]]]].
      simpl. auto. }
    destruct Hk as [Hi [Hq Hp]].
    split; [exact Hi|]. split; [exact Hq|]. split; [exact Hp|].
    intros r Hr Hc.
    pose proof (proj2 (MovieJsMore.reachable_resources (Some (c :: rest)) c rest s'
                         eq_refl Hs' r Hr) Hc) as H.
    rewrite Hq, Hp in H. unfold MovieJs.base in H. simpl trim in H.
    cbn [List.length Nat.ltb Nat.leb] in H. apply Ok_injective in H.
    rewrite <- H. reflexivity.
  - intros c rest s value Hs s'.
    assert (Hs' : Part000.reachable (Some (c :: rest)) s') by now constructor.
    assert (Hk : Part000.searchInput s'
                 = Part000.searchInput (Part000.handle (Part000.Change value) s)
                 /\ Part000.query s'
                    = Part000.query (Part000.handle (Part000.Change value) s)
                 /\ Part000.page s'
                    = Part000.page (Part000.handle (Part000.Change value) s)).
    { subst s'. unfold Part000.dispatch.
      destruct (Part000Facts.rerender_keeps_v2 (Some (c :: rest)) s
                  (Part000.handle (Part000.Change value) s))
        as [_ [-> [-> [_ ->]]]].
      auto. }
    destruct Hk as [Hi [Hq Hp]]. simpl in Hi, Hq, Hp.
    unfold Part000.handleSearchInputChange in Hi, Hq, Hp.
    split; [|split].
    + rewrite Hi. now destruct (str_eqb (trim value) []).
    + intros Hv. rewrite Hv in Hq, Hp. simpl in Hq, Hp.
      split; [exact Hq|]. split; [exact Hp|].
      intros r Hr Hc.
      pose proof (proj2 (Part000More.reachable_resources_v2 (Some (c :: rest)) c rest s'
                           eq_refl Hs' r Hr) Hc) as H.
      rewrite Hq, Hp in H. unfold Part000.url in H. simpl trim in H.
      cbn [List.length Nat.ltb Nat.leb] in H. cbv zeta in H.
      destruct (truthy (Part000.sort s')); apply Ok_injective in H; rewrite <- H.
      * rewrite <- !app_assoc.
        rewrite (startsWith_same
                   (lit "https://api.themoviedb.org/3/discover/movie?api_key=")),
          (startsWith_same (c :: rest)).
        reflexivity.
      * rewrite <- (app_nil_r (lit "https://api.themoviedb.org/3/discover/movie?api_key="
                               ++ (c :: rest) ++ lit "&page=" ++ Number_toString 1
                               ++ lit "&include_adult=false")) at 1.
        rewrite <- !app_assoc.
        rewrite (startsWith_same
                   (lit "https://api.themoviedb.org/3/discover/movie?api_key=")),
          (startsWith_same (c :: rest)).
        reflexivity.
    + intros Hv.
      assert (E : str_eqb (trim value) [] = false).
      { destruct (str_eqb (trim value) []) eqn:E; [|reflexivity].
        apply str_eqb_eq in E. contradiction. }
      rewrite E in Hq, Hp. simpl in Hq, Hp.
      split; [exact Hq|]. split; [exact Hp|].
      subst s'. unfold Part000.dispatch, Part000.rerender. simpl.
      unfold Part000.handleSearchInputChange. rewrite E.
      change (Part000.deps (Part000.setSearchInput value s)) with (Part000.deps s).
      rewrite Part000Facts.deps_eqb_refl_v2. simpl. auto.
Qed.

Lemma clear_returns_to_discovery_witness :
  MovieJs.query (MovieJs.dispatch sample_key overlapping_MovieJs MovieJs.Clear) = []
  /\ Part000.query
       (Part000.dispatch sample_key overlapping_Part000 (Part000.Change (lit " ")))
     = []
  /\ Part000.inflight
       (Part000.dispatch sample_key overlapping_Part000 (Part000.Change (lit "dun")))
     = Part000.inflight overlapping_Part000.
Proof.
  split; [|split].
  - exact (proj1 (proj2 (proj1 clear_returns_to_discovery 107%N [] overlapping_MovieJs
                           (MovieJsFacts.run_reachable _ _)))).
  - exact (proj1 (proj1 (proj2 (proj2 clear_returns_to_discovery 107%N []
                                  overlapping_Part000 (lit " ")
                                  (Part000Facts.run_reachable_v2 _ _))) eq_refl)).
  - refine (proj1 (proj2 (proj2 (proj2 (proj2 (proj2 clear_returns_to_discovery 107%N []
                                  overlapping_Part000 (lit "dun")
                                  (Part000Facts.run_reachable_v2 _ _))) _)))).
    vm_compute. discriminate.
Defined.
